(** * KCBS event scraper: a shallow embedding of [kcbs_browser_scraper.py]

    The development follows the source file top to bottom:
    - [Py]: the Python values the script handles (decoded JSON, [str]
      operations, truthiness, [str()] and [repr()]);
    - [Re]: the fragment of the [re] module the script uses (backtracking
      search with greedy quantifiers and capture groups);
    - [Cal]: the proleptic Gregorian calendar behind [datetime];
    - [Scraper]: [get_date_range], [search_events_by_radius],
      [parse_events] and [main].

    Text is modelled as lists of 8-bit characters, that is the Latin-1
    range of Python's [str]; the classes [\s] and [\d] and [str.strip]
    follow CPython on that range.  A [str] of Python can also hold
    characters beyond that range, lone surrogates among them, which no
    encoding accepts: they are outside this model.  Where the script
    encodes a text, the model says so: the output file has an encoding
    that may refuse characters ([codec]), standard output is taken to
    accept what is printed, and [quote_plus] encodes to UTF-8, which
    holds every character of the range. *)

From Stdlib Require Import List Ascii String ZArith Lia Bool Arith.
From Stdlib Require Import DecimalString.
Import ListNotations.

Set Implicit Arguments.
Local Open Scope Z_scope.

(* ================================================================== *)
(** * Python values *)
(* ================================================================== *)

Module Py.

(** A Python [str], as the list of its characters. *)
Definition str := list ascii.

(** String literals of the source are written as Rocq strings. *)
Definition s (x : string) : str := list_ascii_of_string x.
Arguments s x : simpl never.

Definition code (c : ascii) : Z := Z.of_N (N_of_ascii c).

Definition chr (n : Z) : ascii := ascii_of_N (Z.to_N n).

Definition ascii_eqb (a b : ascii) : bool := Ascii.eqb a b.

Fixpoint str_eqb (a b : str) : bool :=
  match a, b with
  | [], [] => true
  | x :: a', y :: b' => ascii_eqb x y && str_eqb a' b'
  | _, _ => false
  end.

(** [Py_UNICODE_ISSPACE] on code points below 256: the characters
    [str.strip()] removes and [\s] matches. *)
Definition isspace (c : ascii) : bool :=
  let n := code c in
  ((9 <=? n) && (n <=? 13)) || ((28 <=? n) && (n <=? 32))
  || (n =? 133) || (n =? 160).

(** Unicode decimal digits below 256 are the ASCII digits. *)
Definition isdigit (c : ascii) : bool :=
  let n := code c in (48 <=? n) && (n <=? 57).

Definition isupper_az (c : ascii) : bool :=
  let n := code c in (65 <=? n) && (n <=? 90).

Definition islower_az (c : ascii) : bool :=
  let n := code c in (97 <=? n) && (n <=? 122).

(** [str.lstrip()], [str.rstrip()] and [str.strip()] without argument. *)
Fixpoint lstrip (x : str) : str :=
  match x with
  | c :: x' => if isspace c then lstrip x' else x
  | [] => []
  end.

Definition rstrip (x : str) : str := rev (lstrip (rev x)).

Definition strip (x : str) : str := rstrip (lstrip x).

(** [x.startswith(p)] *)
Fixpoint startswith (x p : str) : bool :=
  match p, x with
  | [], _ => true
  | c :: p', d :: x' => ascii_eqb c d && startswith x' p'
  | _ :: _, [] => false
  end.

(** [x.find(c)] for a one-character needle: index of the first
    occurrence, or -1. *)
Fixpoint find_from (c : ascii) (x : str) (i : Z) : Z :=
  match x with
  | [] => -1
  | d :: x' => if ascii_eqb c d then i else find_from c x' (i + 1)
  end.

Definition find (x : str) (c : ascii) : Z := find_from c x 0.

(** [x.rfind(c)]: index of the last occurrence, or -1. *)
Fixpoint rfind_from (c : ascii) (x : str) (i : Z) (last : Z) : Z :=
  match x with
  | [] => last
  | d :: x' => rfind_from c x' (i + 1) (if ascii_eqb c d then i else last)
  end.

Definition rfind (x : str) (c : ascii) : Z := rfind_from c x 0 (-1).

(** [x[a:b]] for indices [0 <= a], [0 <= b], as the script uses it. *)
Definition slice (x : str) (a b : Z) : str :=
  firstn (Z.to_nat (b - a)) (skipn (Z.to_nat a) x).

(** [sep.join(xs)] *)
Fixpoint join (sep : str) (xs : list str) : str :=
  match xs with
  | [] => []
  | [x] => x
  | x :: xs' => x ++ sep ++ join sep xs'
  end.

(** [str(n)] for an [int]. *)
Definition str_of_int (n : Z) : str :=
  s (NilZero.string_of_int (Z.to_int n)).

(** A Python [float] reaches this program only from [json.loads] and is
    observed only through [bool()] and [str()]; it is represented by
    these two observations. *)
Record pyfloat := { float_truth : bool; float_str : str }.

(** The values [json.loads] produces.  A [dict] keeps its insertion
    order: it is the list of its items, keys pairwise distinct. *)
#[warnings="-register-all"]
Inductive value :=
| VNone
| VBool (b : bool)
| VInt (n : Z)
| VFloat (f : pyfloat)
| VStr (x : str)
| VList (l : list value)
| VDict (d : list (str * value)).

(** [key in d] and [d[key]] / [d.get(key)] *)
Fixpoint dict_lookup (d : list (str * value)) (k : str) : option value :=
  match d with
  | [] => None
  | (k', v) :: d' => if str_eqb k k' then Some v else dict_lookup d' k
  end.

Definition dict_contains (d : list (str * value)) (k : str) : bool :=
  match dict_lookup d k with Some _ => true | None => false end.

(** [d.get(key, default)] *)
Definition dict_get (d : list (str * value)) (k : str) (default : value) : value :=
  match dict_lookup d k with Some v => v | None => default end.

(** The keys of a well-formed [dict] are pairwise distinct. *)
Fixpoint wf (v : value) : Prop :=
  match v with
  | VList l => (fix all (l : list value) : Prop :=
                  match l with [] => True | x :: l' => wf x /\ all l' end) l
  | VDict d => NoDup (map fst d) /\
               (fix all (d : list (str * value)) : Prop :=
                  match d with [] => True | (_, x) :: d' => wf x /\ all d' end) d
  | _ => True
  end.

(** [bool(v)] *)
Definition truthy (v : value) : bool :=
  match v with
  | VNone => false
  | VBool b => b
  | VInt n => negb (n =? 0)
  | VFloat f => float_truth f
  | VStr x => match x with [] => false | _ => true end
  | VList l => match l with [] => false | _ => true end
  | VDict d => match d with [] => false | _ => true end
  end.

(** [a or b] *)
Definition py_or (a b : value) : value := if truthy a then a else b.

(** [type(v).__name__] *)
Definition type_name (v : value) : str :=
  match v with
  | VNone => s "NoneType"
  | VBool _ => s "bool"
  | VInt _ => s "int"
  | VFloat _ => s "float"
  | VStr _ => s "str"
  | VList _ => s "list"
  | VDict _ => s "dict"
  end.

(** ** [repr] of a [str] *)

Definition hex_digit (n : Z) : ascii :=
  if n <? 10 then chr (48 + n) else chr (87 + n).

Definition contains_char (c : ascii) (x : str) : bool :=
  existsb (ascii_eqb c) x.

(** Characters [repr] writes as they are (printable, Latin-1 range). *)
Definition isprintable (c : ascii) : bool :=
  let n := code c in
  ((32 <=? n) && (n <? 127)) || ((161 <=? n) && negb (n =? 173)).

Definition repr_char (quote : ascii) (c : ascii) : str :=
  if ascii_eqb c quote || ascii_eqb c "\"%char then ["\"%char; c]
  else if code c =? 9 then s "\t"
  else if code c =? 10 then s "\n"
  else if code c =? 13 then s "\r"
  else if isprintable c then [c]
  else ["\"%char; "x"%char; hex_digit (code c / 16); hex_digit (code c mod 16)].

Definition dquote : ascii := chr 34.
Definition squote : ascii := chr 39.

Definition repr_str (x : str) : str :=
  let quote := if contains_char squote x && negb (contains_char dquote x)
               then dquote else squote in
  quote :: flat_map (repr_char quote) x ++ [quote].

(** ** [repr(v)] and [str(v)] *)

Fixpoint repr (v : value) : str :=
  match v with
  | VNone => s "None"
  | VBool true => s "True"
  | VBool false => s "False"
  | VInt n => str_of_int n
  | VFloat f => float_str f
  | VStr x => repr_str x
  | VList l =>
      s "[" ++ join (s ", ") (map repr l) ++ s "]"
  | VDict d =>
      s "{" ++ join (s ", ")
        ((fix items (d : list (str * value)) : list str :=
            match d with
            | [] => []
            | (k, x) :: d' => (repr_str k ++ s ": " ++ repr x) :: items d'
            end) d) ++ s "}"
  end.

(** [str(v)], which is what an f-string field [{v}] inserts. *)
Definition to_str (v : value) : str :=
  match v with
  | VStr x => x
  | _ => repr v
  end.

End Py.

(* ================================================================== *)
(** * The [re] fragment used by the script *)
(* ================================================================== *)

Module Re.
Import Py.

(** One element of a bracket expression. *)
Inductive item :=
| IChar (c : ascii)            (* a literal character *)
| IRange (lo hi : ascii)       (* [lo-hi] *)
| ISpace                       (* [\s] *)
| IDigit.                      (* [\d] *)

Definition item_accepts (i : item) (c : ascii) : bool :=
  match i with
  | IChar d => ascii_eqb d c
  | IRange lo hi => (code lo <=? code c) && (code c <=? code hi)
  | ISpace => isspace c
  | IDigit => isdigit c
  end.

(** What matches exactly one character. *)
Inductive atom :=
| AChar (c : ascii)            (* the character itself *)
| ASet (items : list item)     (* [...] *)
| ANot (items : list item).    (* [^...] *)

Definition accepts (a : atom) (c : ascii) : bool :=
  match a with
  | AChar d => ascii_eqb d c
  | ASet l => existsb (fun i => item_accepts i c) l
  | ANot l => negb (existsb (fun i => item_accepts i c) l)
  end.

(** The patterns of the script quantify single characters and character
    classes only. *)
Inductive regex :=
| REps                               (* the empty pattern *)
| RAtom (a : atom)
| RStar (a : atom)                   (* [a*], greedy *)
| RPlus (a : atom)                   (* [a+], greedy *)
| ROpt (a : atom)                    (* [a?], greedy *)
| RRep (n : nat) (a : atom)          (* [a{n}] *)
| RCat (r1 r2 : regex)
| RGroup (n : nat) (r : regex).      (* capture group number [n] *)

(** A literal piece of a pattern. *)
Fixpoint lit_chars (x : str) : regex :=
  match x with
  | [] => REps
  | c :: x' => RCat (RAtom (AChar c)) (lit_chars x')
  end.

Definition lit (x : string) : regex := lit_chars (s x).

Fixpoint cat (rs : list regex) : regex :=
  match rs with
  | [] => REps
  | r :: rs' => RCat r (cat rs')
  end.

(** Captured groups: group number and text, latest first. *)
Definition caps := list (nat * str).

Fixpoint group (c : caps) (n : nat) : option str :=
  match c with
  | [] => None
  | (m, x) :: c' => if Nat.eqb n m then Some x else group c' n
  end.

(** One way to match a prefix of the subject: the text consumed, the
    rest of the subject, and the groups captured. *)
Definition way := (str * str * caps)%type.

(** All ways a greedy run of [p]-characters can stop, longest first:
    the order in which a backtracking matcher tries them. *)
Fixpoint runs (p : ascii -> bool) (x : str) : list (str * str) :=
  match x with
  | c :: x' =>
      if p c then map (fun w => (c :: fst w, snd w)) (runs p x') ++ [([], x)]
      else [([], x)]
  | [] => [([], [])]
  end.

(** Exactly [n] characters accepted by [p]. *)
Fixpoint exactly (p : ascii -> bool) (n : nat) (x : str) : list (str * str) :=
  match n with
  | O => [([], x)]
  | S n' =>
      match x with
      | c :: x' =>
          if p c then map (fun w => (c :: fst w, snd w)) (exactly p n' x')
          else []
      | [] => []
      end
  end.

(** [ways r x c]: every way [r] matches a prefix of [x], in the order a
    backtracking matcher finds them, starting with groups [c]. *)
Fixpoint ways (r : regex) (x : str) (c : caps) : list way :=
  match r with
  | REps => [([], x, c)]
  | RAtom a =>
      match x with
      | d :: x' => if accepts a d then [([d], x', c)] else []
      | [] => []
      end
  | RStar a => map (fun w => (fst w, snd w, c)) (runs (accepts a) x)
  | RPlus a =>
      match x with
      | d :: x' =>
          if accepts a d
          then map (fun w => (d :: fst w, snd w, c)) (runs (accepts a) x')
          else []
      | [] => []
      end
  | ROpt a =>
      match x with
      | d :: x' => if accepts a d then [([d], x', c); ([], x, c)] else [([], x, c)]
      | [] => [([], x, c)]
      end
  | RRep n a => map (fun w => (fst w, snd w, c)) (exactly (accepts a) n x)
  | RCat r1 r2 =>
      flat_map (fun w1 : way =>
                  let '(m1, x1, c1) := w1 in
                  map (fun w2 : way =>
                         let '(m2, x2, c2) := w2 in (m1 ++ m2, x2, c2))
                      (ways r2 x1 c1))
               (ways r1 x c)
  | RGroup n r =>
      map (fun w : way => let '(m, x', c') := w in (m, x', (n, m) :: c'))
          (ways r x c)
  end.

(** [re.match]: the first way, if any. *)
Definition match_here (r : regex) (x : str) : option caps :=
  match ways r x [] with
  | (_, _, c) :: _ => Some c
  | [] => None
  end.

(** [re.search(r, x)]: the match at the leftmost position that has
    one; [None] when no position has. *)
Fixpoint search (r : regex) (x : str) : option caps :=
  match match_here r x with
  | Some c => Some c
  | None =>
      match x with
      | [] => None
      | _ :: x' => search r x'
      end
  end.

(** [m.group(n)] of a match object; every group the script reads takes
    part in every match of its pattern. *)
Definition group_text (c : caps) (n : nat) : str :=
  match group c n with Some x => x | None => [] end.

(** ** The patterns of [parse_events] *)

Definition not_lt : atom := ANot [IChar "<"%char].
Definition not_gt : atom := ANot [IChar ">"%char].
Definition space : atom := ASet [ISpace].
Definition digit : atom := ASet [IDigit].
Definition quote : atom := ASet [IChar dquote; IChar squote].
Definition not_quote : atom := ANot [IChar dquote; IChar squote].

(** [<b>([^<]+)</b>] *)
Definition name_re : regex :=
  cat [lit "<b>"; RGroup 1 (RPlus not_lt); lit "</b>"].

(** [DIST:\s*(\d+)\s*mi] *)
Definition distance_re : regex :=
  cat [lit "DIST:"; RStar space; RGroup 1 (RPlus digit); RStar space; lit "mi"].

(** [<i>([^<]+)</i>] *)
Definition date_re : regex :=
  cat [lit "<i>"; RGroup 1 (RPlus not_lt); lit "</i>"].

(** [</a>([^<]+)<br[^>]*>UNITED STATES] *)
Definition location_re : regex :=
  cat [lit "</a>"; RGroup 1 (RPlus not_lt); lit "<br"; RStar not_gt;
       lit ">UNITED STATES"].

(** [</a>( [A-Za-z\s,]+ [A-Z]{2} \s* \d* )<br], written here with
    spaces between its pieces. *)
Definition location_alt_re : regex :=
  cat [lit "</a>";
       RGroup 1 (cat [RPlus (ASet [IRange "A"%char "Z"%char;
                                   IRange "a"%char "z"%char;
                                   ISpace; IChar ","%char]);
                      RRep 2 (ASet [IRange "A"%char "Z"%char]);
                      RStar space; RStar digit]);
       lit "<br"].

(** [Reps?:\s*([^<]+)] *)
Definition rep_re : regex :=
  cat [lit "Rep"; ROpt (AChar "s"%char); lit ":"; RStar space;
       RGroup 1 (RPlus not_lt)].

(** [onclick=Q viewEvent\( (\d+) \) Q] where [Q] is the bracket set of
    the double and the single quote.  The second attempt of the script
    lists the two quotes in the other order: it is the same pattern. *)
Definition onclick_re : regex :=
  cat [lit "onclick="; RAtom quote; lit "viewEvent(";
       RGroup 1 (RPlus digit); lit ")"; RAtom quote].

Definition onclick_re2 : regex :=
  cat [lit "onclick="; RAtom (ASet [IChar squote; IChar dquote]);
       lit "viewEvent("; RGroup 1 (RPlus digit); lit ")";
       RAtom (ASet [IChar squote; IChar dquote])].

(** [viewEvent\((\d+)\)] *)
Definition view_event_re : regex :=
  cat [lit "viewEvent("; RGroup 1 (RPlus digit); lit ")"].

(** [href=Q ( N* evr N* evid= (\d+) N* ) Q] where [Q] is the bracket set
    of the two quotes and [N] its complement. *)
Definition href_re : regex :=
  cat [lit "href="; RAtom quote;
       RGroup 1 (cat [RStar not_quote; lit "evr"; RStar not_quote;
                      lit "evid="; RGroup 2 (RPlus digit); RStar not_quote]);
       RAtom quote].

End Re.

(* ================================================================== *)
(** * The calendar of [datetime] *)
(* ================================================================== *)

Module Cal.
Import Py.

(** [datetime]: a date of the proleptic Gregorian calendar and a time of
    day (microseconds since midnight). *)
Record datetime := {
  year : Z;
  month : Z;
  day : Z;
  time_of_day : Z
}.

Definition MINYEAR : Z := 1.
Definition MAXYEAR : Z := 9999.

Definition is_leap (y : Z) : bool :=
  (y mod 4 =? 0) && (negb (y mod 100 =? 0) || (y mod 400 =? 0)).

(** Days before January 1st of year [y]. *)
Definition days_before_year (y : Z) : Z :=
  let y' := y - 1 in y' * 365 + y' / 4 - y' / 100 + y' / 400.

Definition DAYS_IN_MONTH (m : Z) : Z :=
  match m with
  | 1 => 31 | 2 => 28 | 3 => 31 | 4 => 30 | 5 => 31 | 6 => 30
  | 7 => 31 | 8 => 31 | 9 => 30 | 10 => 31 | 11 => 30 | 12 => 31
  | _ => -1
  end.

Definition DAYS_BEFORE_MONTH (m : Z) : Z :=
  match m with
  | 1 => 0 | 2 => 31 | 3 => 59 | 4 => 90 | 5 => 120 | 6 => 151
  | 7 => 181 | 8 => 212 | 9 => 243 | 10 => 273 | 11 => 304 | 12 => 334
  | _ => -1
  end.

Definition days_in_month (y m : Z) : Z :=
  if (m =? 2) && is_leap y then 29 else DAYS_IN_MONTH m.

Definition days_before_month (y m : Z) : Z :=
  DAYS_BEFORE_MONTH m + (if (2 <? m) && is_leap y then 1 else 0).

(** [date.toordinal()]: January 1st of year 1 is day 1. *)
Definition ymd2ord (y m d : Z) : Z :=
  days_before_year y + days_before_month y m + d.

Definition toordinal (t : datetime) : Z :=
  ymd2ord (year t) (month t) (day t).

Definition DI400Y : Z := 146097.
Definition DI100Y : Z := 36524.
Definition DI4Y : Z := 1461.

Definition MAXORDINAL : Z := 3652059.

(** [date.fromordinal(n)], as [_ord2ymd] computes it. *)
Definition ord2ymd (n : Z) : Z * Z * Z :=
  let n := n - 1 in
  let n400 := n / DI400Y in
  let n := n mod DI400Y in
  let y := n400 * 400 + 1 in
  let n100 := n / DI100Y in
  let n := n mod DI100Y in
  let n4 := n / DI4Y in
  let n := n mod DI4Y in
  let n1 := n / 365 in
  let n := n mod 365 in
  let y := y + n100 * 100 + n4 * 4 + n1 in
  if (n1 =? 4) || (n100 =? 4) then (y - 1, 12, 31)
  else
    let leapyear := (n1 =? 3) && (negb (n4 =? 24) || (n100 =? 3)) in
    let m := Z.shiftr (n + 50) 5 in
    let preceding := DAYS_BEFORE_MONTH m
                     + (if (2 <? m) && leapyear then 1 else 0) in
    if n <? preceding then
      let m := m - 1 in
      let preceding := preceding
                       - (DAYS_IN_MONTH m
                          + (if (m =? 2) && leapyear then 1 else 0)) in
      (y, m, n - preceding + 1)
    else (y, m, n - preceding + 1).

(** A date [datetime] can hold. *)
Definition valid (t : datetime) : Prop :=
  MINYEAR <= year t <= MAXYEAR /\ 1 <= month t <= 12 /\
  1 <= day t <= days_in_month (year t) (month t).

(** [t + timedelta(days=n)]: the date moves by [n] days, the time of day
    stays; [None] is the [OverflowError] of a result outside
    [datetime.min .. datetime.max]. *)
Definition add_days (t : datetime) (n : Z) : option datetime :=
  let o := toordinal t + n in
  if (0 <? o) && (o <=? MAXORDINAL) then
    let '(y, m, d) := ord2ymd o in
    Some {| year := y; month := m; day := d; time_of_day := time_of_day t |}
  else None.

(** A field printed with [%02d]. *)
Definition pad2 (n : Z) : str :=
  if n <? 10 then "0"%char :: str_of_int n else str_of_int n.

(** [t.strftime("%m/%d/%Y")]; every platform prints a year from 1000 on
    with its four digits. *)
Definition strftime_mdY (t : datetime) : str :=
  pad2 (month t) ++ s "/" ++ pad2 (day t) ++ s "/" ++ str_of_int (year t).

End Cal.

(* ================================================================== *)
(** * The script *)
(* ================================================================== *)

Module Scraper.
Import Py Re Cal.

(** ** Exceptions, the world, and the monad of the script *)

Inductive exn :=
| TypeError (msg : str)
| AttributeError (msg : str)
| OverflowError (msg : str)
| UnicodeEncodeError (msg : str)
| OSError (msg : str)
| OtherError (msg : str)       (* any other subclass of [Exception] *)
| SystemExit (status : Z).     (* [sys.exit]; not an [Exception] *)

Definition is_Exception (e : exn) : bool :=
  match e with SystemExit _ => false | _ => true end.

(** [str(e)] *)
Definition exn_text (e : exn) : str :=
  match e with
  | TypeError m | AttributeError m | OverflowError m
  | UnicodeEncodeError m | OSError m | OtherError m => m
  | SystemExit n => str_of_int n
  end.

Inductive outcome (A : Type) :=
| Ret (a : A)
| Raise (e : exn).
Arguments Ret {A} a.
Arguments Raise {A} e.

Definition obind {A B} (c : outcome A) (k : A -> outcome B) : outcome B :=
  match c with
  | Ret a => k a
  | Raise e => Raise e
  end.

Declare Scope outcome_scope.
Delimit Scope outcome_scope with outcome.
Notation "x <- c ;; k" := (obind c (fun x => k))
  (at level 61, c at next level, right associativity) : outcome_scope.

(** What [urlopen(req, context=ctx)] followed by
    [response.read().decode('utf-8')] gives. *)
Inductive response :=
| Body (data : str)
| Failed (msg : str).          (* any exception on the way *)

Record request := {
  req_url : str;
  req_headers : list (str * str)
}.

(** What the script reads and writes outside its own variables. *)
Record world := {
  clock : datetime;                    (* [datetime.now()] *)
  network : request -> response;
  stdout : list str;                   (* the [print] calls, oldest first *)
  stderr : list exn;                   (* tracebacks printed *)
  output_file : option str;            (* content of [FinalCSV.txt] *)
  open_error : option str              (* the [OSError] of opening it for
                                          writing, if it cannot be *)
}.

Definition M (A : Type) : Type := world -> outcome A * world.

Definition ret {A} (a : A) : M A := fun w => (Ret a, w).

Definition raise {A} (e : exn) : M A := fun w => (Raise e, w).

Definition bind {A B} (c : M A) (k : A -> M B) : M B :=
  fun w =>
    match c w with
    | (Ret a, w') => k a w'
    | (Raise e, w') => (Raise e, w')
    end.

Definition lift {A} (c : outcome A) : M A := fun w => (c, w).

Declare Scope prog_scope.
Delimit Scope prog_scope with prog.
Notation "x <- c ;; k" := (bind c (fun x => k))
  (at level 61, c at next level, right associativity) : prog_scope.
Notation "c ;;; k" := (bind c (fun _ => k))
  (at level 61, right associativity) : prog_scope.

(** [print(x)].  Standard output is taken to accept every text the
    script prints, as a UTF-8 stream does for the texts of this model;
    a stream that refuses a character makes [print] raise
    [UnicodeEncodeError], which is not modelled. *)
Definition print (x : str) : M unit :=
  fun w => (Ret tt, {| clock := clock w; network := network w;
                       stdout := stdout w ++ [x]; stderr := stderr w;
                       output_file := output_file w;
                       open_error := open_error w |}).

(** [traceback.print_exc()] *)
Definition print_exc (e : exn) : M unit :=
  fun w => (Ret tt, {| clock := clock w; network := network w;
                       stdout := stdout w; stderr := stderr w ++ [e];
                       output_file := output_file w;
                       open_error := open_error w |}).

(** An encoding, as [open] takes it from the locale: the characters it
    can encode, and the message of the [UnicodeEncodeError] its encoder
    raises on a text that holds another character. *)
Record codec := {
  encodes : ascii -> bool;
  encode_error : str -> str
}.

(** [with open(OUTPUT_FILE, 'w') as f: f.write(x)].  When the file
    cannot be opened for writing, [open] raises and the file is as it
    was.  Otherwise opening truncates it, and [write] encodes [x] as a
    whole before anything reaches the file: on a text the encoding
    cannot encode it raises, and the file is closed empty. *)
Definition write_output (locale : codec) (x : str) : M unit :=
  fun w =>
    match open_error w with
    | Some msg => (Raise (OSError msg), w)
    | None =>
        if forallb (encodes locale) x then
          (Ret tt, {| clock := clock w; network := network w;
                      stdout := stdout w; stderr := stderr w;
                      output_file := Some x;
                      open_error := open_error w |})
        else
          (Raise (UnicodeEncodeError (encode_error locale x)),
           {| clock := clock w; network := network w;
              stdout := stdout w; stderr := stderr w;
              output_file := Some [];
              open_error := open_error w |})
    end.

Definition now : M datetime := fun w => (Ret (clock w), w).

Definition urlopen (r : request) : M response :=
  fun w => (Ret (network w r), w).

(** ** Configuration *)

Definition RADIUS : str := s "175".
Definition KCBS_SEARCH_URL : str :=
  s "https://mms.kcbs.us/members/evr_search_ol_json.php".

(** ** [get_date_range] (lines 29-34) *)

Definition get_date_range : M (str * str) :=
  (today <- now ;;
   let begin_date := strftime_mdY today in
   match add_days today 365 with
   | Some t => ret (begin_date, strftime_mdY t)
   | None => raise (OverflowError (s "date value out of range"))
   end)%prog.

(** ** [urllib.parse.urlencode] *)

Definition unreserved (c : ascii) : bool :=
  isupper_az c || islower_az c || isdigit c
  || contains_char c (s "_.-~").

Definition percent (n : Z) : str :=
  let hex d := if d <? 10 then chr (48 + d) else chr (55 + d) in
  ["%"%char; hex (n / 16); hex (n mod 16)].

(** [quote_plus] of one character: UTF-8, then percent-encoding.  Every
    character of the model has a UTF-8 encoding, of one or two bytes;
    on a lone surrogate, which the model does not hold, the encoder of
    [urlencode] raises. *)
Definition quote_plus_char (c : ascii) : str :=
  if unreserved c then [c]
  else if ascii_eqb c " "%char then s "+"
  else if code c <? 128 then percent (code c)
  else percent (192 + code c / 64) ++ percent (128 + code c mod 64).

Definition quote_plus (x : str) : str := flat_map quote_plus_char x.

Definition urlencode (params : list (str * str)) : str :=
  join (s "&")
       (map (fun kv => quote_plus (fst kv) ++ s "=" ++ quote_plus (snd kv))
            params).

(** The query parameters of lines 40-54. *)
Definition search_params (zipcode radius begin_date end_date : str)
  : list (str * str) :=
  [ (s "evr_map_type", s "0");
    (s "org_id", s "KCBA");
    (s "evr_begin", begin_date);
    (s "evr_end", end_date);
    (s "evr_address", zipcode);
    (s "evr_radius", radius);
    (s "evr_type", []);
    (s "evr_openings", []);
    (s "evr_region", []);
    (s "evr_region_type", []);
    (s "evr_judge", []);
    (s "evr_keyword", []);
    (s "evr_rep_name", []) ].

(** ** The JSONP unwrapping of lines 84-89 *)

Definition unwrap_jsonp (data : str) : str :=
  if startswith data (s "banner_callback_") then
    let json_start := find data "{"%char in
    let json_end := rfind data "}"%char + 1 in
    if negb (json_start =? -1) && (json_start <? json_end)
    then slice data json_start json_end
    else data
  else data.

(** ** [search_events_by_radius] (lines 36-101) *)

(** What [json.loads] does with a text. *)
Inductive decoded :=
| Decoded (v : value)
| JSONDecodeError (msg : str)
| DecodeFailure (msg : str).   (* another exception, e.g. [RecursionError] *)

Section Fetch.

(** Library functions the script calls. *)
Variable json_loads : str -> decoded.
Variable b64encode : str -> str.

(** [os.getenv('KCBS_USERNAME', '')] and [os.getenv('KCBS_PASSWORD', '')] *)
Variable KCBS_USERNAME KCBS_PASSWORD : str.

Definition nonempty (x : str) : bool :=
  match x with [] => false | _ => true end.

Definition build_request (zipcode radius begin_date end_date : str) : request :=
  let url := KCBS_SEARCH_URL ++ s "?"
             ++ urlencode (search_params zipcode radius begin_date end_date) in
  let agent := (s "User-Agent",
                s "Mozilla/5.0 (Windows NT 10.0; Win64; x64) AppleWebKit/537.36") in
  if nonempty KCBS_USERNAME && nonempty KCBS_PASSWORD then
    let credentials := KCBS_USERNAME ++ s ":" ++ KCBS_PASSWORD in
    {| req_url := url;
       req_headers := [agent; (s "Authorization",
                               s "Basic " ++ b64encode credentials)] |}
  else {| req_url := url; req_headers := [agent] |}.

(** The text handed to [json.loads], and the result of the function. *)
Definition decode_response (data : str) : M value :=
  (let data := unwrap_jsonp data in
   match json_loads data with
   | Decoded events_data => ret events_data
   | JSONDecodeError e =>
       print (s "Error parsing JSON: " ++ e) ;;;
       print (s "Response data: " ++ firstn 500 data) ;;;
       ret VNone
   | DecodeFailure e =>
       print (s "Error fetching events: " ++ e) ;;;
       ret VNone
   end)%prog.

Definition search_events_by_radius (zipcode radius : str) : M value :=
  (dates <- get_date_range ;;
   let '(begin_date, end_date) := dates in
   print (s "Searching for events within " ++ radius ++ s " miles of "
          ++ zipcode ++ s "...") ;;;
   print (s "Date range: " ++ begin_date ++ s " to " ++ end_date) ;;;
   r <- urlopen (build_request zipcode radius begin_date end_date) ;;
   match r with
   | Body data => decode_response data
   | Failed e =>
       print (s "Error fetching events: " ++ e) ;;;
       ret VNone
   end)%prog.

End Fetch.

(** ** [parse_events] (lines 103-208) *)

(** The record list of lines 114-131. *)
Definition is_list (v : value) : bool :=
  match v with VList _ => true | _ => false end.

Fixpoint first_list (d : list (str * value)) : value :=
  match d with
  | [] => VList []
  | (_, v) :: d' => if is_list v then v else first_list d'
  end.

Definition select_events (events_data : value) : value :=
  match events_data with
  | VDict d =>
      if dict_contains d (s "features") then dict_get d (s "features") VNone
      else if dict_contains d (s "events") then dict_get d (s "events") VNone
      else if dict_contains d (s "data") then dict_get d (s "data") VNone
      else first_list d
  | VList _ => events_data
  | _ => VList []
  end.

(** [len(v)] *)
Definition py_len (v : value) : outcome Z :=
  match v with
  | VStr x => Ret (Z.of_nat (List.length x))
  | VList l => Ret (Z.of_nat (List.length l))
  | VDict d => Ret (Z.of_nat (List.length d))
  | _ => Raise (TypeError (s "object of type '" ++ type_name v
                           ++ s "' has no len()"))
  end.

(** The items [for event in v] visits. *)
Definition py_iter (v : value) : outcome (list value) :=
  match v with
  | VStr x => Ret (map (fun c => VStr [c]) x)
  | VList l => Ret l
  | VDict d => Ret (map (fun kv => VStr (fst kv)) d)
  | _ => Raise (TypeError (s "'" ++ type_name v
                           ++ s "' object is not iterable"))
  end.

(** [props.get(key, default)] on whatever [props] is. *)
Definition attr_get (props : value) (k : str) (default : value) : outcome value :=
  match props with
  | VDict d => Ret (dict_get d k default)
  | _ => Raise (AttributeError (s "'" ++ type_name props
                                ++ s "' object has no attribute 'get'"))
  end.

(** [re.search(pattern, subject)] on whatever [subject] is. *)
Definition re_search (r : regex) (subject : value) : outcome (option caps) :=
  match subject with
  | VStr x => Ret (search r x)
  | _ => Raise (TypeError (s "expected string or bytes-like object, got '"
                           ++ type_name subject ++ s "'"))
  end.

Definition URL_HOST : str := s "https://mms.kcbs.us".
Definition URL_PREFIX : str :=
  s "https://mms.kcbs.us/members/evr/reg_event_kcba.php?orgcode=KCBA&evid=".

(** The six fields of one event. *)
Record fields := {
  event_name : value;
  distance : str;
  dates : str;
  location : str;
  rep_name : str;
  event_url : str
}.

(** Lines 171-196: the detail URL. *)
Definition url_of (event_id html_content : value) : outcome str :=
  (if truthy event_id then Ret (URL_PREFIX ++ to_str event_id)
   else
     m1 <- re_search onclick_re html_content ;;
     m2 <- match m1 with
           | None => re_search onclick_re2 html_content
           | Some _ => Ret m1
           end ;;
     m3 <- match m2 with
           | None => re_search view_event_re html_content
           | Some _ => Ret m2
           end ;;
     match m3 with
     | Some c => Ret (URL_PREFIX ++ group_text c 1)
     | None =>
         href_match <- re_search href_re html_content ;;
         match href_match with
         | Some c =>
             let url := group_text c 1 in
             Ret (if startswith url (s "http") then url
                  else if startswith url (s "/") then URL_HOST ++ url
                  else URL_HOST ++ s "/" ++ url)
         | None => Ret []
         end
     end)%outcome.

(** Lines 139-196: the fields of a record that has ['properties']. *)
Definition extract (event : list (str * value)) : outcome fields :=
  (let props := dict_get event (s "properties") VNone in
   name <- attr_get props (s "name") (VStr []) ;;
   html_content <- attr_get props (s "html_content") (VStr []) ;;
   props_id <- attr_get props (s "id") VNone ;;
   props_evid <- attr_get props (s "evid") VNone ;;
   props_event_id <- attr_get props (s "event_id") VNone ;;
   let event_id :=
     py_or (dict_get event (s "id") VNone)
           (py_or props_id (py_or props_evid props_event_id)) in
   name_match <- re_search name_re html_content ;;
   let event_name := match name_match with
                     | Some c => VStr (strip (group_text c 1))
                     | None => name
                     end in
   distance_match <- re_search distance_re html_content ;;
   let distance := match distance_match with
                   | Some c => group_text c 1 ++ s " mi"
                   | None => []
                   end in
   date_match <- re_search date_re html_content ;;
   let dates := match date_match with
                | Some c => strip (group_text c 1)
                | None => []
                end in
   location_match <- re_search location_re html_content ;;
   location_match <- match location_match with
                     | None => re_search location_alt_re html_content
                     | Some _ => Ret location_match
                     end ;;
   let location := match location_match with
                   | Some c => strip (group_text c 1)
                   | None => []
                   end in
   rep_match <- re_search rep_re html_content ;;
   let rep_name := match rep_match with
                   | Some c => strip (group_text c 1)
                   | None => []
                   end in
   event_url <- url_of event_id html_content ;;
   Ret {| event_name := event_name; distance := distance; dates := dates;
          location := location; rep_name := rep_name;
          event_url := event_url |})%outcome.

(** The body of the [try] (lines 138-201) up to the decision of line 199:
    the fields of the line to append, if any. *)
Definition parse_event (event : value) : outcome (option fields) :=
  match event with
  | VDict ev =>
      if dict_contains ev (s "properties") then
        (f <- extract ev ;;
         if truthy (event_name f) then Ret (Some f) else Ret None)%outcome
      else Ret None
  | _ => Ret None
  end.

Definition format_fields (sep : str) (f : fields) : str :=
  to_str (event_name f) ++ sep ++ distance f ++ sep ++ dates f ++ sep
  ++ location f ++ sep ++ rep_name f ++ sep ++ event_url f.

(** The line of line 200. *)
Definition format_line (f : fields) : str := format_fields (s "|") f.

(** The loop of lines 135-206. *)
Fixpoint parse_loop (events : list value) (output_lines : list str)
  : M (list str) :=
  match events with
  | [] => ret output_lines
  | event :: events' =>
      match parse_event event with
      | Ret (Some f) =>
          (print (s "  - " ++ format_fields (s " | ") f) ;;;
           parse_loop events' (output_lines ++ [format_line f]))%prog
      | Ret None => parse_loop events' output_lines
      | Raise e =>
          if is_Exception e then
            (print (s "Error parsing event: " ++ exn_text e) ;;;
             print_exc e ;;;
             parse_loop events' output_lines)%prog
          else raise e
      end
  end.

Definition parse_events (events_data : value) : M (list str) :=
  if negb (truthy events_data) then
    (print (s "No events data received") ;;; ret [])%prog
  else
    (let events := select_events events_data in
     n <- lift (py_len events) ;;
     print (s "Found " ++ str_of_int n ++ s " events") ;;;
     items <- lift (py_iter events) ;;
     parse_loop items [])%prog.

(** ** [main] (lines 210-231) and the script around it *)

Definition OUTPUT_FILE : str := s "FinalCSV.txt".

Definition newline : ascii := chr 10.

Section Main.

Variable json_loads : str -> decoded.
Variable b64encode : str -> str.

(** [os.getenv] *)
Variable getenv : str -> option str.

(** The encoding of the locale, which [open] gives the output file. *)
Variable locale : codec.

Definition getenv_or (k default : str) : str :=
  match getenv k with Some v => v | None => default end.

Definition main (ZIPCODE : str) : M Z :=
  (print (s "KCBS Event Scraper - Radius Search") ;;;
   print (repeat "="%char 50) ;;;
   events_data <- search_events_by_radius json_loads b64encode
                    (getenv_or (s "KCBS_USERNAME") [])
                    (getenv_or (s "KCBS_PASSWORD") [])
                    ZIPCODE RADIUS ;;
   output_lines <- parse_events events_data ;;
   match output_lines with
   | _ :: _ =>
       write_output locale (join [newline] output_lines) ;;;
       print (newline :: str_of_int (Z.of_nat (List.length output_lines))
              ++ s " events written to " ++ OUTPUT_FILE) ;;;
       ret 0
   | [] =>
       print (newline :: s "No events found. Creating empty " ++ OUTPUT_FILE) ;;;
       write_output locale [] ;;;
       ret 1
   end)%prog.

(** The module from top to bottom: the configuration check of lines
    16-19, then [sys.exit(main())]. *)
Definition script : M Z :=
  match getenv (s "ZIPCODE") with
  | Some (c :: z) => (status <- main (c :: z) ;; raise (SystemExit status))%prog
  | _ =>
      (print (s "Error: ZIPCODE environment variable is not set. Please set it in your ~/.bashrc file.") ;;;
       raise (SystemExit 1))%prog
  end.

(** The exit status of the process and the world it leaves: an uncaught
    exception prints its traceback and exits with status 1. *)
Definition run (w : world) : Z * world :=
  match script w with
  | (Raise (SystemExit status), w') => (status, w')
  | (Raise e, w') => (1, snd (print_exc e w'))
  | (Ret status, w') => (status, w')
  end.

End Main.

End Scraper.

(* ================================================================== *)
(** * What the specification says, in its own words *)
(* ================================================================== *)

Module Spec.
Import Py Re Cal Scraper.

(** Record-list discovery, first match wins: (a) key [features], (b) else
    key [events], (c) else key [data], (d) else the first key whose value
    is a sequence, in iteration order, (e) a root that is a sequence is
    used directly, (f) otherwise the record list is empty. *)
Inductive record_list : value -> value -> Prop :=
| rl_features d v :
    dict_lookup d (s "features") = Some v ->
    record_list (VDict d) v
| rl_events d v :
    dict_lookup d (s "features") = None ->
    dict_lookup d (s "events") = Some v ->
    record_list (VDict d) v
| rl_data d v :
    dict_lookup d (s "features") = None ->
    dict_lookup d (s "events") = None ->
    dict_lookup d (s "data") = Some v ->
    record_list (VDict d) v
| rl_first_sequence d before k l after :
    dict_lookup d (s "features") = None ->
    dict_lookup d (s "events") = None ->
    dict_lookup d (s "data") = None ->
    d = before ++ (k, VList l) :: after ->
    Forall (fun kv => is_list (snd kv) = false) before ->
    record_list (VDict d) (VList l)
| rl_no_sequence d :
    dict_lookup d (s "features") = None ->
    dict_lookup d (s "events") = None ->
    dict_lookup d (s "data") = None ->
    Forall (fun kv => is_list (snd kv) = false) d ->
    record_list (VDict d) (VList [])
| rl_sequence l :
    record_list (VList l) (VList l)
| rl_other root :
    (forall d, root <> VDict d) ->
    (forall l, root <> VList l) ->
    record_list root (VList []).

(** The payload of the end-to-end scenario. *)
Definition smokeout_html : str :=
  s "<b>Smokeout</b> <i>6/1/2026 - 6/2/2026</i> DIST: 10 mi </a>Austin, TX 78701<br />UNITED STATES Reps: JANE DOE".

Definition smokeout_payload : value :=
  VDict [(s "features",
          VList [VDict [(s "id", VInt 7);
                        (s "properties",
                         VDict [(s "name", VStr (s "Smokeout"));
                                (s "html_content", VStr smokeout_html)])]])].

Definition smokeout_line : str :=
  s "Smokeout|10 mi|6/1/2026 - 6/2/2026|Austin, TX 78701|JANE DOE|https://mms.kcbs.us/members/evr/reg_event_kcba.php?orgcode=KCBA&evid=7".

(** A payload whose [features] is not a sequence. *)
Definition features_int_payload : value := VDict [(s "features", VInt 5)].

(** The lines of a record list, record by record. *)
Definition lines_of_event (event : value) : list str :=
  match parse_event event with
  | Ret (Some f) => [format_line f]
  | _ => []
  end.

(** A world to run examples in. *)
Definition sample_world (file : option str) (r : response) : world :=
  {| clock := {| year := 2026; month := 11; day := 4; time_of_day := 0 |};
     network := fun _ => r;
     stdout := []; stderr := [];
     output_file := file; open_error := None |}.

(** A computation that never ends the process by [SystemExit]. *)
Definition no_exit {A} (c : outcome A) : Prop :=
  forall status, c <> Raise (SystemExit status).



Definition zipcode_environ : str -> option str :=
  fun k => if str_eqb k (s "ZIPCODE") then Some (s "23228") else None.

Definition loads_always (v : value) : str -> decoded := fun _ => Decoded v.

Definition loads_never : str -> decoded :=
  fun _ => JSONDecodeError (s "Expecting value: line 1 column 1 (char 0)").

Definition b64_stub : str -> str := fun x => x.

(** Reading back a text of the form [MM/DD/YYYY]: the month, the day
    and the year it shows. *)
Fixpoint parse_digits_from (acc : Z) (x : str) : option Z :=
  match x with
  | [] => Some acc
  | c :: x' =>
      if isdigit c then parse_digits_from (10 * acc + (code c - 48)) x'
      else None
  end.

Definition parse_digits (x : str) : option Z := parse_digits_from 0 x.

Definition parse_mdY (x : str) : option (Z * Z * Z) :=
  match x with
  | [m1; m2; s1; d1; d2; s2; y1; y2; y3; y4] =>
      if ascii_eqb s1 "/"%char && ascii_eqb s2 "/"%char then
        match parse_digits [m1; m2], parse_digits [d1; d2],
              parse_digits [y1; y2; y3; y4] with
        | Some m, Some d, Some y => Some (m, d, y)
        | _, _, _ => None
        end
      else None
  | _ => None
  end.

(** The integers [lo], [lo + 1], ..., [lo + n - 1]. *)
Definition zrange (lo : Z) (n : nat) : list Z :=
  map (fun i => lo + Z.of_nat i) (seq 0 n).

Definition prints_back (width : nat) (print : Z -> str) (n : Z) : bool :=
  Nat.eqb (List.length (print n)) width
  && match parse_digits (print n) with
     | Some k => k =? n
     | None => false
     end.

(** ** What a pattern matches, without the search order *)

Definition all_accepted (a : atom) (m : str) : Prop :=
  Forall (fun d => accepts a d = true) m.

(** [matches r m c c']: the pattern [r] matches exactly the text [m], and
    takes the captured groups from [c] to [c']. *)
Fixpoint matches (r : regex) (m : str) (c c' : caps) : Prop :=
  match r with
  | REps => m = [] /\ c' = c
  | RAtom a => (exists d, m = [d] /\ accepts a d = true) /\ c' = c
  | RStar a => all_accepted a m /\ c' = c
  | RPlus a => (m <> [] /\ all_accepted a m) /\ c' = c
  | ROpt a => (m = [] \/ exists d, m = [d] /\ accepts a d = true) /\ c' = c
  | RRep n a => (List.length m = n /\ all_accepted a m) /\ c' = c
  | RCat r1 r2 =>
      exists m1 m2 c1,
        m = m1 ++ m2 /\ matches r1 m1 c c1 /\ matches r2 m2 c1 c'
  | RGroup n r => exists c1, matches r m c c1 /\ c' = (n, m) :: c1
  end.

(** The pattern [r] occurs in [x] right after [pre], with groups [c]. *)
Definition occurs (r : regex) (x pre : str) (c : caps) : Prop :=
  exists m post, x = pre ++ m ++ post /\ matches r m [] c.

(** No occurrence of [r] in [x] starts before the end of [pre]. *)
Definition none_before (r : regex) (x pre : str) : Prop :=
  forall pre' c', occurs r x pre' c' -> (List.length pre <= List.length pre')%nat.

(** The pattern occurs nowhere in [x]. *)
Definition absent (r : regex) (x : str) : Prop :=
  forall pre c, ~ occurs r x pre c.

(** All matches of [r] that start at the same place capture the same
    group [n]. *)
Definition group_determined (r : regex) (n : nat) : Prop :=
  forall m1 post1 c1 m2 post2 c2,
    m1 ++ post1 = m2 ++ post2 ->
    matches r m1 [] c1 -> matches r m2 [] c2 ->
    group c1 n = group c2 n.

(** ** The shapes the specification speaks of *)

(** A text without tag opener. *)
Definition tag_free (t : str) : Prop := ~ In "<"%char t.

(** [x] holds, right after [pre], the span [<b>t</b>] with a non-empty
    tag-free text [t]. *)
Definition b_span_at (x pre t : str) : Prop :=
  exists post,
    x = pre ++ s "<b>" ++ t ++ s "</b>" ++ post /\ t <> [] /\ tag_free t.

(** The first such span of [x] holds [t]. *)
Definition first_b_span (x t : str) : Prop :=
  exists pre,
    b_span_at x pre t
    /\ forall pre' t', b_span_at x pre' t' ->
                       (List.length pre <= List.length pre')%nat.

Definition no_b_span (x : str) : Prop := forall pre t, ~ b_span_at x pre t.

(** The href of a hyperlink as an absolute URL: kept when it starts with
    [http], prefixed with the host when it starts with [/], joined to the
    host with [/] otherwise. *)
Definition absolute_url (url : str) : str :=
  if startswith url (s "http") then url
  else if startswith url (s "/") then URL_HOST ++ url
  else URL_HOST ++ s "/" ++ url.

(** The identifier the record itself gives, if any: the first of
    [event.id], [properties.id], [properties.evid] and
    [properties.event_id] that is true in a condition, else the last. *)
Definition record_id (event props : list (str * value)) : value :=
  py_or (dict_get event (s "id") VNone)
        (py_or (dict_get props (s "id") VNone)
               (py_or (dict_get props (s "evid") VNone)
                      (dict_get props (s "event_id") VNone))).

(** A record whose [html_content] is [null]. *)
Definition null_html_record : value :=
  VDict [(s "properties",
          VDict [(s "name", VStr (s "Other"));
                 (s "html_content", VNone)])].

(** The record of the name-precedence scenario. *)
Definition bbq_bash_record : list (str * value) :=
  [(s "properties",
    VDict [(s "name", VStr (s "Other"));
           (s "html_content", VStr (s "<b>BBQ Bash</b>"))])].

(** [contains x p]: the text [p] occurs in [x]. *)
Fixpoint contains (x p : str) : bool :=
  startswith x p || match x with [] => false | _ :: x' => contains x' p end.

(** [x] holds, right after [pre], a close tag [</a>], the non-empty
    tag-free text [t], and the marker [<br ...>UNITED STATES]. *)
Definition location_at (x pre t : str) : Prop :=
  exists u post,
    x = pre ++ s "</a>" ++ t ++ s "<br" ++ u ++ s ">UNITED STATES" ++ post
    /\ t <> [] /\ tag_free t /\ ~ In ">"%char u.

Definition first_location (x t : str) : Prop :=
  exists pre,
    location_at x pre t
    /\ forall pre' t', location_at x pre' t' ->
                       (List.length pre <= List.length pre')%nat.

Definition no_location (x : str) : Prop := forall pre t, ~ location_at x pre t.

(** A letter, white space or a comma. *)
Definition city_char (d : ascii) : bool :=
  isupper_az d || islower_az d || isspace d || ascii_eqb ","%char d.

(** The looser shape: a non-empty run of letters, commas and white
    space, two upper-case letters, white space, digits. *)
Definition city_state_zip (t : str) : Prop :=
  exists w a b sp dg,
    t = w ++ [a; b] ++ sp ++ dg
    /\ w <> [] /\ Forall (fun d => city_char d = true) w
    /\ isupper_az a = true /\ isupper_az b = true
    /\ Forall (fun d => isspace d = true) sp
    /\ Forall (fun d => isdigit d = true) dg.

Definition loose_location_at (x pre t : str) : Prop :=
  exists post,
    x = pre ++ s "</a>" ++ t ++ s "<br" ++ post /\ city_state_zip t.

Definition first_loose_location (x t : str) : Prop :=
  exists pre,
    loose_location_at x pre t
    /\ forall pre' t', loose_location_at x pre' t' ->
                       (List.length pre <= List.length pre')%nat.

Definition no_loose_location (x : str) : Prop :=
  forall pre t, ~ loose_location_at x pre t.

(** The location as the specification words it: the text [t] between a close
    tag [</a>] and a marker [<br ...>UNITED STATES], with no other
    [</a>] in between. *)
Definition text_before_marker (x t : str) : Prop :=
  exists pre u post,
    x = pre ++ s "</a>" ++ t ++ s "<br" ++ u ++ s ">UNITED STATES" ++ post
    /\ ~ In ">"%char u /\ contains t (s "</a>") = false.

(** And with [</a>] the last close tag of the whole text. *)
Definition text_after_last_close_tag (x t : str) : Prop :=
  exists pre u post,
    x = pre ++ s "</a>" ++ t ++ s "<br" ++ u ++ s ">UNITED STATES" ++ post
    /\ ~ In ">"%char u
    /\ contains (t ++ s "<br" ++ u ++ s ">UNITED STATES" ++ post) (s "</a>")
       = false.

Definition two_locations_html : str :=
  s "</a> A <br>UNITED STATES</a>B<br>UNITED STATES".

Definition two_locations_record : list (str * value) :=
  [(s "properties", VDict [(s "html_content", VStr two_locations_html)])].


Definition city_set : atom :=
  ASet [IRange "A"%char "Z"%char; IRange "a"%char "z"%char; ISpace;
        IChar ","%char].

Definition upper_set : atom := ASet [IRange "A"%char "Z"%char].

(** The location example of the source's comment. *)
Definition henrico_html : str := s "</a>Henrico, VA 23228<br />UNITED STATES".

Definition henrico_record : list (str * value) :=
  [(s "properties", VDict [(s "html_content", VStr henrico_html)])].

(** ** The shapes of the URL patterns *)

Definition is_quote (q : ascii) : Prop := q = dquote \/ q = squote.

(** A non-empty run of digits. *)
Definition digits (ds : str) : Prop :=
  ds <> [] /\ Forall (fun d => isdigit d = true) ds.

Definition quote_free (g : str) : Prop :=
  Forall (fun d => d <> dquote /\ d <> squote) g.

(** [onclick=] a quote, [viewEvent(ds)], a quote, right after [pre]. *)
Definition onclick_at (x pre ds : str) : Prop :=
  exists q1 q2 post,
    x = pre ++ s "onclick=" ++ [q1] ++ s "viewEvent(" ++ ds ++ s ")"
            ++ [q2] ++ post
    /\ is_quote q1 /\ is_quote q2 /\ digits ds.

(** A bare [viewEvent(ds)] right after [pre]. *)
Definition view_event_at (x pre ds : str) : Prop :=
  exists post, x = pre ++ s "viewEvent(" ++ ds ++ s ")" ++ post /\ digits ds.

(** A link target that holds [evr] and, later, [evid=] and digits. *)
Definition evr_target (g : str) : Prop :=
  exists a b ds e,
    g = a ++ s "evr" ++ b ++ s "evid=" ++ ds ++ e
    /\ quote_free a /\ quote_free b /\ quote_free e /\ digits ds.

(** [href=] a quote, such a target [g], a quote, right after [pre]. *)
Definition href_at (x pre g : str) : Prop :=
  exists q1 q2 post,
    x = pre ++ s "href=" ++ [q1] ++ g ++ [q2] ++ post
    /\ is_quote q1 /\ is_quote q2 /\ evr_target g.

(** The leftmost place of [x] where a shape holds, and its text. *)
Definition leftmost (shape : str -> str -> str -> Prop) (x t : str) : Prop :=
  exists pre,
    shape x pre t
    /\ forall pre' t', shape x pre' t' ->
                       (List.length pre <= List.length pre')%nat.

Definition nowhere (shape : str -> str -> str -> Prop) (x : str) : Prop :=
  forall pre t, ~ shape x pre t.

(** The hyperlink as the specification words it: a quoted target that contains
    [evid=] and digits. *)
Definition evid_href_at (x pre g : str) : Prop :=
  exists q post a ds e,
    x = pre ++ s "href=" ++ [q] ++ g ++ [q] ++ post
    /\ is_quote q /\ quote_free g
    /\ g = a ++ s "evid=" ++ ds ++ e /\ digits ds.

(** A record without identifier whose link does not hold [evr]. *)
Definition plain_href_html : str :=
  s "<a href=" ++ [dquote] ++ s "/reg.php?evid=5" ++ [dquote] ++ s ">Register</a>".

Definition plain_href_record : list (str * value) :=
  [(s "properties", VDict [(s "html_content", VStr plain_href_html)])].

(** The record of the URL-precedence scenario. *)
Definition evid_record : list (str * value) :=
  [(s "properties",
    VDict [(s "evid", VStr (s "39161"));
           (s "html_content",
            VStr (s "<a onclick='viewEvent(999)'>Details</a>"))])].

(** A record that is no mapping, or a mapping without [properties]. *)
Definition lacks_properties (event : value) : Prop :=
  match event with
  | VDict ev => dict_contains ev (s "properties") = false
  | _ => True
  end.



(** What the fetch returns for a response of the network. *)
Definition fetched (json_loads : str -> decoded) (r : response) : value :=
  match r with
  | Body data =>
      match json_loads (unwrap_jsonp data) with
      | Decoded events_data => events_data
      | _ => VNone
      end
  | Failed _ => VNone
  end.

(** The inside of the object of the zero-events scenario. *)
Definition features_body : str := [dquote] ++ s "features" ++ [dquote] ++ s ":[]".

(** How often a character occurs in a text. *)
Definition occurrences (c : ascii) (x : str) : nat :=
  List.length (filter (ascii_eqb c) x).

(** [x] holds, right after [pre], the text [DIST:], white space, the
    digits [ds], white space and [mi]. *)
Definition distance_at (x pre ds : str) : Prop :=
  exists sp1 sp2 post,
    x = pre ++ s "DIST:" ++ sp1 ++ ds ++ sp2 ++ s "mi" ++ post
    /\ Forall (fun d => isspace d = true) sp1
    /\ Forall (fun d => isspace d = true) sp2
    /\ digits ds.

(** [x] holds, right after [pre], the span [<i>t</i>] with a non-empty
    tag-free text [t]. *)
Definition i_span_at (x pre t : str) : Prop :=
  exists post,
    x = pre ++ s "<i>" ++ t ++ s "</i>" ++ post /\ t <> [] /\ tag_free t.

(** A text that neither begins nor ends with white space. *)
Definition trimmed (t : str) : Prop :=
  (forall c r, t = c :: r -> isspace c = false)
  /\ (forall r c, t = r ++ [c] -> isspace c = false).

(** [x.split(sep)] for a one-character separator. *)
Fixpoint split_on (sep : ascii) (x : str) : list str :=
  match x with
  | [] => [[]]
  | c :: x' =>
      if ascii_eqb c sep then [] :: split_on sep x'
      else match split_on sep x' with
           | f :: fs => (c :: f) :: fs
           | [] => [[c]]
           end
  end.

(** The record of the distance scenario. *)
Definition dist_record : list (str * value) :=
  [(s "properties",
    VDict [(s "name", VStr (s "Cookoff"));
           (s "html_content", VStr (s "DIST: 42 mi <i> 1/24/2026 - 1/25/2026 </i>"))])].

(** The record of the dates scenario. *)
Definition dates_record : list (str * value) :=
  [(s "properties",
    VDict [(s "html_content", VStr (s "<i> 1/24/2026 - 1/25/2026 </i><br>"))])].

(** Whether a 29 February lies between a date and the same day of the
    next year. *)
Definition leap_day_ahead (t : datetime) : bool :=
  if month t <=? 2 then is_leap (year t) else is_leap (year t + 1).

(** The same day of the next year. *)
Definition next_year (t : datetime) : datetime :=
  {| year := year t + 1; month := month t; day := day t;
     time_of_day := time_of_day t |}.

(** The result of [len(v)] failing. *)
Definition no_len_error (v : value) : exn :=
  TypeError (s "object of type '" ++ type_name v ++ s "' has no len()").

(** [x] holds, right after [pre], the label [Rep:] or [Reps:] and then
    the non-empty text [t], which runs up to the next [<] or to the end
    of [x]. *)
Definition rep_text_at (x pre t : str) : Prop :=
  exists label post,
    x = pre ++ label ++ t ++ post
    /\ (label = s "Rep:" \/ label = s "Reps:")
    /\ t <> [] /\ tag_free t
    /\ (post = [] \/ exists post', post = "<"%char :: post').

(** The groups of the first way of a list, if any. *)
Definition first_caps (l : list way) : option caps :=
  match l with
  | (_, _, c) :: _ => Some c
  | [] => None
  end.

(** The longest prefix of [p]-characters. *)
Fixpoint run_of (p : ascii -> bool) (x : str) : str :=
  match x with
  | c :: x' => if p c then c :: run_of p x' else []
  | [] => []
  end.

(** What [\s*([^<]+)] captures at the start of [y], as the backtracking
    order has it: white space is skipped as long as something other
    than [<] remains to capture. *)
Fixpoint tail_capture (y : str) : option str :=
  match y with
  | d :: y' =>
      if isspace d then
        match tail_capture y' with
        | Some t => Some t
        | None => Some (d :: run_of (accepts not_lt) y')
        end
      else if accepts not_lt d then Some (d :: run_of (accepts not_lt) y')
      else None
  | [] => None
  end.

(** The end of [rep_re]: [\s*([^<]+)]. *)
Definition rep_tail_re : regex :=
  RCat (RStar space) (RCat (RGroup 1 (RPlus not_lt)) REps).

(** What [rep_re] captures at the start of [x]. *)
Definition rep_capture (x : str) : option str :=
  if startswith x (s "Rep:") then tail_capture (skipn 4 x)
  else if startswith x (s "Reps:") then tail_capture (skipn 5 x)
  else None.

(** The record of the representative scenario. *)
Definition rep_record : list (str * value) :=
  [(s "properties",
    VDict [(s "html_content", VStr (s "Reps:  BILL JONES <br>"))])].

(** Encodings of the output file.  UTF-8 holds every character of the
    model. *)
Definition utf_8 : codec :=
  {| encodes := fun _ => true; encode_error := fun _ => [] |}.

Definition is_ascii (c : ascii) : bool := code c <? 128.

(** The end of the run of characters the ASCII encoder refuses. *)
Fixpoint refused_run (x : str) (i : Z) : Z :=
  match x with
  | c :: x' => if is_ascii c then i else refused_run x' (i + 1)
  | [] => i
  end.

(** The message of the ASCII encoder, as CPython words it: the first
    run of characters it refuses, by position. *)
Fixpoint ascii_error_from (x : str) (i : Z) : str :=
  match x with
  | c :: x' =>
      if is_ascii c then ascii_error_from x' (i + 1)
      else
        let j := refused_run x' (i + 1) in
        if j =? i + 1 then
          s "'ascii' codec can't encode character '\x"
            ++ [hex_digit (code c / 16); hex_digit (code c mod 16)]
            ++ s "' in position " ++ str_of_int i
            ++ s ": ordinal not in range(128)"
        else
          s "'ascii' codec can't encode characters in position "
            ++ str_of_int i ++ s "-" ++ str_of_int (j - 1)
            ++ s ": ordinal not in range(128)"
  | [] => []
  end.

Definition us_ascii : codec :=
  {| encodes := is_ascii; encode_error := fun x => ascii_error_from x 0 |}.

(** A text of ASCII characters, as a ZIP code is. *)
Definition ascii_text (x : str) : Prop := Forall (fun c => is_ascii c = true) x.

(** A payload whose only event has a name outside ASCII. *)
Definition cafe_payload : value :=
  VDict [(s "features",
          VList [VDict [(s "properties",
                         VDict [(s "name", VStr (s "Caf" ++ [chr 233]))])]])].




(** The world [w] after [out] was printed and the tracebacks [err]. *)
Definition printed (w : world) (out : list str) (err : list exn) : world :=
  {| clock := clock w; network := network w;
     stdout := stdout w ++ out; stderr := stderr w ++ err;
     output_file := output_file w; open_error := open_error w |}.

(** A record whose hyperlink target begins with [http] and is no
    absolute URL. *)
Definition http_href_html : str := s "<a href='httpevr?evid=4'>Register</a>".

Definition http_href_record : list (str * value) :=
  [(s "properties", VDict [(s "html_content", VStr http_href_html)])].


End Spec.

(* ================================================================== *)
(** * Properties *)
(* ================================================================== *)

Import Py Re Cal Scraper Spec.

(** ** Extraction: the loop and its isolation of records *)

Lemma no_exit_ret {A} (a : A) : no_exit (Ret a).
Proof. intros st; discriminate. Qed.

Lemma no_exit_bind {A B} (c : outcome A) (k : A -> outcome B) :
  no_exit c -> (forall a, no_exit (k a)) -> no_exit (obind c k).
Proof.
  intros Hc Hk st. destruct c as [a|e]; simpl.
  - apply Hk.
  - intros H. apply (Hc st). congruence.
Qed.

Lemma no_exit_attr_get props k d : no_exit (attr_get props k d).
Proof. intros st; destruct props; discriminate. Qed.

Lemma no_exit_re_search r v : no_exit (re_search r v).
Proof. intros st; destruct v; discriminate. Qed.

Lemma no_exit_url_of id h : no_exit (url_of id h).
Proof.
  unfold url_of. destruct (truthy id); [apply no_exit_ret|].
  repeat (apply no_exit_bind;
          [first [apply no_exit_re_search
                 | match goal with |- no_exit (match ?m with _ => _ end) =>
                     destruct m; first [apply no_exit_ret | apply no_exit_re_search] end]
          | intros ?]).
  destruct a1; [apply no_exit_ret|].
  apply no_exit_bind; [apply no_exit_re_search|].
  intros [c|]; apply no_exit_ret.
Qed.

Lemma no_exit_extract ev : no_exit (extract ev).
Proof.
  unfold extract.
  repeat (apply no_exit_bind;
          [first [apply no_exit_attr_get | apply no_exit_re_search
                 | apply no_exit_url_of
                 | match goal with |- no_exit (match ?m with _ => _ end) =>
                     destruct m; first [apply no_exit_ret | apply no_exit_re_search] end]
          | intros ?]).
  apply no_exit_ret.
Qed.

Lemma parse_event_never_exits (event : value) : no_exit (parse_event event).
Proof.
  destruct event as [| | | | |l|ev]; simpl; try apply no_exit_ret.
  destruct (dict_contains ev (s "properties")); try apply no_exit_ret.
  apply no_exit_bind; [apply no_exit_extract|].
  intros f. destruct (truthy (event_name f)); apply no_exit_ret.
Qed.

(** The loop returns the lines of its records, in order, whatever a
    single record does; it only appends to what was collected. *)
Lemma parse_loop_lines (events : list value) :
  forall (acc : list str) (w : world),
    fst (parse_loop events acc w) = Ret (acc ++ flat_map lines_of_event events).
Proof.
  induction events as [|event events IH]; intros acc w; simpl.
  - now rewrite app_nil_r.
  - unfold lines_of_event at 1.
    pose proof (@parse_event_never_exits event) as Hx.
    destruct (parse_event event) as [[f|]|e]; simpl.
    + unfold bind; simpl. rewrite IH. now rewrite <- app_assoc.
    + apply IH.
    + destruct e; simpl;
        try (unfold bind; simpl; apply IH).
      exfalso. now apply (Hx status).
Qed.

(** When the record list has a length, extraction returns: the lines of
    the records in input order. *)
Lemma parse_events_returns (events_data : value) (items : list value) (w : world) :
  py_iter (select_events events_data) = Ret items ->
  fst (parse_events events_data w) =
    Ret (if truthy events_data then flat_map lines_of_event items else []).
Proof.
  intros Hit. unfold parse_events.
  destruct (truthy events_data); simpl; [|reflexivity].
  destruct (select_events events_data); simpl in *; try discriminate;
    injection Hit as <-; unfold bind, lift; simpl; apply parse_loop_lines.
Qed.

(** A root that is false in a condition has no records. *)
Lemma select_events_falsy (events_data : value) :
  truthy events_data = false -> select_events events_data = VList [].
Proof.
  destruct events_data as [| | | | |l|d]; simpl; try reflexivity.
  - destruct l; [reflexivity|discriminate].
  - destruct d; [reflexivity|discriminate].
Qed.

(** C1: the payload whose [features] is the number 5 ends extraction by
    an uncaught [TypeError]: [len(events)] of line 133 is evaluated
    outside the [try] of the loop, so the batch is aborted before any
    record is looked at. *)
Theorem parse_events_features_int_raises (w : world) :
  fst (parse_events features_int_payload w)
  = Raise (TypeError (s "object of type 'int' has no len()")).
Proof. reflexivity. Qed.

(** C2: the end-to-end scenario produces exactly one line, the expected
    one. *)
Theorem parse_events_smokeout (w : world) :
  fst (parse_events smokeout_payload w) = Ret [smokeout_line].
Proof.
  rewrite (@parse_events_returns smokeout_payload
             [VDict [(s "id", VInt 7);
                     (s "properties",
                      VDict [(s "name", VStr (s "Smokeout"));
                             (s "html_content", VStr smokeout_html)])]] w).
  - vm_compute. reflexivity.
  - reflexivity.
Qed.

(** ** Record-list discovery *)

Lemma dict_contains_lookup d k :
  dict_contains d k = true -> dict_lookup d k = Some (dict_get d k VNone).
Proof.
  unfold dict_contains, dict_get. destruct (dict_lookup d k); [reflexivity|discriminate].
Qed.

Lemma dict_contains_false d k :
  dict_contains d k = false -> dict_lookup d k = None.
Proof.
  unfold dict_contains. destruct (dict_lookup d k); [discriminate|reflexivity].
Qed.

Lemma first_list_found d before k l after :
  d = before ++ (k, VList l) :: after ->
  Forall (fun kv => is_list (snd kv) = false) before ->
  first_list d = VList l.
Proof.
  intros -> Hb. induction Hb as [|[k' v] before Hv _ IH]; simpl.
  - reflexivity.
  - simpl in Hv. now rewrite Hv.
Qed.

Lemma first_list_cases d :
  (exists before k l after,
      d = before ++ (k, VList l) :: after
      /\ Forall (fun kv => is_list (snd kv) = false) before
      /\ first_list d = VList l)
  \/ (Forall (fun kv => is_list (snd kv) = false) d /\ first_list d = VList []).
Proof.
  induction d as [|[k v] d IH]; simpl.
  - right. auto.
  - destruct (is_list v) eqn:Hv.
    + left. destruct v; try discriminate.
      exists [], k, l, d. auto.
    + destruct IH as [(before & k' & l & after & -> & Hb & ->)|[Hall ->]].
      * left. exists ((k, v) :: before), k', l, after. auto.
      * right. auto.
Qed.

(** The discovery relation of the specification determines the record
    list. *)
Lemma record_list_functional root v1 v2 :
  record_list root v1 -> record_list root v2 -> v1 = v2.
Proof.
  intros H1 H2.
  destruct H1; inversion H2; subst; try congruence;
    try match goal with
        | H : forall d, VDict ?x <> VDict d |- _ => now destruct (H x)
        | H : forall l, VList ?x <> VList l |- _ => now destruct (H x)
        end.
  - (* two first sequences *)
    match goal with
    | Ha : Forall _ before, Hb : Forall _ ?b,
      H : before ++ _ = ?b ++ (?k', VList ?l') :: ?a |- _ =>
        pose proof (@first_list_found _ before k l after eq_refl Ha) as E1;
        pose proof (@first_list_found _ b k' l' a H Hb) as E2;
        congruence
    end.
  - (* a first sequence, and none *)
    match goal with
    | H : Forall _ (before ++ _) |- _ =>
        apply Forall_app in H; destruct H as [_ H];
        inversion H as [|? ? Hl _]; discriminate Hl
    end.
  - match goal with
    | H : Forall _ (?b ++ _) |- _ =>
        apply Forall_app in H; destruct H as [_ H];
        inversion H as [|? ? Hl _]; discriminate Hl
    end.
Qed.

(** C3: for every root, the record list the code selects is the one the
    discovery order of the specification designates. *)
Theorem select_events_record_list (root : value) :
  record_list root (select_events root).
Proof.
  destruct root as [| | | | |l|d]; simpl;
    try (apply rl_other; intros; discriminate).
  - apply rl_sequence.
  - destruct (dict_contains d (s "features")) eqn:Hf.
    { apply rl_features. now apply dict_contains_lookup. }
    apply dict_contains_false in Hf.
    destruct (dict_contains d (s "events")) eqn:He.
    { apply rl_events; [assumption|]. now apply dict_contains_lookup. }
    apply dict_contains_false in He.
    destruct (dict_contains d (s "data")) eqn:Hd.
    { apply rl_data; try assumption. now apply dict_contains_lookup. }
    apply dict_contains_false in Hd.
    destruct (first_list_cases d)
      as [(before & k & l & after & Hsplit & Hb & ->)|[Hall ->]].
    + eapply rl_first_sequence; eauto.
    + now apply rl_no_sequence.
Qed.

(** With both [features] and [events] present, [features] is selected. *)
Lemma select_events_features_first d f e :
  dict_lookup d (s "features") = Some f ->
  dict_lookup d (s "events") = Some e ->
  select_events (VDict d) = f.
Proof.
  intros Hf _. simpl. unfold dict_contains, dict_get. now rewrite Hf.
Qed.

(** ** Determinism of extraction *)

(** C9: the lines extraction returns, or the exception it ends with, are
    a function of the payload alone: the clock, the network, what was
    printed before and the output file have no influence on them. *)
Theorem parse_events_deterministic (events_data : value) (w1 w2 : world) :
  fst (parse_events events_data w1) = fst (parse_events events_data w2).
Proof.
  unfold parse_events.
  destruct (truthy events_data); simpl; [|reflexivity].
  destruct (select_events events_data); simpl; try reflexivity;
    unfold bind, lift; simpl; now rewrite !parse_loop_lines.
Qed.

(** Running extraction a second time, in the world the first run left,
    gives the same lines. *)
Lemma parse_events_twice (events_data : value) (w : world) :
  fst (parse_events events_data (snd (parse_events events_data w)))
  = fst (parse_events events_data w).
Proof. apply parse_events_deterministic. Qed.

(** ** JSONP unwrapping *)

Lemma ascii_eqb_eq (a b : ascii) : ascii_eqb a b = true <-> a = b.
Proof. apply Ascii.eqb_eq. Qed.

Lemma ascii_eqb_neq (a b : ascii) : ascii_eqb a b = false <-> a <> b.
Proof. apply Ascii.eqb_neq. Qed.

Lemma find_from_absent c x : forall i, ~ In c x -> find_from c x i = -1.
Proof.
  induction x as [|d x IH]; intros i Hn; simpl; [reflexivity|].
  destruct (ascii_eqb c d) eqn:E.
  - apply ascii_eqb_eq in E. subst. exfalso. apply Hn. now left.
  - apply IH. intros H. apply Hn. now right.
Qed.

Lemma find_from_first c a b :
  forall i, ~ In c a -> find_from c (a ++ c :: b) i = i + Z.of_nat (List.length a).
Proof.
  induction a as [|d a IH]; intros i Hn; simpl.
  - assert (E : ascii_eqb c c = true) by now apply ascii_eqb_eq.
    rewrite E. lia.
  - destruct (ascii_eqb c d) eqn:E.
    + apply ascii_eqb_eq in E. subst. exfalso. apply Hn. now left.
    + rewrite IH; [lia|]. intros H. apply Hn. now right.
Qed.

Lemma rfind_from_absent c x : forall i last, ~ In c x -> rfind_from c x i last = last.
Proof.
  induction x as [|d x IH]; intros i last Hn; simpl; [reflexivity|].
  destruct (ascii_eqb c d) eqn:E.
  - apply ascii_eqb_eq in E. subst. exfalso. apply Hn. now left.
  - apply IH. intros H. apply Hn. now right.
Qed.

Lemma rfind_from_app c a b :
  forall i last,
    rfind_from c (a ++ b) i last
    = rfind_from c b (i + Z.of_nat (List.length a)) (rfind_from c a i last).
Proof.
  induction a as [|d a IH]; intros i last; simpl.
  - f_equal. lia.
  - rewrite IH. f_equal. lia.
Qed.

Lemma rfind_from_bound c x :
  forall i last, last < i -> rfind_from c x i last < i + Z.of_nat (List.length x).
Proof.
  induction x as [|d x IH]; intros i last Hl; simpl.
  - lia.
  - specialize (IH (i + 1) (if ascii_eqb c d then i else last)).
    destruct (ascii_eqb c d); lia.
Qed.

(** Without an opening brace the text is left as it is. *)
Lemma unwrap_jsonp_no_brace data :
  ~ In "{"%char data -> unwrap_jsonp data = data.
Proof.
  intros Hn. unfold unwrap_jsonp, find.
  rewrite find_from_absent by assumption. simpl.
  now destruct (startswith data (s "banner_callback_")).
Qed.

(** When no closing brace follows the first opening brace, the text is
    left as it is. *)
Lemma unwrap_jsonp_no_close data a b :
  data = a ++ "{"%char :: b -> ~ In "{"%char a -> ~ In "}"%char b ->
  unwrap_jsonp data = data.
Proof.
  intros -> Ha Hb. unfold unwrap_jsonp, find, rfind.
  rewrite find_from_first by assumption. rewrite rfind_from_app. simpl.
  rewrite rfind_from_absent by assumption.
  pose proof (@rfind_from_bound "}"%char a 0 (-1) ltac:(lia)) as Hbound.
  destruct (startswith _ _); [|reflexivity].
  destruct (_ && _) eqn:E; [|reflexivity].
  apply andb_true_iff in E. destruct E as [_ E]. apply Z.ltb_lt in E. lia.
Qed.

(** C10: only a text that begins with [banner_callback_] is unwrapped;
    any other text reaches [json.loads] unmodified and, when it does
    not parse, the error and a preview are printed and the result is
    [None].  A text without an opening brace, or with no closing brace
    after its first opening brace, is left unchanged. *)
Theorem jsonp_unwrap_only_banner_callback
        (json_loads : str -> decoded) (data : str) :
  (startswith data (s "banner_callback_") = false ->
   unwrap_jsonp data = data
   /\ forall e w,
       json_loads data = JSONDecodeError e ->
       fst (decode_response json_loads data w) = Ret VNone
       /\ stdout (snd (decode_response json_loads data w))
          = stdout w ++ [s "Error parsing JSON: " ++ e;
                         s "Response data: " ++ firstn 500 data])
  /\ (~ In "{"%char data -> unwrap_jsonp data = data)
  /\ (forall a b,
         data = a ++ "{"%char :: b -> ~ In "{"%char a -> ~ In "}"%char b ->
         unwrap_jsonp data = data).
Proof.
  split; [|split].
  - intros Hp.
    assert (Hu : unwrap_jsonp data = data) by (unfold unwrap_jsonp; now rewrite Hp).
    split; [exact Hu|].
    intros e w He. unfold decode_response. rewrite Hu, He.
    unfold bind; simpl. split; [reflexivity|].
    now rewrite <- app_assoc.
  - apply unwrap_jsonp_no_brace.
  - intros a b. apply unwrap_jsonp_no_close.
Qed.

Lemma jsonp_unwrap_only_banner_callback_witness :
  unwrap_jsonp (s "other_callback({})") = s "other_callback({})"
  /\ fst (decode_response loads_never (s "other_callback({})")
            (sample_world None (Body []))) = Ret VNone
  /\ unwrap_jsonp (s "banner_callback_1()") = s "banner_callback_1()"
  /\ unwrap_jsonp (s "banner_callback_1}{") = s "banner_callback_1}{".
Proof.
  destruct (jsonp_unwrap_only_banner_callback loads_never (s "other_callback({})"))
    as (H1 & _ & _).
  destruct (H1 eq_refl) as (Hu & Hd).
  destruct (jsonp_unwrap_only_banner_callback loads_never (s "banner_callback_1()"))
    as (_ & H2 & _).
  destruct (jsonp_unwrap_only_banner_callback loads_never (s "banner_callback_1}{"))
    as (_ & _ & H3).
  split; [exact Hu|].
  split; [exact (proj1 (Hd _ (sample_world None (Body [])) eq_refl))|].
  split.
  - apply H2. vm_compute. intuition discriminate.
  - apply (H3 (s "banner_callback_1}") []); [reflexivity | |].
    + vm_compute. intuition discriminate.
    + intros [].
Defined.

(** ** The calendar *)

Lemma is_leap_spec y :
  is_leap y = true <-> (y mod 4 = 0 /\ (y mod 100 <> 0 \/ y mod 400 = 0)).
Proof.
  unfold is_leap.
  rewrite andb_true_iff, orb_true_iff, negb_true_iff, !Z.eqb_eq, Z.eqb_neq.
  tauto.
Qed.

Ltac split_tests :=
  repeat match goal with
         | |- context [Z.eqb ?a ?b] => destruct (Z.eqb_spec a b)
         | |- context [Z.ltb ?a ?b] => destruct (Z.ltb_spec a b)
         | |- context [Z.leb ?a ?b] => destruct (Z.leb_spec a b)
         | H : context [Z.eqb ?a ?b] |- _ => destruct (Z.eqb_spec a b)
         end; cbn [andb orb negb] in *.

Lemma ord2ymd_roundtrip n :
  1 <= n <= MAXORDINAL ->
  let '(y, m, d) := ord2ymd n in
  ymd2ord y m d = n /\ MINYEAR <= y <= MAXYEAR /\ 1 <= m <= 12
  /\ 1 <= d <= days_in_month y m.
Proof.
  intros Hn. unfold ord2ymd, MAXORDINAL, MINYEAR, MAXYEAR, DI400Y, DI100Y, DI4Y in *.
  set (n0 := n - 1).
  set (n400 := n0 / 146097). set (r400 := n0 mod 146097).
  set (n100 := r400 / 36524). set (r100 := r400 mod 36524).
  set (n4 := r100 / 1461). set (r4 := r100 mod 1461).
  set (n1 := r4 / 365). set (r1 := r4 mod 365).
  assert (E400 : n0 = 146097 * n400 + r400 /\ 0 <= r400 < 146097)
    by (split; [apply Z.div_mod; lia | apply Z.mod_pos_bound; lia]).
  assert (E100 : r400 = 36524 * n100 + r100 /\ 0 <= r100 < 36524)
    by (split; [apply Z.div_mod; lia | apply Z.mod_pos_bound; lia]).
  assert (E4 : r100 = 1461 * n4 + r4 /\ 0 <= r4 < 1461)
    by (split; [apply Z.div_mod; lia | apply Z.mod_pos_bound; lia]).
  assert (E1 : r4 = 365 * n1 + r1 /\ 0 <= r1 < 365)
    by (split; [apply Z.div_mod; lia | apply Z.mod_pos_bound; lia]).
  clearbody n400 r400 n100 r100 n4 r4 n1 r1. subst n0.
  assert (B400 : 0 <= n400 <= 24) by lia.
  assert (B100 : 0 <= n100 <= 4) by lia.
  assert (B4 : 0 <= n4 <= 24) by lia.
  assert (B1 : 0 <= n1 <= 4) by lia.
  destruct ((n1 =? 4) || (n100 =? 4)) eqn:Hlast.
  - apply orb_true_iff in Hlast. rewrite !Z.eqb_eq in Hlast.
    assert (Hy : (n1 = 4 /\ r1 = 0 /\ n4 <= 23 /\ n100 <= 3)
                 \/ (n100 = 4 /\ r100 = 0 /\ n4 = 0 /\ n1 = 0 /\ r1 = 0)) by lia.
    clear Hlast.
    unfold ymd2ord, days_before_year, days_before_month, days_in_month, is_leap.
    simpl DAYS_BEFORE_MONTH; simpl DAYS_IN_MONTH. simpl (12 =? 2). simpl (2 <? 12).
    cbv iota. simpl andb.
    split_tests; try (Z.div_mod_to_equations; lia).
  - apply orb_false_iff in Hlast. rewrite !Z.eqb_neq in Hlast.
    set (Y := n400 * 400 + 1 + n100 * 100 + n4 * 4 + n1).
    assert (HL : (n1 =? 3) && (negb (n4 =? 24) || (n100 =? 3)) = is_leap Y).
    { unfold is_leap, Y. split_tests; try reflexivity;
        exfalso; Z.div_mod_to_equations; lia. }
    assert (HY : days_before_year Y = n - 1 - r1).
    { unfold days_before_year, Y. Z.div_mod_to_equations. lia. }
    assert (HYb : 1 <= Y <= 9999) by (unfold Y; lia).
    rewrite HL. clear HL. clearbody Y.
    rewrite Z.shiftr_div_pow2 by lia. change (2 ^ 5) with 32.
    set (m := (r1 + 50) / 32).
    assert (Hm : 32 * m <= r1 + 50 < 32 * m + 32)
      by (unfold m; Z.div_mod_to_equations; lia).
    clearbody m.
    assert (Hcases : m = 1 \/ m = 2 \/ m = 3 \/ m = 4 \/ m = 5 \/ m = 6 \/ m = 7
                     \/ m = 8 \/ m = 9 \/ m = 10 \/ m = 11 \/ m = 12) by lia.
    unfold ymd2ord, days_before_month, days_in_month.
    (repeat (destruct Hcases as [->|Hcases]); try subst m;
      simpl DAYS_BEFORE_MONTH; simpl DAYS_IN_MONTH;
      destruct (is_leap Y) eqn:HLp; split_tests; rewrite ?HY, ?HLp;
      simpl; try lia).
Qed.

Lemma zrange_check (P : Z -> bool) (lo n : Z) :
  forallb P (zrange lo (Z.to_nat n)) = true ->
  forall z, lo <= z < lo + n -> P z = true.
Proof.
  intros Hall z Hz. rewrite forallb_forall in Hall. apply Hall.
  unfold zrange. apply in_map_iff. exists (Z.to_nat (z - lo)). split; [lia|].
  apply in_seq. lia.
Qed.

Lemma pad2_prints_back n : 1 <= n <= 31 -> prints_back 2 pad2 n = true.
Proof.
  intros Hn. apply (@zrange_check (prints_back 2 pad2) 1 31); [|lia].
  vm_compute. reflexivity.
Qed.

Lemma year_prints_back y : 1000 <= y <= 9999 -> prints_back 4 str_of_int y = true.
Proof.
  intros Hy. apply (@zrange_check (prints_back 4 str_of_int) 1000 9000); [|lia].
  vm_compute. reflexivity.
Qed.

Lemma prints_back_inv width print n :
  prints_back width print n = true ->
  List.length (print n) = width /\ parse_digits (print n) = Some n.
Proof.
  unfold prints_back. intros H. apply andb_true_iff in H. destruct H as [Hl Hp].
  apply Nat.eqb_eq in Hl. split; [exact Hl|].
  destruct (parse_digits (print n)); [|discriminate].
  apply Z.eqb_eq in Hp. now subst.
Qed.

(** The text [strftime] prints shows the date it was given. *)
Lemma strftime_mdY_parse t :
  1 <= month t <= 12 -> 1 <= day t <= 31 -> 1000 <= year t <= 9999 ->
  parse_mdY (strftime_mdY t) = Some (month t, day t, year t).
Proof.
  intros Hm Hd Hy. unfold strftime_mdY.
  destruct (prints_back_inv _ _ _ (@pad2_prints_back (month t) ltac:(lia))) as [Lm Pm].
  destruct (prints_back_inv _ _ _ (@pad2_prints_back (day t) Hd)) as [Ld Pd].
  destruct (prints_back_inv _ _ _ (@year_prints_back (year t) Hy)) as [Ly Py].
  destruct (pad2 (month t)) as [|m1 [|m2 [|]]]; try discriminate Lm.
  destruct (pad2 (day t)) as [|d1 [|d2 [|]]]; try discriminate Ld.
  destruct (str_of_int (year t)) as [|y1 [|y2 [|y3 [|y4 [|]]]]]; try discriminate Ly.
  change (parse_mdY [m1; m2; "/"%char; d1; d2; "/"%char; y1; y2; y3; y4]
          = Some (month t, day t, year t)).
  unfold parse_mdY. simpl andb. cbv iota. now rewrite Pm, Pd, Py.
Qed.

Lemma days_before_year_succ y :
  days_before_year (y + 1) = days_before_year y + 365 + (if is_leap y then 1 else 0).
Proof.
  unfold days_before_year, is_leap. split_tests; Z.div_mod_to_equations; lia.
Qed.

Lemma days_before_year_mono y1 y2 :
  y1 <= y2 -> days_before_year y1 <= days_before_year y2.
Proof.
  intros H. unfold days_before_year. Z.div_mod_to_equations. lia.
Qed.

Lemma days_in_month_le y m : days_in_month y m <= 31.
Proof.
  unfold days_in_month. destruct ((m =? 2) && is_leap y); [lia|].
  unfold DAYS_IN_MONTH.
  destruct m as [|p|p]; try lia.
  do 4 (destruct p as [p|p|]; try lia).
Qed.

(** A valid date lies within its year. *)
Lemma toordinal_bounds t :
  valid t ->
  days_before_year (year t) < toordinal t <= days_before_year (year t + 1).
Proof.
  intros (Hy & Hm & Hd). rewrite days_before_year_succ.
  unfold toordinal, ymd2ord, days_before_month, days_in_month in *.
  assert (Hcases : month t = 1 \/ month t = 2 \/ month t = 3 \/ month t = 4
                   \/ month t = 5 \/ month t = 6 \/ month t = 7 \/ month t = 8
                   \/ month t = 9 \/ month t = 10 \/ month t = 11
                   \/ month t = 12) by lia.
  destruct (is_leap (year t));
    repeat (destruct Hcases as [E|Hcases];
            [rewrite E in *; simpl in Hd |- *; lia|]);
    rewrite Hcases in *; simpl in Hd |- *; lia.
Qed.

(** Adding 365 days to a date of the years 1 to 9998 gives a valid date
    365 days later, with the same time of day. *)
Lemma add_days_365 t :
  valid t -> year t <= 9998 ->
  exists t',
    add_days t 365 = Some t' /\ valid t'
    /\ toordinal t' = toordinal t + 365
    /\ time_of_day t' = time_of_day t
    /\ year t <= year t'.
Proof.
  intros Hv Hy.
  pose proof (toordinal_bounds Hv) as Hb.
  assert (Hlow : 0 <= days_before_year (year t)).
  { destruct Hv as (Hyr & _). unfold MINYEAR in Hyr.
    change 0 with (days_before_year 1). apply days_before_year_mono. lia. }
  assert (Hhigh : days_before_year (year t + 1) <= days_before_year 9999)
    by (apply days_before_year_mono; lia).
  change (days_before_year 9999) with 3651694 in Hhigh.
  assert (Hrange : 1 <= toordinal t + 365 <= MAXORDINAL)
    by (unfold MAXORDINAL; lia).
  unfold add_days.
  replace ((0 <? toordinal t + 365) && (toordinal t + 365 <=? MAXORDINAL))
    with true
    by (symmetry; apply andb_true_iff; split;
        [apply Z.ltb_lt | apply Z.leb_le]; lia).
  pose proof (ord2ymd_roundtrip Hrange) as Hr.
  destruct (ord2ymd (toordinal t + 365)) as [[y m] d].
  destruct Hr as (Hord & Hyv & Hmv & Hdv).
  eexists. split; [reflexivity|].
  assert (Hv' : valid {| year := y; month := m; day := d;
                         time_of_day := time_of_day t |})
    by (unfold valid; simpl; auto).
  repeat split; simpl; try assumption; try lia.
  (* the year does not go back *)
  pose proof (toordinal_bounds Hv') as Hb'. unfold toordinal in Hb'.
  simpl in Hb'. rewrite Hord in Hb'.
  destruct (Z_lt_le_dec y (year t)) as [Hlt|]; [|assumption].
  exfalso.
  assert (days_before_year (y + 1) <= days_before_year (year t))
    by (apply days_before_year_mono; lia).
  lia.
Qed.

(** At a clock reading of the years 1000 to 9998, [get_date_range]
    returns the current date and the date 365 days later, both printed
    as MM/DD/YYYY; the result is computed from the clock reading of the
    invocation and nothing is kept from one invocation to the next. *)
Lemma get_date_range_365 (w : world) :
  valid (clock w) ->
  1000 <= year (clock w) <= 9998 ->
  exists end_date : datetime,
    get_date_range w
    = (Ret (strftime_mdY (clock w), strftime_mdY end_date), w)
    /\ valid end_date
    /\ toordinal end_date = toordinal (clock w) + 365
    /\ parse_mdY (strftime_mdY (clock w))
       = Some (month (clock w), day (clock w), year (clock w))
    /\ parse_mdY (strftime_mdY end_date)
       = Some (month end_date, day end_date, year end_date).
Proof.
  intros Hv Hy.
  destruct (@add_days_365 (clock w) Hv ltac:(lia))
    as (t' & Hadd & Hv' & Hord & _ & Hyear).
  exists t'. unfold get_date_range, bind, now. simpl. rewrite Hadd.
  split; [reflexivity|]. split; [assumption|]. split; [assumption|].
  destruct Hv as (_ & Hm & Hd). destruct Hv' as (Hy' & Hm' & Hd').
  unfold MAXYEAR in Hy'.
  pose proof (days_in_month_le (year (clock w)) (month (clock w))).
  pose proof (days_in_month_le (year t') (month t')).
  split; apply strftime_mdY_parse; lia.
Qed.

(** ** The matcher and what a pattern matches *)

Lemma runs_spec p x m rest :
  In (m, rest) (runs p x) <-> x = m ++ rest /\ Forall (fun d => p d = true) m.
Proof.
  revert m rest. induction x as [|d x IH]; intros m rest; simpl.
  - split.
    + intros [E|[]]. injection E as <- <-. auto.
    + intros [E _]. symmetry in E. apply app_eq_nil in E. destruct E; subst. now left.
  - destruct (p d) eqn:Hp.
    + rewrite in_app_iff, in_map_iff. split.
      * intros [((m' & rest') & E & Hin)|[E|[]]].
        -- simpl in E. injection E as <- <-. apply IH in Hin.
           destruct Hin as [-> HF]. split; [reflexivity|]. now constructor.
        -- injection E as <- <-. auto.
      * intros [E HF]. destruct m as [|d' m].
        -- right. left. simpl in E. now subst.
        -- left. simpl in E. injection E as -> ->.
           inversion HF; subst. exists (m, rest). split; [reflexivity|].
           apply IH. auto.
    + split.
      * intros [E|[]]. injection E as <- <-. auto.
      * intros [E HF]. destruct m as [|d' m].
        -- left. simpl in E. now subst.
        -- simpl in E. injection E as -> ->. inversion HF; subst. congruence.
Qed.

Lemma exactly_spec p n x m rest :
  In (m, rest) (exactly p n x)
  <-> x = m ++ rest /\ List.length m = n /\ Forall (fun d => p d = true) m.
Proof.
  revert x m rest. induction n as [|n IH]; intros x m rest; simpl.
  - split.
    + intros [E|[]]. injection E as <- <-. auto.
    + intros (E & Hl & _). destruct m; [|discriminate]. simpl in E. subst. now left.
  - destruct x as [|d x].
    + split; [intros []|]. intros (E & Hl & _).
      destruct m; [discriminate|discriminate].
    + destruct (p d) eqn:Hp.
      * rewrite in_map_iff. split.
        -- intros ((m' & rest') & E & Hin). simpl in E. injection E as <- <-.
           apply IH in Hin. destruct Hin as (-> & Hl & HF).
           repeat split; simpl; auto.
        -- intros (E & Hl & HF). destruct m as [|d' m]; [discriminate|].
           simpl in E. injection E as -> ->. inversion HF; subst.
           exists (m, rest). split; [reflexivity|]. apply IH. auto.
      * split; [intros []|]. intros (E & Hl & HF).
        destruct m as [|d' m]; [discriminate|].
        simpl in E. injection E as -> ->. inversion HF; subst. congruence.
Qed.

(** The ways of the matcher are exactly the matches of the pattern. *)
Lemma ways_spec r :
  forall x c m rest c',
    In (m, rest, c') (ways r x c) <-> x = m ++ rest /\ matches r m c c'.
Proof.
  induction r as [|a|a|a|a|n a|r1 IH1 r2 IH2|n r IH]; intros x c m rest c'; simpl.
  - split.
    + intros [E|[]]. injection E as <- <- <-. auto.
    + intros (-> & -> & ->). now left.
  - destruct x as [|d x].
    + split; [intros []|]. intros (E & (d & -> & _) & _). discriminate.
    + destruct (accepts a d) eqn:Ha.
      * split.
        -- intros [E|[]]. injection E as <- <- <-. eauto 6.
        -- intros (E & (d' & -> & _) & ->). injection E as -> ->. now left.
      * split; [intros []|]. intros (E & (d' & -> & Hd) & _).
        injection E as -> ->. congruence.
  - rewrite in_map_iff. split.
    + intros ((m' & rest') & E & Hin). simpl in E. injection E as <- <- <-.
      apply runs_spec in Hin. destruct Hin. auto.
    + intros (E & HF & ->). exists (m, rest). split; [reflexivity|].
      apply runs_spec. auto.
  - destruct x as [|d x].
    + split; [intros []|]. intros (E & (Hne & _) & _).
      symmetry in E. apply app_eq_nil in E. destruct E. contradiction.
    + destruct (accepts a d) eqn:Ha.
      * rewrite in_map_iff. split.
        -- intros ((m' & rest') & E & Hin). simpl in E. injection E as <- <- <-.
           apply runs_spec in Hin. destruct Hin as [-> HF].
           repeat split; try discriminate. now constructor.
        -- intros (E & (Hne & HF) & ->). destruct m as [|d' m]; [contradiction|].
           simpl in E. injection E as -> ->. inversion HF; subst.
           exists (m, rest). split; [reflexivity|]. apply runs_spec. auto.
      * split; [intros []|]. intros (E & (Hne & HF) & _).
        destruct m as [|d' m]; [contradiction|].
        simpl in E. injection E as -> ->. inversion HF; subst. congruence.
  - destruct x as [|d x].
    + split.
      * intros [E|[]]. injection E as <- <- <-. auto.
      * intros (E & _ & ->). symmetry in E. apply app_eq_nil in E.
        destruct E; subst. now left.
    + destruct (accepts a d) eqn:Ha.
      * split.
        -- intros [E|[E|[]]]; injection E as <- <- <-; eauto 7.
        -- intros (E & [->|(d' & -> & Hd)] & ->).
           ++ simpl in E. subst. right. now left.
           ++ injection E as -> ->. now left.
      * split.
        -- intros [E|[]]. injection E as <- <- <-. auto.
        -- intros (E & [->|(d' & -> & Hd)] & ->).
           ++ simpl in E. subst. now left.
           ++ injection E as -> ->. congruence.
  - rewrite in_map_iff. split.
    + intros ((m' & rest') & E & Hin). simpl in E. injection E as <- <- <-.
      apply exactly_spec in Hin. destruct Hin as (? & ? & ?). auto.
    + intros (E & (Hl & HF) & ->). exists (m, rest). split; [reflexivity|].
      apply exactly_spec. auto.
  - rewrite in_flat_map. split.
    + intros ([[m1 x1] c1] & Hin1 & Hin2).
      apply in_map_iff in Hin2. destruct Hin2 as ([[m2 x2] c2] & E & Hin2).
      injection E as <- <- <-.
      apply IH1 in Hin1. apply IH2 in Hin2.
      destruct Hin1 as [-> H1]. destruct Hin2 as [-> H2].
      split; [now rewrite app_assoc|]. eauto 7.
    + intros (-> & m1 & m2 & c1 & -> & H1 & H2).
      exists (m1, m2 ++ rest, c1). split.
      * apply IH1. split; [now rewrite app_assoc|assumption].
      * apply in_map_iff. exists (m2, rest, c'). split; [reflexivity|].
        apply IH2. auto.
  - rewrite in_map_iff. split.
    + intros ([[m' x'] c1] & E & Hin). injection E as <- <- <-.
      apply IH in Hin. destruct Hin. eauto.
    + intros (-> & c1 & H & ->). exists (m, rest, c1). split; [reflexivity|].
      apply IH. auto.
Qed.

Lemma match_here_some r x c :
  match_here r x = Some c -> occurs r x [] c.
Proof.
  unfold match_here. destruct (ways r x []) as [|[[m rest] c0] l] eqn:E; [discriminate|].
  intros H. injection H as ->.
  assert (Hin : In (m, rest, c) (ways r x [])) by (rewrite E; now left).
  apply ways_spec in Hin. destruct Hin as [-> Hm].
  exists m, rest. auto.
Qed.

Lemma match_here_none r x c :
  match_here r x = None -> ~ occurs r x [] c.
Proof.
  unfold match_here. intros H (m & post & E & Hm). simpl in E.
  assert (Hin : In (m, post, c) (ways r x [])) by (apply ways_spec; auto).
  destruct (ways r x []) as [|[[m0 rest0] c0] l]; [destruct Hin|discriminate].
Qed.

Lemma occurs_cons r d x pre c :
  occurs r (d :: x) (d :: pre) c <-> occurs r x pre c.
Proof.
  unfold occurs. split; intros (m & post & E & Hm); exists m, post; split; auto.
  - simpl in E. now injection E.
  - simpl. now rewrite E.
Qed.

Lemma occurs_head r x pre c :
  occurs r x pre c -> pre = [] \/ exists d x' pre', x = d :: x' /\ pre = d :: pre'.
Proof.
  intros (m & post & E & _). destruct pre as [|d pre']; [now left|].
  right. subst. simpl. eauto.
Qed.

(** [re.search] returns an occurrence that no other occurrence
    precedes. *)
Lemma search_some r x :
  forall c, search r x = Some c ->
            exists pre, occurs r x pre c /\ none_before r x pre.
Proof.
  induction x as [|d x IH]; intros c; simpl.
  - destruct (match_here r []) eqn:E; [|discriminate].
    intros H. injection H as ->. exists []. split.
    + now apply match_here_some.
    + intros pre' c' _. simpl. lia.
  - destruct (match_here r (d :: x)) eqn:E.
    + intros H. injection H as ->. exists []. split.
      * now apply match_here_some.
      * intros pre' c' _. simpl. lia.
    + intros H. destruct (IH c H) as (pre & Hocc & Hnb).
      exists (d :: pre). split; [now apply occurs_cons|].
      intros pre' c' Hocc'.
      destruct (@occurs_head _ _ _ _ Hocc') as [->|(d' & x' & p & Ex & ->)].
      * exfalso. exact (@match_here_none _ _ c' E Hocc').
      * injection Ex as <- <-. apply occurs_cons in Hocc'.
        specialize (Hnb p c' Hocc'). simpl. lia.
Qed.

(** [re.search] returns [None] exactly when the pattern occurs
    nowhere. *)
Lemma search_none r x : search r x = None <-> absent r x.
Proof.
  split.
  - induction x as [|d x IH]; simpl.
    + destruct (match_here r []) eqn:E; [discriminate|]. intros _ pre c Hocc.
      destruct (@occurs_head _ _ _ _ Hocc) as [->|(d' & x' & p & Ex & _)]; [|discriminate].
      exact (@match_here_none _ _ c E Hocc).
    + destruct (match_here r (d :: x)) eqn:E; [discriminate|]. intros H pre c Hocc.
      destruct (@occurs_head _ _ _ _ Hocc) as [->|(d' & x' & p & Ex & ->)].
      * exact (@match_here_none _ _ c E Hocc).
      * injection Ex as <- <-. apply occurs_cons in Hocc. now apply (IH H p c).
  - intros Ha. destruct (search r x) as [c|] eqn:E; [|reflexivity].
    destruct (@search_some r x c E) as (pre & Hocc & _). now destruct (Ha pre c).
Qed.

Lemma same_length_prefix (A : Type) (p1 p2 r1 r2 : list A) :
  p1 ++ r1 = p2 ++ r2 -> List.length p1 = List.length p2 -> p1 = p2 /\ r1 = r2.
Proof.
  revert p2. induction p1 as [|a p1 IH]; intros [|b p2] E Hl; try discriminate.
  - auto.
  - simpl in E. injection E as -> E. injection Hl as Hl.
    destruct (IH _ E Hl) as [-> ->]. auto.
Qed.

(** When the matches at one place agree on group [n], [re.search]
    returns group [n] of the leftmost occurrence. *)
Lemma search_leftmost r n x pre c :
  group_determined r n ->
  occurs r x pre c -> none_before r x pre ->
  exists c0, search r x = Some c0 /\ group c0 n = group c n.
Proof.
  intros Hdet Hocc Hnb.
  destruct (search r x) as [c0|] eqn:E.
  - exists c0. split; [reflexivity|].
    destruct (@search_some r x c0 E) as (pre0 & Hocc0 & Hnb0).
    pose proof (Hnb _ _ Hocc0) as L1. pose proof (Hnb0 _ _ Hocc) as L2.
    destruct Hocc as (m & post & Ex & Hm).
    destruct Hocc0 as (m0 & post0 & Ex0 & Hm0).
    rewrite Ex0 in Ex.
    destruct (@same_length_prefix _ _ _ _ _ Ex ltac:(lia)) as [_ Em].
    exact (Hdet _ _ _ _ _ _ Em Hm0 Hm).
  - apply search_none in E. now destruct (E pre c).
Qed.

(** ** The patterns of the script, one by one *)

Lemma matches_lit_chars x m c c' :
  matches (lit_chars x) m c c' <-> m = x /\ c' = c.
Proof.
  revert m. induction x as [|d x IH]; intros m; simpl.
  - tauto.
  - split.
    + intros (m1 & m2 & c1 & -> & ((d' & -> & Hd) & ->) & H2).
      apply IH in H2. destruct H2 as [-> ->].
      apply ascii_eqb_eq in Hd. subst. auto.
    + intros [-> ->]. exists [d], x, c. split; [reflexivity|]. split.
      * split; [|reflexivity]. exists d. split; [reflexivity|].
        now apply ascii_eqb_eq.
      * now apply IH.
Qed.

Lemma matches_lit x m c c' : matches (lit x) m c c' <-> m = s x /\ c' = c.
Proof. apply matches_lit_chars. Qed.

Lemma matches_cat_cons r rs m c c' :
  matches (cat (r :: rs)) m c c'
  <-> exists m1 m2 c1, m = m1 ++ m2 /\ matches r m1 c c1 /\ matches (cat rs) m2 c1 c'.
Proof. reflexivity. Qed.

Lemma matches_cat_nil m c c' : matches (cat []) m c c' <-> m = [] /\ c' = c.
Proof. reflexivity. Qed.

Lemma accepts_not_lt d : accepts not_lt d = true <-> d <> "<"%char.
Proof.
  unfold not_lt, accepts, existsb, item_accepts.
  rewrite orb_false_r, negb_true_iff, ascii_eqb_neq.
  split; intros H E; apply H; auto.
Qed.

Lemma all_not_lt t : all_accepted not_lt t <-> tag_free t.
Proof.
  unfold all_accepted, tag_free. rewrite Forall_forall. split.
  - intros H Hin. apply H in Hin. apply accepts_not_lt in Hin. now apply Hin.
  - intros H d Hin. apply accepts_not_lt. intros ->. now apply H.
Qed.

(** Two texts free of a character [d], each followed by [d], that start
    at the same place are the same text. *)
Lemma until_char_unique (d : ascii) (t1 t2 r1 r2 : str) :
  t1 ++ d :: r1 = t2 ++ d :: r2 -> ~ In d t1 -> ~ In d t2 ->
  t1 = t2 /\ r1 = r2.
Proof.
  revert t2. induction t1 as [|a t1 IH]; intros [|b t2] E H1 H2; simpl in *.
  - injection E as ->. auto.
  - injection E as <- _. exfalso. apply H2. now left.
  - injection E as -> _. exfalso. apply H1. now left.
  - injection E as -> E.
    destruct (IH t2 E) as [-> ->]; auto.
Qed.

(** What matches [name_re]: a span [<b>t</b>]. *)
Lemma name_re_shape m c c' :
  matches name_re m c c'
  <-> exists t, m = s "<b>" ++ t ++ s "</b>" /\ t <> [] /\ tag_free t
                /\ c' = (1%nat, t) :: c.
Proof.
  unfold name_re. split.
  - intros (m1 & m2 & c1 & -> & H1 & m3 & m4 & c2 & -> & H2 & m5 & m6 & c3 & -> & H3 & H4).
    apply matches_lit in H1. destruct H1 as [-> ->].
    apply matches_lit in H3. destruct H3 as [-> ->].
    destruct H4 as [-> ->].
    destruct H2 as (c4 & ((Hne & HF) & ->) & ->).
    exists m3. rewrite app_nil_r. repeat split; auto. now apply all_not_lt.
  - intros (t & -> & Hne & Hf & ->).
    exists (s "<b>"), (t ++ s "</b>"), c. split; [reflexivity|].
    split; [now apply matches_lit|].
    exists t, (s "</b>"), ((1%nat, t) :: c). split; [reflexivity|]. split.
    + exists c. repeat split; auto. now apply all_not_lt.
    + exists (s "</b>"), [], ((1%nat, t) :: c). rewrite app_nil_r.
      split; [reflexivity|]. split; [now apply matches_lit|]. split; reflexivity.
Qed.

Lemma name_re_occurs x pre c :
  occurs name_re x pre c <-> exists t, b_span_at x pre t /\ c = [(1%nat, t)].
Proof.
  unfold occurs, b_span_at. split.
  - intros (m & post & -> & Hm). apply name_re_shape in Hm.
    destruct Hm as (t & -> & Hne & Hf & ->). exists t. split; [|reflexivity].
    exists post. rewrite <- !app_assoc. auto.
  - intros (t & (post & -> & Hne & Hf) & ->).
    exists (s "<b>" ++ t ++ s "</b>"), post. rewrite <- !app_assoc. split; [reflexivity|].
    apply name_re_shape. eauto.
Qed.

Lemma name_re_determined : group_determined name_re 1.
Proof.
  intros m1 post1 c1 m2 post2 c2 E H1 H2.
  apply name_re_shape in H1. destruct H1 as (t1 & -> & _ & Hf1 & ->).
  apply name_re_shape in H2. destruct H2 as (t2 & -> & _ & Hf2 & ->).
  rewrite <- !app_assoc in E. apply app_inv_head in E.
  change (s "</b>") with ("<"%char :: s "/b>") in E. simpl in E.
  destruct (@until_char_unique _ _ _ _ _ E Hf1 Hf2) as [-> _]. reflexivity.
Qed.

(** The name pattern finds the text of the first [<b>] span, and finds
    nothing when there is no such span. *)
Lemma search_name_first x t :
  first_b_span x t ->
  exists c, search name_re x = Some c /\ group_text c 1 = t.
Proof.
  intros (pre & Hs & Hfirst).
  destruct (@search_leftmost name_re 1 x pre [(1%nat, t)] name_re_determined)
    as (c0 & Hc0 & Hg).
  - apply name_re_occurs. eauto.
  - intros pre' c' Hocc. apply name_re_occurs in Hocc.
    destruct Hocc as (t' & Hs' & _). eauto.
  - exists c0. split; [assumption|]. unfold group_text. now rewrite Hg.
Qed.

Lemma search_name_none x : no_b_span x -> search name_re x = None.
Proof.
  intros Hn. apply search_none. intros pre c Hocc.
  apply name_re_occurs in Hocc. destruct Hocc as (t & Hs & _). now apply (Hn pre t).
Qed.

(** ** The fields of a record *)

(** On a text, the URL computation returns; this is its value. *)
Lemma url_of_text (event_id : value) (h : str) :
  url_of event_id (VStr h)
  = Ret (if truthy event_id then URL_PREFIX ++ to_str event_id
         else match search onclick_re h with
              | Some c => URL_PREFIX ++ group_text c 1
              | None =>
                  match search onclick_re2 h with
                  | Some c => URL_PREFIX ++ group_text c 1
                  | None =>
                      match search view_event_re h with
                      | Some c => URL_PREFIX ++ group_text c 1
                      | None =>
                          match search href_re h with
                          | Some c => absolute_url (group_text c 1)
                          | None => []
                          end
                      end
                  end
              end).
Proof.
  unfold url_of, absolute_url. destruct (truthy event_id); [reflexivity|].
  cbn [re_search obind].
  destruct (search onclick_re h); cbn [obind]; [reflexivity|].
  destruct (search onclick_re2 h); cbn [obind]; [reflexivity|].
  destruct (search view_event_re h); cbn [obind]; [reflexivity|].
  destruct (search href_re h); reflexivity.
Qed.

(** On a record whose [properties] is a mapping with a text as
    [html_content], the extraction of the fields returns; these are the
    name, the location and the URL. *)
Lemma extract_text (event props : list (str * value)) (h : str) :
  dict_lookup event (s "properties") = Some (VDict props) ->
  dict_get props (s "html_content") (VStr []) = VStr h ->
  exists f,
    extract event = Ret f
    /\ event_name f = match search name_re h with
                      | Some c => VStr (strip (group_text c 1))
                      | None => dict_get props (s "name") (VStr [])
                      end
    /\ location f = match search location_re h with
                    | Some c => strip (group_text c 1)
                    | None =>
                        match search location_alt_re h with
                        | Some c => strip (group_text c 1)
                        | None => []
                        end
                    end
    /\ url_of (record_id event props) (VStr h) = Ret (event_url f).
Proof.
  intros Hp Hh.
  assert (Hg : dict_get event (s "properties") VNone = VDict props)
    by (unfold dict_get; now rewrite Hp).
  unfold extract. rewrite Hg.
  cbn [attr_get obind]. rewrite Hh. cbn [re_search obind].
  fold (record_id event props).
  rewrite url_of_text.
  destruct (search location_re h); cbn [obind];
    (eexists; split; [reflexivity|]);
    cbn [event_name location event_url]; auto.
Qed.

Lemma dict_contains_some d k v : dict_lookup d k = Some v -> dict_contains d k = true.
Proof. unfold dict_contains. now intros ->. Qed.

(** C4, as the code has it: for a record whose [properties] is a mapping
    with a text as [html_content], the name is the stripped text of the
    first [<b>] span with a non-empty tag-free text when there is one,
    and the [name] field of the properties otherwise; the record gives a
    line exactly when that name is true in a condition, whatever the
    other fields are. *)
Theorem event_name_precedence (event props : list (str * value)) (h : str) :
  dict_lookup event (s "properties") = Some (VDict props) ->
  dict_get props (s "html_content") (VStr []) = VStr h ->
  exists f,
    extract event = Ret f
    /\ (forall t, first_b_span h t -> event_name f = VStr (strip t))
    /\ (no_b_span h -> event_name f = dict_get props (s "name") (VStr []))
    /\ parse_event (VDict event)
       = Ret (if truthy (event_name f) then Some f else None)
    /\ lines_of_event (VDict event)
       = if truthy (event_name f) then [format_line f] else [].
Proof.
  intros Hp Hh. destruct (extract_text _ Hp Hh) as (f & Hf & Hname & _ & _).
  exists f. split; [assumption|].
  assert (Hpe : parse_event (VDict event)
                = Ret (if truthy (event_name f) then Some f else None)).
  { unfold parse_event. rewrite (dict_contains_some _ _ Hp), Hf. cbn [obind].
    now destruct (truthy (event_name f)). }
  split; [|split; [|split]].
  - intros t Hfirst. destruct (search_name_first Hfirst) as (c & Hc & Hg).
    now rewrite Hname, Hc, Hg.
  - intros Hnone. now rewrite Hname, (search_name_none Hnone).
  - exact Hpe.
  - unfold lines_of_event. rewrite Hpe. now destruct (truthy (event_name f)).
Qed.

Lemma bbq_bash_first_span : first_b_span (s "<b>BBQ Bash</b>") (s "BBQ Bash").
Proof.
  exists []. split.
  - exists []. split; [reflexivity|]. split; [discriminate|].
    unfold tag_free. vm_compute. intuition discriminate.
  - intros pre' t' _. simpl. lia.
Qed.

Lemma event_name_precedence_witness :
  exists f,
    extract bbq_bash_record = Ret f
    /\ event_name f = VStr (s "BBQ Bash")
    /\ lines_of_event (VDict bbq_bash_record) = [format_line f].
Proof.
  destruct (@event_name_precedence bbq_bash_record
              [(s "name", VStr (s "Other"));
               (s "html_content", VStr (s "<b>BBQ Bash</b>"))]
              (s "<b>BBQ Bash</b>") eq_refl eq_refl)
    as (f & Hf & Hfirst & _ & _ & Hlines).
  exists f. split; [exact Hf|].
  pose proof (Hfirst _ bbq_bash_first_span) as Hn.
  split; [exact Hn|].
  rewrite Hlines, Hn. reflexivity.
Defined.

(** A record with a name and [null] as [html_content] gives no line:
    the first [re.search] raises [TypeError] and the record is skipped,
    although its name is not empty. *)
Lemma null_html_record_dropped :
  parse_event null_html_record
  = Raise (TypeError (s "expected string or bytes-like object, got 'NoneType'"))
  /\ lines_of_event null_html_record = []
  /\ (forall w, fst (parse_events (VList [null_html_record]) w) = Ret []).
Proof.
  split; [reflexivity|]. split; [reflexivity|].
  intros w. now rewrite (@parse_events_returns (VList [null_html_record]) [null_html_record] w eq_refl).
Qed.

(** *** The location patterns *)

Lemma accepts_not_gt d : accepts not_gt d = true <-> d <> ">"%char.
Proof.
  unfold not_gt, accepts, existsb, item_accepts.
  rewrite orb_false_r, negb_true_iff, ascii_eqb_neq.
  split; intros H E; apply H; auto.
Qed.

Lemma all_not_gt u : all_accepted not_gt u <-> ~ In ">"%char u.
Proof.
  unfold all_accepted. rewrite Forall_forall. split.
  - intros H Hin. apply H in Hin. apply accepts_not_gt in Hin. now apply Hin.
  - intros H d Hin. apply accepts_not_gt. intros ->. now apply H.
Qed.

Lemma location_re_shape m c c' :
  matches location_re m c c'
  <-> exists t u,
      m = s "</a>" ++ t ++ s "<br" ++ u ++ s ">UNITED STATES"
      /\ t <> [] /\ tag_free t /\ ~ In ">"%char u
      /\ c' = (1%nat, t) :: c.
Proof.
  unfold location_re. split.
  - intros (m1 & r1 & c1 & -> & H1 & m2 & r2 & c2 & -> & H2
            & m3 & r3 & c3 & -> & H3 & m4 & r4 & c4 & -> & H4
            & m5 & r5 & c5 & -> & H5 & H6).
    apply matches_lit in H1. destruct H1 as [-> ->].
    apply matches_lit in H3. destruct H3 as [-> ->].
    apply matches_lit in H5. destruct H5 as [-> ->].
    destruct H6 as [-> ->].
    destruct H2 as (c6 & ((Hne & HF) & ->) & ->).
    destruct H4 as [HF4 ->].
    exists m2, m4. rewrite app_nil_r. repeat split; auto.
    + now apply all_not_lt.
    + now apply all_not_gt.
  - intros (t & u & -> & Hne & Hf & Hu & ->).
    exists (s "</a>"), (t ++ s "<br" ++ u ++ s ">UNITED STATES"), c.
    split; [reflexivity|]. split; [now apply matches_lit|].
    exists t, (s "<br" ++ u ++ s ">UNITED STATES"), ((1%nat, t) :: c).
    split; [reflexivity|]. split.
    { exists c. repeat split; auto. now apply all_not_lt. }
    exists (s "<br"), (u ++ s ">UNITED STATES"), ((1%nat, t) :: c).
    split; [reflexivity|]. split; [now apply matches_lit|].
    exists u, (s ">UNITED STATES"), ((1%nat, t) :: c).
    split; [reflexivity|]. split.
    { split; [|reflexivity]. now apply all_not_gt. }
    exists (s ">UNITED STATES"), [], ((1%nat, t) :: c). rewrite app_nil_r.
    split; [reflexivity|]. split; [now apply matches_lit|]. split; reflexivity.
Qed.

Lemma location_re_occurs x pre c :
  occurs location_re x pre c <-> exists t, location_at x pre t /\ c = [(1%nat, t)].
Proof.
  unfold occurs, location_at. split.
  - intros (m & post & -> & Hm). apply location_re_shape in Hm.
    destruct Hm as (t & u & -> & Hne & Hf & Hu & ->). exists t. split; [|reflexivity].
    exists u, post. rewrite <- !app_assoc. auto.
  - intros (t & (u & post & -> & Hne & Hf & Hu) & ->).
    exists (s "</a>" ++ t ++ s "<br" ++ u ++ s ">UNITED STATES"), post.
    rewrite <- !app_assoc. split; [reflexivity|].
    apply location_re_shape. eauto 8.
Qed.

Lemma location_re_determined : group_determined location_re 1.
Proof.
  intros m1 post1 c1 m2 post2 c2 E H1 H2.
  apply location_re_shape in H1. destruct H1 as (t1 & u1 & -> & _ & Hf1 & _ & ->).
  apply location_re_shape in H2. destruct H2 as (t2 & u2 & -> & _ & Hf2 & _ & ->).
  rewrite <- !app_assoc in E. apply app_inv_head in E.
  change (s "<br") with ("<"%char :: s "br") in E. simpl in E.
  destruct (@until_char_unique _ _ _ _ _ E Hf1 Hf2) as [-> _]. reflexivity.
Qed.

Lemma search_location_first x t :
  first_location x t ->
  exists c, search location_re x = Some c /\ group_text c 1 = t.
Proof.
  intros (pre & Hs & Hfirst).
  destruct (@search_leftmost location_re 1 x pre [(1%nat, t)] location_re_determined)
    as (c0 & Hc0 & Hg).
  - apply location_re_occurs. eauto.
  - intros pre' c' Hocc. apply location_re_occurs in Hocc.
    destruct Hocc as (t' & Hs' & _). eauto.
  - exists c0. split; [assumption|]. unfold group_text. now rewrite Hg.
Qed.

Lemma search_location_none x : no_location x -> search location_re x = None.
Proof.
  intros Hn. apply search_none. intros pre c Hocc.
  apply location_re_occurs in Hocc. destruct Hocc as (t & Hs & _). now apply (Hn pre t).
Qed.

Lemma accepts_city_set d : accepts city_set d = city_char d.
Proof.
  unfold city_set, city_char, accepts, existsb, item_accepts,
    isupper_az, islower_az.
  change (code "A") with 65. change (code "Z") with 90.
  change (code "a") with 97. change (code "z") with 122.
  now rewrite orb_false_r, !orb_assoc.
Qed.

Lemma accepts_upper_set d : accepts upper_set d = isupper_az d.
Proof.
  unfold upper_set, accepts, existsb, item_accepts, isupper_az.
  change (code "A") with 65. change (code "Z") with 90.
  now rewrite orb_false_r.
Qed.

Lemma accepts_space d : accepts space d = isspace d.
Proof. unfold space, accepts, existsb, item_accepts. now rewrite orb_false_r. Qed.

Lemma accepts_digit d : accepts digit d = isdigit d.
Proof. unfold digit, accepts, existsb, item_accepts. now rewrite orb_false_r. Qed.

Lemma all_accepted_ext a p m :
  (forall d, accepts a d = p d) ->
  all_accepted a m <-> Forall (fun d => p d = true) m.
Proof.
  intros H. unfold all_accepted. rewrite !Forall_forall.
  split; intros HF d Hin; specialize (HF d Hin); now rewrite H in *.
Qed.

Lemma location_alt_re_shape m c c' :
  matches location_alt_re m c c'
  <-> exists t, m = s "</a>" ++ t ++ s "<br" /\ city_state_zip t
                /\ c' = (1%nat, t) :: c.
Proof.
  unfold location_alt_re. fold city_set upper_set. split.
  - intros (m1 & r1 & c1 & -> & H1 & m2 & r2 & c2 & -> & H2
            & m3 & r3 & c3 & -> & H3 & H4).
    apply matches_lit in H1. destruct H1 as [-> ->].
    apply matches_lit in H3. destruct H3 as [-> ->].
    destruct H4 as [-> ->].
    destruct H2 as (c4 & H2 & ->).
    destruct H2 as (w & q1 & d1 & -> & ((Hne & Hw) & ->)
                    & ab & q2 & d2 & -> & ((Hl & Hab) & ->)
                    & sp & q3 & d3 & -> & (Hsp & ->)
                    & dg & q4 & d4 & -> & (Hdg & ->) & -> & ->).
    rewrite !app_nil_r.
    exists (w ++ ab ++ sp ++ dg).
    split; [reflexivity|]. split; [|reflexivity].
    destruct ab as [|a [|b [|]]]; try discriminate Hl.
    inversion Hab as [|? ? Ha Hab']; subst. inversion Hab' as [|? ? Hb _]; subst.
    rewrite accepts_upper_set in Ha, Hb.
    exists w, a, b, sp, dg. repeat split; auto.
    + now apply (@all_accepted_ext _ _ _ accepts_city_set).
    + now apply (@all_accepted_ext _ _ _ accepts_space).
    + now apply (@all_accepted_ext _ _ _ accepts_digit).
  - intros (t & -> & (w & a & b & sp & dg & -> & Hne & Hw & Ha & Hb & Hsp & Hdg) & ->).
    exists (s "</a>"), ((w ++ [a; b] ++ sp ++ dg) ++ s "<br"), c.
    split; [reflexivity|]. split; [now apply matches_lit|].
    exists (w ++ [a; b] ++ sp ++ dg), (s "<br"),
      ((1%nat, w ++ [a; b] ++ sp ++ dg) :: c).
    split; [reflexivity|]. split.
    { exists c. split; [|reflexivity].
      exists w, ([a; b] ++ sp ++ dg), c. split; [reflexivity|]. split.
      { repeat split; auto. now apply (@all_accepted_ext _ _ _ accepts_city_set). }
      exists [a; b], (sp ++ dg), c. split; [reflexivity|]. split.
      { repeat split. constructor; [now rewrite accepts_upper_set|].
        constructor; [now rewrite accepts_upper_set|constructor]. }
      exists sp, dg, c. split; [reflexivity|]. split.
      { split; [|reflexivity]. now apply (@all_accepted_ext _ _ _ accepts_space). }
      exists dg, [], c. rewrite app_nil_r. split; [reflexivity|]. split.
      { split; [|reflexivity]. now apply (@all_accepted_ext _ _ _ accepts_digit). }
      split; reflexivity. }
    exists (s "<br"), [], ((1%nat, w ++ [a; b] ++ sp ++ dg) :: c).
    rewrite app_nil_r. split; [reflexivity|]. split; [now apply matches_lit|].
    split; reflexivity.
Qed.

Lemma city_state_zip_tag_free t : city_state_zip t -> tag_free t.
Proof.
  intros (w & a & b & sp & dg & -> & _ & Hw & Ha & Hb & Hsp & Hdg) Hin.
  rewrite Forall_forall in Hw, Hsp, Hdg.
  rewrite !in_app_iff in Hin. simpl in Hin.
  destruct Hin as [Hin|[[E|[E|[]]]|[Hin|Hin]]]; try (subst; discriminate).
  - now apply Hw in Hin.
  - now apply Hsp in Hin.
  - now apply Hdg in Hin.
Qed.

Lemma location_alt_re_occurs x pre c :
  occurs location_alt_re x pre c
  <-> exists t, loose_location_at x pre t /\ c = [(1%nat, t)].
Proof.
  unfold occurs, loose_location_at. split.
  - intros (m & post & -> & Hm). apply location_alt_re_shape in Hm.
    destruct Hm as (t & -> & Hc & ->). exists t. split; [|reflexivity].
    exists post. rewrite <- !app_assoc. auto.
  - intros (t & (post & -> & Hc) & ->).
    exists (s "</a>" ++ t ++ s "<br"), post.
    rewrite <- !app_assoc. split; [reflexivity|].
    apply location_alt_re_shape. eauto.
Qed.

Lemma location_alt_re_determined : group_determined location_alt_re 1.
Proof.
  intros m1 post1 c1 m2 post2 c2 E H1 H2.
  apply location_alt_re_shape in H1. destruct H1 as (t1 & -> & Hc1 & ->).
  apply location_alt_re_shape in H2. destruct H2 as (t2 & -> & Hc2 & ->).
  apply city_state_zip_tag_free in Hc1, Hc2.
  rewrite <- !app_assoc in E. apply app_inv_head in E.
  change (s "<br") with ("<"%char :: s "br") in E. simpl in E.
  destruct (@until_char_unique _ _ _ _ _ E Hc1 Hc2) as [-> _]. reflexivity.
Qed.

Lemma search_location_alt_first x t :
  first_loose_location x t ->
  exists c, search location_alt_re x = Some c /\ group_text c 1 = t.
Proof.
  intros (pre & Hs & Hfirst).
  destruct (@search_leftmost location_alt_re 1 x pre [(1%nat, t)]
              location_alt_re_determined) as (c0 & Hc0 & Hg).
  - apply location_alt_re_occurs. eauto.
  - intros pre' c' Hocc. apply location_alt_re_occurs in Hocc.
    destruct Hocc as (t' & Hs' & _). eauto.
  - exists c0. split; [assumption|]. unfold group_text. now rewrite Hg.
Qed.

Lemma search_location_alt_none x :
  no_loose_location x -> search location_alt_re x = None.
Proof.
  intros Hn. apply search_none. intros pre c Hocc.
  apply location_alt_re_occurs in Hocc. destruct Hocc as (t & Hs & _).
  now apply (Hn pre t).
Qed.

Lemma startswith_app p rest : startswith (p ++ rest) p = true.
Proof.
  induction p as [|d p IH]; simpl; [now destruct rest|].
  rewrite IH. assert (E : ascii_eqb d d = true) by now apply ascii_eqb_eq.
  now rewrite E.
Qed.

Lemma contains_unfold x p :
  contains x p
  = startswith x p || match x with [] => false | _ :: x' => contains x' p end.
Proof. now destruct x. Qed.

Lemma contains_occurrence pre p post : contains (pre ++ p ++ post) p = true.
Proof.
  induction pre as [|d pre IH]; rewrite contains_unfold.
  - change ([] ++ p ++ post) with (p ++ post). now rewrite startswith_app.
  - change ((d :: pre) ++ p ++ post) with (d :: pre ++ p ++ post).
    cbv beta iota. rewrite IH. apply orb_true_r.
Qed.

(** C6, as the code has it: for a record whose [properties] is a mapping
    with a text as [html_content], the location is the stripped text of
    the leftmost occurrence of a close tag [</a>], a non-empty tag-free
    text and the marker [<br ...>UNITED STATES]; without such an
    occurrence, the stripped text of the leftmost occurrence of the
    looser shape between [</a>] and [<br]; and empty when neither
    occurs. *)
Theorem location_precedence (event props : list (str * value)) (h : str) :
  dict_lookup event (s "properties") = Some (VDict props) ->
  dict_get props (s "html_content") (VStr []) = VStr h ->
  exists f,
    extract event = Ret f
    /\ (forall t, first_location h t -> location f = strip t)
    /\ (no_location h ->
        forall t, first_loose_location h t -> location f = strip t)
    /\ (no_location h -> no_loose_location h -> location f = []).
Proof.
  intros Hp Hh. destruct (extract_text _ Hp Hh) as (f & Hf & _ & Hloc & _).
  exists f. split; [assumption|]. split; [|split].
  - intros t Hfirst. destruct (search_location_first Hfirst) as (c & Hc & Hg).
    now rewrite Hloc, Hc, Hg.
  - intros Hnone t Hfirst.
    destruct (search_location_alt_first Hfirst) as (c & Hc & Hg).
    now rewrite Hloc, (search_location_none Hnone), Hc, Hg.
  - intros Hnone Hnone'.
    now rewrite Hloc, (search_location_none Hnone),
      (search_location_alt_none Hnone').
Qed.

Lemma henrico_first_location : first_location henrico_html (s "Henrico, VA 23228").
Proof.
  exists []. split.
  - exists (s " /"), []. split; [reflexivity|]. split; [discriminate|].
    split; [unfold tag_free|]; vm_compute; intuition discriminate.
  - intros pre' t' _. simpl. lia.
Qed.

Lemma location_precedence_witness :
  exists f,
    extract henrico_record = Ret f /\ location f = s "Henrico, VA 23228".
Proof.
  destruct (@location_precedence henrico_record
              [(s "html_content", VStr henrico_html)] henrico_html
              eq_refl eq_refl) as (f & Hf & Hfirst & _).
  exists f. split; [exact Hf|].
  exact (Hfirst _ henrico_first_location).
Defined.

(** With two markers, and white space around the first text, the code
    gives the first text, stripped: neither the text after the last
    [</a>], nor any text that stands between a [</a>] and a marker. *)
Lemma location_first_and_stripped :
  (exists f, extract two_locations_record = Ret f /\ location f = s "A")
  /\ text_after_last_close_tag two_locations_html (s "B")
  /\ ~ text_before_marker two_locations_html (s "A").
Proof.
  split; [|split].
  - eexists. split; vm_compute; reflexivity.
  - exists (s "</a> A <br>UNITED STATES"), [], [].
    split; [reflexivity|]. split; [intros []|reflexivity].
  - intros (pre & u & post & E & _ & _).
    assert (H : contains two_locations_html (s "</a>" ++ s "A" ++ s "<br") = true).
    { rewrite E.
      replace (pre ++ s "</a>" ++ s "A" ++ s "<br" ++ u ++ s ">UNITED STATES" ++ post)
        with (pre ++ (s "</a>" ++ s "A" ++ s "<br") ++ (u ++ s ">UNITED STATES" ++ post))
        by (now rewrite <- !app_assoc).
      apply contains_occurrence. }
    vm_compute in H. discriminate.
Qed.

(** *** The URL patterns *)

Lemma accepts_quote d : accepts quote d = true <-> is_quote d.
Proof.
  unfold quote, accepts, existsb, item_accepts, is_quote.
  rewrite orb_false_r, orb_true_iff, !ascii_eqb_eq.
  split; intros [H|H]; auto.
Qed.

Lemma accepts_quote2 d :
  accepts (ASet [IChar squote; IChar dquote]) d = true <-> is_quote d.
Proof.
  unfold accepts, existsb, item_accepts, is_quote.
  rewrite orb_false_r, orb_true_iff, !ascii_eqb_eq.
  split; intros [H|H]; auto.
Qed.

Lemma all_digit ds : all_accepted digit ds <-> Forall (fun d => isdigit d = true) ds.
Proof. apply all_accepted_ext, accepts_digit. Qed.

Lemma all_not_quote g : all_accepted not_quote g <-> quote_free g.
Proof.
  unfold all_accepted, quote_free, not_quote, accepts, existsb, item_accepts.
  rewrite !Forall_forall. split; intros H d Hin; specialize (H d Hin).
  - rewrite orb_false_r, negb_true_iff, orb_false_iff, !ascii_eqb_neq in H.
    destruct H. split; auto.
  - rewrite orb_false_r, negb_true_iff, orb_false_iff, !ascii_eqb_neq.
    destruct H. split; auto.
Qed.

(** Two runs of [p]-characters that start at the same place and are
    each followed by a character outside [p] are the same run. *)
Lemma run_unique (p : ascii -> Prop) (t1 t2 : str) (d1 d2 : ascii) (r1 r2 : str) :
  t1 ++ d1 :: r1 = t2 ++ d2 :: r2 ->
  Forall p t1 -> Forall p t2 -> ~ p d1 -> ~ p d2 ->
  t1 = t2.
Proof.
  revert t2. induction t1 as [|a t1 IH]; intros [|b t2] E H1 H2 N1 N2; simpl in *.
  - reflexivity.
  - injection E as -> _. inversion H2; subst. contradiction.
  - injection E as -> _. inversion H1; subst. contradiction.
  - injection E as -> E. inversion H1; inversion H2; subst.
    f_equal. eapply IH; eauto.
Qed.

Lemma onclick_shape (q : atom) m c c' :
  (forall d, accepts q d = true <-> is_quote d) ->
  matches (cat [lit "onclick="; RAtom q; lit "viewEvent(";
                RGroup 1 (RPlus digit); lit ")"; RAtom q]) m c c'
  <-> exists q1 q2 ds,
      m = s "onclick=" ++ [q1] ++ s "viewEvent(" ++ ds ++ s ")" ++ [q2]
      /\ is_quote q1 /\ is_quote q2 /\ digits ds
      /\ c' = (1%nat, ds) :: c.
Proof.
  intros Hq. split.
  - intros (m1 & r1 & c1 & -> & H1 & m2 & r2 & c2 & -> & H2
            & m3 & r3 & c3 & -> & H3 & m4 & r4 & c4 & -> & H4
            & m5 & r5 & c5 & -> & H5 & m6 & r6 & c6 & -> & H6 & H7).
    apply matches_lit in H1. destruct H1 as [-> ->].
    apply matches_lit in H3. destruct H3 as [-> ->].
    apply matches_lit in H5. destruct H5 as [-> ->].
    destruct H7 as [-> ->].
    destruct H2 as ((q1 & -> & Hq1) & ->).
    destruct H6 as ((q2 & -> & Hq2) & ->).
    destruct H4 as (c7 & ((Hne & HF) & ->) & ->).
    exists q1, q2, m4. rewrite !app_nil_r.
    apply Hq in Hq1, Hq2. apply all_digit in HF.
    repeat split; auto.
  - intros (q1 & q2 & ds & -> & Hq1 & Hq2 & (Hne & HF) & ->).
    apply Hq in Hq1, Hq2. apply all_digit in HF.
    exists (s "onclick="), ([q1] ++ s "viewEvent(" ++ ds ++ s ")" ++ [q2]), c.
    split; [reflexivity|]. split; [now apply matches_lit|].
    exists [q1], (s "viewEvent(" ++ ds ++ s ")" ++ [q2]), c.
    split; [reflexivity|]. split; [split; [eauto|reflexivity]|].
    exists (s "viewEvent("), (ds ++ s ")" ++ [q2]), c.
    split; [reflexivity|]. split; [now apply matches_lit|].
    exists ds, (s ")" ++ [q2]), ((1%nat, ds) :: c).
    split; [reflexivity|]. split; [exists c; repeat split; auto|].
    exists (s ")"), [q2], ((1%nat, ds) :: c).
    split; [reflexivity|]. split; [now apply matches_lit|].
    exists [q2], [], ((1%nat, ds) :: c).
    split; [reflexivity|]. split; [split; [eauto|reflexivity]|].
    split; reflexivity.
Qed.

Lemma onclick_re_occurs x pre c :
  occurs onclick_re x pre c <-> exists ds, onclick_at x pre ds /\ c = [(1%nat, ds)].
Proof.
  unfold occurs, onclick_at, onclick_re. split.
  - intros (m & post & -> & Hm). apply (@onclick_shape _ _ _ _ accepts_quote) in Hm.
    destruct Hm as (q1 & q2 & ds & -> & Hq1 & Hq2 & Hd & ->).
    exists ds. split; [|reflexivity].
    exists q1, q2, post. rewrite <- !app_assoc. auto.
  - intros (ds & (q1 & q2 & post & -> & Hq1 & Hq2 & Hd) & ->).
    exists (s "onclick=" ++ [q1] ++ s "viewEvent(" ++ ds ++ s ")" ++ [q2]), post.
    rewrite <- !app_assoc. split; [reflexivity|].
    apply (@onclick_shape _ _ _ _ accepts_quote). eauto 10.
Qed.

(** The second attempt matches what the first one matches. *)
Lemma onclick_re2_occurs x pre c :
  occurs onclick_re2 x pre c <-> occurs onclick_re x pre c.
Proof.
  unfold occurs, onclick_re, onclick_re2.
  split; intros (m & post & E & Hm); exists m, post; (split; [exact E|]).
  - apply (@onclick_shape _ _ _ _ accepts_quote).
    now apply (@onclick_shape _ _ _ _ accepts_quote2) in Hm.
  - apply (@onclick_shape _ _ _ _ accepts_quote2).
    now apply (@onclick_shape _ _ _ _ accepts_quote) in Hm.
Qed.

Lemma search_onclick_re2_none x :
  search onclick_re x = None -> search onclick_re2 x = None.
Proof.
  rewrite !search_none. intros H pre c Hocc.
  apply onclick_re2_occurs in Hocc. now apply (H pre c).
Qed.

Lemma isdigit_close_paren : isdigit ")"%char = false.
Proof. reflexivity. Qed.

Lemma digits_then_paren_unique ds1 ds2 r1 r2 :
  ds1 ++ s ")" ++ r1 = ds2 ++ s ")" ++ r2 -> digits ds1 -> digits ds2 -> ds1 = ds2.
Proof.
  intros E [_ H1] [_ H2].
  change (s ")" ++ r1) with (")"%char :: r1) in E.
  change (s ")" ++ r2) with (")"%char :: r2) in E.
  apply (@run_unique (fun d => isdigit d = true) _ _ _ _ _ _ E H1 H2);
    rewrite isdigit_close_paren; discriminate.
Qed.

Lemma onclick_re_determined : group_determined onclick_re 1.
Proof.
  intros m1 post1 c1 m2 post2 c2 E H1 H2. unfold onclick_re in *.
  apply (@onclick_shape _ _ _ _ accepts_quote) in H1.
  destruct H1 as (q1 & q2 & ds & -> & _ & _ & Hd & ->).
  apply (@onclick_shape _ _ _ _ accepts_quote) in H2.
  destruct H2 as (q1' & q2' & ds' & -> & _ & _ & Hd' & ->).
  rewrite <- !app_assoc in E. apply app_inv_head in E.
  simpl in E. injection E as _ E.
  now rewrite (@digits_then_paren_unique _ _ _ _ E Hd Hd').
Qed.

Lemma view_event_re_shape m c c' :
  matches view_event_re m c c'
  <-> exists ds, m = s "viewEvent(" ++ ds ++ s ")" /\ digits ds
                 /\ c' = (1%nat, ds) :: c.
Proof.
  unfold view_event_re. split.
  - intros (m1 & r1 & c1 & -> & H1 & m2 & r2 & c2 & -> & H2
            & m3 & r3 & c3 & -> & H3 & H4).
    apply matches_lit in H1. destruct H1 as [-> ->].
    apply matches_lit in H3. destruct H3 as [-> ->].
    destruct H4 as [-> ->].
    destruct H2 as (c4 & ((Hne & HF) & ->) & ->).
    exists m2. rewrite app_nil_r. apply all_digit in HF. repeat split; auto.
  - intros (ds & -> & (Hne & HF) & ->). apply all_digit in HF.
    exists (s "viewEvent("), (ds ++ s ")"), c.
    split; [reflexivity|]. split; [now apply matches_lit|].
    exists ds, (s ")"), ((1%nat, ds) :: c).
    split; [reflexivity|]. split; [exists c; repeat split; auto|].
    exists (s ")"), [], ((1%nat, ds) :: c). rewrite app_nil_r.
    split; [reflexivity|]. split; [now apply matches_lit|]. split; reflexivity.
Qed.

Lemma view_event_re_occurs x pre c :
  occurs view_event_re x pre c
  <-> exists ds, view_event_at x pre ds /\ c = [(1%nat, ds)].
Proof.
  unfold occurs, view_event_at. split.
  - intros (m & post & -> & Hm). apply view_event_re_shape in Hm.
    destruct Hm as (ds & -> & Hd & ->). exists ds. split; [|reflexivity].
    exists post. rewrite <- !app_assoc. auto.
  - intros (ds & (post & -> & Hd) & ->).
    exists (s "viewEvent(" ++ ds ++ s ")"), post.
    rewrite <- !app_assoc. split; [reflexivity|].
    apply view_event_re_shape. eauto.
Qed.

Lemma view_event_re_determined : group_determined view_event_re 1.
Proof.
  intros m1 post1 c1 m2 post2 c2 E H1 H2.
  apply view_event_re_shape in H1. destruct H1 as (ds & -> & Hd & ->).
  apply view_event_re_shape in H2. destruct H2 as (ds' & -> & Hd' & ->).
  rewrite <- !app_assoc in E. apply app_inv_head in E.
  now rewrite (@digits_then_paren_unique _ _ _ _ E Hd Hd').
Qed.

(** An [onclick] attribute holds a bare [viewEvent] call. *)
Lemma onclick_holds_view_event x pre ds :
  onclick_at x pre ds -> exists pre', view_event_at x pre' ds.
Proof.
  intros (q1 & q2 & post & -> & _ & _ & Hd).
  exists (pre ++ s "onclick=" ++ [q1]), ([q2] ++ post).
  split; [|assumption]. now rewrite <- !app_assoc.
Qed.

Lemma digits_quote_free ds : digits ds -> quote_free ds.
Proof.
  intros [_ H]. unfold quote_free. rewrite Forall_forall in *.
  intros d Hin. specialize (H d Hin). split; intros ->; discriminate.
Qed.

Lemma quote_free_app a b : quote_free a -> quote_free b -> quote_free (a ++ b).
Proof. unfold quote_free. intros. apply Forall_app. auto. Qed.

Lemma evr_target_quote_free g : evr_target g -> quote_free g.
Proof.
  intros (a & b & ds & e & -> & Ha & Hb & He & Hd).
  repeat apply quote_free_app; auto using digits_quote_free;
    unfold quote_free; repeat constructor; discriminate.
Qed.

Lemma href_re_shape m c c' :
  matches href_re m c c'
  <-> exists q1 q2 g a b ds e,
      m = s "href=" ++ [q1] ++ g ++ [q2]
      /\ is_quote q1 /\ is_quote q2
      /\ g = a ++ s "evr" ++ b ++ s "evid=" ++ ds ++ e
      /\ quote_free a /\ quote_free b /\ quote_free e /\ digits ds
      /\ c' = (1%nat, g) :: (2%nat, ds) :: c.
Proof.
  unfold href_re. split.
  - intros (m1 & r1 & c1 & -> & H1 & m2 & r2 & c2 & -> & H2
            & m3 & r3 & c3 & -> & H3 & m4 & r4 & c4 & -> & H4 & H5).
    apply matches_lit in H1. destruct H1 as [-> ->].
    destruct H5 as [-> ->].
    destruct H2 as ((q1 & -> & Hq1) & ->).
    destruct H4 as ((q2 & -> & Hq2) & ->).
    destruct H3 as (c5 & H3 & ->).
    destruct H3 as (a & t1 & d1 & -> & (Ha & ->)
                    & l1 & t2 & d2 & -> & Hl1
                    & b & t3 & d3 & -> & (Hb & ->)
                    & l2 & t4 & d4 & -> & Hl2
                    & ds & t5 & d5 & -> & Hds
                    & e & t6 & d6 & -> & (He & ->) & -> & ->).
    apply matches_lit in Hl1. destruct Hl1 as [-> ->].
    apply matches_lit in Hl2. destruct Hl2 as [-> ->].
    destruct Hds as (c6 & ((Hne & HF) & ->) & ->).
    apply accepts_quote in Hq1, Hq2.
    apply all_not_quote in Ha, Hb, He. apply all_digit in HF.
    exists q1, q2, (a ++ s "evr" ++ b ++ s "evid=" ++ ds ++ e), a, b, ds, e.
    rewrite !app_nil_r. repeat split; auto.
  - intros (q1 & q2 & g & a & b & ds & e & -> & Hq1 & Hq2 & -> & Ha & Hb & He
            & (Hne & HF) & ->).
    apply accepts_quote in Hq1, Hq2.
    apply all_not_quote in Ha, Hb, He. apply all_digit in HF.
    exists (s "href="), ([q1] ++ (a ++ s "evr" ++ b ++ s "evid=" ++ ds ++ e) ++ [q2]), c.
    split; [reflexivity|]. split; [now apply matches_lit|].
    exists [q1], ((a ++ s "evr" ++ b ++ s "evid=" ++ ds ++ e) ++ [q2]), c.
    split; [reflexivity|]. split; [split; [eauto|reflexivity]|].
    exists (a ++ s "evr" ++ b ++ s "evid=" ++ ds ++ e), [q2],
      ((1%nat, a ++ s "evr" ++ b ++ s "evid=" ++ ds ++ e) :: (2%nat, ds) :: c).
    split; [reflexivity|]. split.
    { exists ((2%nat, ds) :: c). split; [|reflexivity].
      exists a, (s "evr" ++ b ++ s "evid=" ++ ds ++ e), c.
      split; [reflexivity|]. split; [split; auto|].
      exists (s "evr"), (b ++ s "evid=" ++ ds ++ e), c.
      split; [reflexivity|]. split; [now apply matches_lit|].
      exists b, (s "evid=" ++ ds ++ e), c.
      split; [reflexivity|]. split; [split; auto|].
      exists (s "evid="), (ds ++ e), c.
      split; [reflexivity|]. split; [now apply matches_lit|].
      exists ds, e, ((2%nat, ds) :: c).
      split; [reflexivity|]. split; [exists c; repeat split; auto|].
      exists e, [], ((2%nat, ds) :: c). rewrite app_nil_r.
      split; [reflexivity|]. split; [split; auto|]. split; reflexivity. }
    exists [q2], [], ((1%nat, a ++ s "evr" ++ b ++ s "evid=" ++ ds ++ e)
                      :: (2%nat, ds) :: c).
    split; [reflexivity|]. split; [split; [eauto|reflexivity]|].
    split; reflexivity.
Qed.

Lemma href_re_occurs x pre c :
  occurs href_re x pre c -> exists g, href_at x pre g /\ group c 1 = Some g.
Proof.
  unfold occurs, href_at.
  intros (m & post & -> & Hm). apply href_re_shape in Hm.
  destruct Hm as (q1 & q2 & g & a & b & ds & e & -> & Hq1 & Hq2 & Hg
                  & Ha & Hb & He & Hd & ->).
  exists g. split; [|reflexivity].
  exists q1, q2, post. rewrite <- !app_assoc.
  repeat split; auto. exists a, b, ds, e. auto.
Qed.

Lemma href_at_occurs x pre g :
  href_at x pre g -> exists c, occurs href_re x pre c /\ group c 1 = Some g.
Proof.
  intros (q1 & q2 & post & -> & Hq1 & Hq2 & Hg).
  destruct Hg as (a & b & ds & e & Hg & Ha & Hb & He & Hd).
  exists [(1%nat, g); (2%nat, ds)]. split; [|reflexivity].
  exists (s "href=" ++ [q1] ++ g ++ [q2]), post.
  rewrite <- !app_assoc. split; [reflexivity|].
  apply href_re_shape. exists q1, q2, g, a, b, ds, e. auto 10.
Qed.

Lemma href_re_determined : group_determined href_re 1.
Proof.
  intros m1 post1 c1 m2 post2 c2 E H1 H2.
  apply href_re_shape in H1.
  destruct H1 as (q1 & q2 & g & a & b & ds & e & -> & _ & Hq2 & Hg
                  & Ha & Hb & He & Hd & ->).
  apply href_re_shape in H2.
  destruct H2 as (q1' & q2' & g' & a' & b' & ds' & e' & -> & _ & Hq2' & Hg'
                  & Ha' & Hb' & He' & Hd' & ->).
  assert (Hf : quote_free g) by (apply evr_target_quote_free; exists a, b, ds, e; auto).
  assert (Hf' : quote_free g')
    by (apply evr_target_quote_free; exists a', b', ds', e'; auto).
  clear Hg Hg'.
  rewrite <- !app_assoc in E. apply app_inv_head in E.
  simpl in E. injection E as _ E.
  assert (Eg : g = g').
  { apply (@run_unique (fun d => d <> dquote /\ d <> squote)
             g g' q2 q2' post1 post2 E Hf Hf').
    - intros [N1 N2]. destruct Hq2; contradiction.
    - intros [N1 N2]. destruct Hq2'; contradiction. }
  simpl. now rewrite Eg.
Qed.

(** What each URL pattern finds. *)
Lemma search_onclick_leftmost x ds :
  leftmost onclick_at x ds ->
  exists c, search onclick_re x = Some c /\ group_text c 1 = ds.
Proof.
  intros (pre & Hs & Hfirst).
  destruct (@search_leftmost onclick_re 1 x pre [(1%nat, ds)] onclick_re_determined)
    as (c0 & Hc0 & Hg).
  - apply onclick_re_occurs. eauto.
  - intros pre' c' Hocc. apply onclick_re_occurs in Hocc.
    destruct Hocc as (t' & Hs' & _). eauto.
  - exists c0. split; [assumption|]. unfold group_text. now rewrite Hg.
Qed.

Lemma search_onclick_nowhere x :
  nowhere onclick_at x -> search onclick_re x = None.
Proof.
  intros Hn. apply search_none. intros pre c Hocc.
  apply onclick_re_occurs in Hocc. destruct Hocc as (t & Hs & _). now apply (Hn pre t).
Qed.

Lemma search_view_event_leftmost x ds :
  leftmost view_event_at x ds ->
  exists c, search view_event_re x = Some c /\ group_text c 1 = ds.
Proof.
  intros (pre & Hs & Hfirst).
  destruct (@search_leftmost view_event_re 1 x pre [(1%nat, ds)]
              view_event_re_determined) as (c0 & Hc0 & Hg).
  - apply view_event_re_occurs. eauto.
  - intros pre' c' Hocc. apply view_event_re_occurs in Hocc.
    destruct Hocc as (t' & Hs' & _). eauto.
  - exists c0. split; [assumption|]. unfold group_text. now rewrite Hg.
Qed.

Lemma search_view_event_nowhere x :
  nowhere view_event_at x -> search view_event_re x = None.
Proof.
  intros Hn. apply search_none. intros pre c Hocc.
  apply view_event_re_occurs in Hocc. destruct Hocc as (t & Hs & _).
  now apply (Hn pre t).
Qed.

Lemma nowhere_view_event_onclick x :
  nowhere view_event_at x -> nowhere onclick_at x.
Proof.
  intros Hn pre ds Ho. destruct (onclick_holds_view_event Ho) as (pre' & Hv).
  now apply (Hn pre' ds).
Qed.

Lemma search_href_leftmost x g :
  leftmost href_at x g ->
  exists c, search href_re x = Some c /\ group_text c 1 = g.
Proof.
  intros (pre & Hs & Hfirst).
  destruct (href_at_occurs Hs) as (c & Hocc & Hgc).
  destruct (@search_leftmost href_re 1 x pre c href_re_determined Hocc)
    as (c0 & Hc0 & Hg).
  - intros pre' c' Hocc'. apply href_re_occurs in Hocc'.
    destruct Hocc' as (g' & Hs' & _). eauto.
  - exists c0. split; [assumption|]. unfold group_text. now rewrite Hg, Hgc.
Qed.

Lemma search_href_nowhere x : nowhere href_at x -> search href_re x = None.
Proof.
  intros Hn. apply search_none. intros pre c Hocc.
  apply href_re_occurs in Hocc. destruct Hocc as (g & Hs & _). now apply (Hn pre g).
Qed.

(** The identifier of the record is the first of the four fields that is
    true in a condition. *)
Lemma record_id_cases (event props : list (str * value)) :
  let id1 := dict_get event (s "id") VNone in
  let id2 := dict_get props (s "id") VNone in
  let id3 := dict_get props (s "evid") VNone in
  let id4 := dict_get props (s "event_id") VNone in
  (truthy id1 = true -> record_id event props = id1)
  /\ (truthy id1 = false -> truthy id2 = true -> record_id event props = id2)
  /\ (truthy id1 = false -> truthy id2 = false -> truthy id3 = true ->
      record_id event props = id3)
  /\ (truthy id1 = false -> truthy id2 = false -> truthy id3 = false ->
      record_id event props = id4).
Proof.
  unfold record_id, py_or. cbv zeta.
  repeat split; intros; repeat match goal with H : truthy _ = _ |- _ => rewrite H; clear H end;
    reflexivity.
Qed.

(** C5, as the code has it: for a record whose [properties] is a mapping
    with a text as [html_content], an identifier given by the record
    makes the URL, whatever the text holds; without one, the digits of
    the leftmost [onclick] attribute with [viewEvent], in either kind of
    quotes, else those of the leftmost bare [viewEvent] call, else the
    leftmost quoted [href] whose target holds [evr] and later [evid=]
    with digits, made absolute; and the URL is empty when none of them
    occurs. *)
Theorem event_url_precedence (event props : list (str * value)) (h : str) :
  dict_lookup event (s "properties") = Some (VDict props) ->
  dict_get props (s "html_content") (VStr []) = VStr h ->
  exists f,
    extract event = Ret f
    /\ (truthy (record_id event props) = true ->
        event_url f = URL_PREFIX ++ to_str (record_id event props))
    /\ (truthy (record_id event props) = false ->
        (forall ds, leftmost onclick_at h ds -> event_url f = URL_PREFIX ++ ds)
        /\ (nowhere onclick_at h ->
            forall ds, leftmost view_event_at h ds ->
                       event_url f = URL_PREFIX ++ ds)
        /\ (nowhere view_event_at h ->
            forall g, leftmost href_at h g -> event_url f = absolute_url g)
        /\ (nowhere view_event_at h -> nowhere href_at h -> event_url f = [])).
Proof.
  intros Hp Hh. destruct (extract_text _ Hp Hh) as (f & Hf & _ & _ & Hurl).
  exists f. split; [assumption|].
  rewrite url_of_text in Hurl. injection Hurl as Hurl.
  split.
  - intros Ht. now rewrite Ht in Hurl.
  - intros Ht. rewrite Ht in Hurl. split; [|split; [|split]].
    + intros ds Hl. destruct (search_onclick_leftmost Hl) as (c & Hc & Hg).
      now rewrite Hc, Hg in Hurl.
    + intros Hn ds Hl. destruct (search_view_event_leftmost Hl) as (c & Hc & Hg).
      pose proof (search_onclick_nowhere Hn) as H1.
      now rewrite H1, (search_onclick_re2_none _ H1), Hc, Hg in Hurl.
    + intros Hn g Hl. destruct (search_href_leftmost Hl) as (c & Hc & Hg).
      pose proof (search_onclick_nowhere (nowhere_view_event_onclick Hn)) as H1.
      now rewrite H1, (search_onclick_re2_none _ H1),
        (search_view_event_nowhere Hn), Hc, Hg in Hurl.
    + intros Hn Hn'.
      pose proof (search_onclick_nowhere (nowhere_view_event_onclick Hn)) as H1.
      now rewrite H1, (search_onclick_re2_none _ H1),
        (search_view_event_nowhere Hn), (search_href_nowhere Hn') in Hurl.
Qed.

Lemma event_url_precedence_witness :
  exists f,
    extract evid_record = Ret f
    /\ event_url f
       = s "https://mms.kcbs.us/members/evr/reg_event_kcba.php?orgcode=KCBA&evid=39161".
Proof.
  destruct (@event_url_precedence evid_record
              [(s "evid", VStr (s "39161"));
               (s "html_content",
                VStr (s "<a onclick='viewEvent(999)'>Details</a>"))]
              (s "<a onclick='viewEvent(999)'>Details</a>") eq_refl eq_refl)
    as (f & Hf & Hid & _).
  exists f. split; [exact Hf|]. exact (Hid eq_refl).
Defined.

(** A hyperlink whose target holds [evid=5] but not [evr] is not used:
    the record has no identifier and no [viewEvent] call, and its URL is
    empty. *)
Lemma href_without_evr_gives_no_url :
  (exists f, extract plain_href_record = Ret f /\ event_url f = [])
  /\ truthy (record_id plain_href_record
               [(s "html_content", VStr plain_href_html)]) = false
  /\ nowhere view_event_at plain_href_html
  /\ evid_href_at plain_href_html (s "<a ") (s "/reg.php?evid=5")
  /\ absolute_url (s "/reg.php?evid=5") = s "https://mms.kcbs.us/reg.php?evid=5".
Proof.
  split; [|split; [|split; [|split]]].
  - eexists. split; vm_compute; reflexivity.
  - reflexivity.
  - intros pre ds (post & E & _).
    assert (H : contains plain_href_html (s "viewEvent(") = true).
    { rewrite E.
      replace (pre ++ s "viewEvent(" ++ ds ++ s ")" ++ post)
        with (pre ++ s "viewEvent(" ++ (ds ++ s ")" ++ post)) by reflexivity.
      apply contains_occurrence. }
    vm_compute in H. discriminate.
  - exists dquote, (s ">Register</a>"), (s "/reg.php?"), (s "5"), [].
    split; [reflexivity|]. split; [now left|]. split.
    + unfold quote_free. vm_compute. repeat constructor; discriminate.
    + split; [reflexivity|]. split; [discriminate|].
      repeat constructor.
  - reflexivity.
Qed.

(** ** The example payloads are well-formed JSON values *)

Lemma example_payloads_wf :
  wf smokeout_payload /\ wf features_int_payload /\ wf null_html_record
  /\ wf (VDict bbq_bash_record) /\ wf (VDict henrico_record)
  /\ wf (VDict two_locations_record) /\ wf (VDict plain_href_record)
  /\ wf (VDict evid_record).
Proof.
  repeat split; simpl;
    repeat (constructor; simpl; try (intuition discriminate)).
Qed.

(* ================================================================== *)
(** * Further properties of the script *)
(* ================================================================== *)

(** ** The loop of [parse_events] *)



(** X2: a root that is no mapping never makes extraction raise: a list
    gives the lines of its records in order, any other root gives no
    line. *)
Theorem parse_events_non_mapping_root (root : value) (w : world) :
  (forall d, root <> VDict d) ->
  fst (parse_events root w)
  = Ret (match root with
         | VList l => flat_map lines_of_event l
         | _ => []
         end).
Proof.
  intros Hnd.
  destruct root as [| | | | |l|d].
  1-5: match goal with
       | |- context [parse_events ?r ?w0] =>
           rewrite (@parse_events_returns r [] w0 eq_refl)
       end;
       match goal with
       | |- context [if ?b then _ else _] => destruct b
       end; reflexivity.
  - rewrite (@parse_events_returns (VList l) l w eq_refl). now destruct l.
  - now destruct (Hnd d).
Qed.

Lemma parse_events_non_mapping_root_witness :
  fst (parse_events (VStr (s "not a payload")) (sample_world None (Body [])))
  = Ret [].
Proof.
  apply (@parse_events_non_mapping_root (VStr (s "not a payload"))).
  intros d. discriminate.
Defined.

Lemma printed_nothing (w : world) : printed w [] [] = w.
Proof. destruct w. unfold printed. cbn. now rewrite !app_nil_r. Qed.

Lemma printed_more (w : world) (o1 o2 : list str) (e1 e2 : list exn) :
  printed (printed w o1 e1) o2 e2 = printed w (o1 ++ o2) (e1 ++ e2).
Proof. unfold printed. cbn. now rewrite !app_assoc. Qed.

Lemma print_printed (x : str) (w : world) :
  print x w = (Ret tt, printed w [x] []).
Proof. unfold print, printed. now rewrite app_nil_r. Qed.

Lemma print_exc_printed (e : exn) (w : world) :
  print_exc e w = (Ret tt, printed w [] [e]).
Proof. unfold print_exc, printed. now rewrite app_nil_r. Qed.

(** What the loop prints is fixed by the records: it is the same in
    every world and for every list collected so far. *)
Lemma parse_loop_prints (events : list value) :
  exists (out : list str) (err : list exn),
    forall (acc : list str) (w : world),
      parse_loop events acc w
      = (Ret (acc ++ flat_map lines_of_event events), printed w out err).
Proof.
  induction events as [|event events (out & err & IH)].
  - exists [], []. intros acc w. cbn [parse_loop flat_map].
    now rewrite app_nil_r, printed_nothing.
  - pose proof (@parse_event_never_exits event) as Hx.
    cbn [parse_loop flat_map]. unfold lines_of_event at 1.
    destruct (parse_event event) as [[f|]|e].
    + exists ((s "  - " ++ format_fields (s " | ") f) :: out), err.
      intros acc w. unfold bind. rewrite print_printed, IH, printed_more.
      now rewrite <- app_assoc.
    + exists out, err. intros acc w. apply IH.
    + destruct (is_Exception e) eqn:He.
      * exists ((s "Error parsing event: " ++ exn_text e) :: out), (e :: err).
        intros acc w. unfold bind.
        rewrite print_printed, print_exc_printed, IH, !printed_more.
        reflexivity.
      * destruct e; try discriminate He. exfalso. now apply (Hx status).
Qed.

(** X3: extraction reads nothing of the world and writes to the two
    streams only.  For every payload there are a result, lines and
    tracebacks such that in every world extraction gives that result,
    adds those lines to what was printed and those tracebacks to the
    error stream, and leaves the clock, the network and the output file
    as they were. *)
Theorem parse_events_only_prints (events_data : value) :
  exists (result : outcome (list str)) (out : list str) (err : list exn),
    forall w : world,
      parse_events events_data w = (result, printed w out err).
Proof.
  unfold parse_events.
  destruct (truthy events_data); cbn [negb].
  - destruct (py_len (select_events events_data)) as [n|e] eqn:Hn.
    + destruct (py_iter (select_events events_data)) as [items|e] eqn:Hi.
      * destruct (parse_loop_prints items) as (out & err & Hl).
        exists (Ret ([] ++ flat_map lines_of_event items)),
          ((s "Found " ++ str_of_int n ++ s " events") :: out), err.
        intros w. unfold bind, lift. rewrite print_printed, Hl, printed_more.
        reflexivity.
      * destruct (select_events events_data); discriminate.
    + exists (Raise e), [], []. intros w. unfold bind, lift.
      now rewrite printed_nothing.
  - exists (Ret []), [s "No events data received"], [].
    intros w. unfold bind, ret. now rewrite print_printed.
Qed.

Lemma parse_event_lacks_properties event :
  lacks_properties event -> parse_event event = Ret None.
Proof.
  destruct event as [| | | | | |ev]; simpl; try reflexivity.
  now intros ->.
Qed.

Lemma parse_loop_lacks_properties (events : list value) :
  Forall lacks_properties events ->
  forall acc w, parse_loop events acc w = (Ret acc, w).
Proof.
  induction 1 as [|event events Hev _ IH]; intros acc w; simpl.
  - reflexivity.
  - rewrite (parse_event_lacks_properties _ Hev). apply IH.
Qed.

(** X4: records that are no mapping, or have no [properties], are
    skipped in silence: no line, no error message, no traceback; only
    the count of records is printed. *)
Theorem records_without_properties_are_silent
        (event : value) (events : list value) (w : world) :
  Forall lacks_properties (event :: events) ->
  fst (parse_events (VList (event :: events)) w) = Ret []
  /\ stderr (snd (parse_events (VList (event :: events)) w)) = stderr w
  /\ stdout (snd (parse_events (VList (event :: events)) w))
     = stdout w
       ++ [s "Found " ++ str_of_int (Z.of_nat (List.length (event :: events)))
           ++ s " events"].
Proof.
  intros Hall. unfold parse_events. cbn [truthy negb select_events].
  unfold bind, lift. cbn [py_len py_iter fst snd].
  unfold print. cbn [fst snd].
  rewrite !(parse_loop_lacks_properties Hall). auto.
Qed.

Lemma records_without_properties_are_silent_witness :
  fst (parse_events (VList [VInt 1; VStr (s "x"); VDict [(s "id", VInt 7)]])
         (sample_world None (Body []))) = Ret []
  /\ stderr (snd (parse_events
                    (VList [VInt 1; VStr (s "x"); VDict [(s "id", VInt 7)]])
                    (sample_world None (Body [])))) = []
  /\ stdout (snd (parse_events
                    (VList [VInt 1; VStr (s "x"); VDict [(s "id", VInt 7)]])
                    (sample_world None (Body []))))
     = [] ++ [s "Found " ++ str_of_int 3 ++ s " events"].
Proof.
  apply (@records_without_properties_are_silent (VInt 1)
           [VStr (s "x"); VDict [(s "id", VInt 7)]]
           (sample_world None (Body []))).
  repeat constructor.
Defined.

(** ** The fetch and the process *)

Lemma get_date_range_returns (w : world) :
  valid (clock w) -> year (clock w) <= 9998 ->
  exists end_date,
    add_days (clock w) 365 = Some end_date
    /\ get_date_range w
       = (Ret (strftime_mdY (clock w), strftime_mdY end_date), w).
Proof.
  intros Hv Hy. destruct (add_days_365 Hv Hy) as (t' & Hadd & _).
  exists t'. split; [exact Hadd|].
  unfold get_date_range, bind, now. simpl. now rewrite Hadd.
Qed.

(** Once the two dates are there, the fetch returns: the decoded value,
    or [None] when the transport fails or the text does not decode; it
    only prints. *)
Lemma search_events_by_radius_result
      (json_loads : str -> decoded) (b64encode : str -> str)
      (user pass zipcode radius : str) (w : world) (end_date : datetime) :
  add_days (clock w) 365 = Some end_date ->
  exists w',
    search_events_by_radius json_loads b64encode user pass zipcode radius w
    = (Ret (fetched json_loads
              (network w (build_request b64encode user pass zipcode radius
                            (strftime_mdY (clock w))
                            (strftime_mdY end_date)))), w')
    /\ clock w' = clock w /\ network w' = network w
    /\ stderr w' = stderr w /\ output_file w' = output_file w.
Proof.
  intros Hadd.
  unfold search_events_by_radius, bind at 1.
  unfold get_date_range, bind, now. cbn [fst snd]. rewrite Hadd.
  unfold ret, print, urlopen.
  cbn [fst snd network clock stdout stderr output_file].
  destruct (network w _) as [data|msg]; cbn [fetched].
  - unfold decode_response.
    destruct (json_loads (unwrap_jsonp data)); unfold bind, print, ret;
      eexists; split; try reflexivity; cbn; auto.
  - eexists. split; [reflexivity|]. cbn. auto.
Qed.











(** X5: with the clock in the range of [datetime] (year at most 9998)
    and a ZIP code and a radius of ASCII characters, the fetch never
    raises.  It gives what [json.loads] decodes from the answer to the
    request for the current date and the date 365 days later, after
    unwrapping, and [None] when the transport fails or the text does
    not decode; it prints no traceback and leaves the output file
    alone. *)
Theorem search_events_by_radius_never_raises
        (json_loads : str -> decoded) (b64encode : str -> str)
        (user pass zipcode radius : str) (w : world) :
  valid (clock w) -> year (clock w) <= 9998 ->
  ascii_text zipcode -> ascii_text radius ->
  exists end_date,
    add_days (clock w) 365 = Some end_date
    /\ fst (search_events_by_radius json_loads b64encode user pass
              zipcode radius w)
       = Ret (fetched json_loads
                (network w (build_request b64encode user pass zipcode radius
                              (strftime_mdY (clock w))
                              (strftime_mdY end_date))))
    /\ stderr (snd (search_events_by_radius json_loads b64encode user pass
                      zipcode radius w)) = stderr w
    /\ output_file (snd (search_events_by_radius json_loads b64encode user pass
                           zipcode radius w)) = output_file w.
Proof.
  intros Hv Hy _ _.
  destruct (add_days_365 Hv Hy) as (t' & Hadd & _).
  destruct (@search_events_by_radius_result json_loads b64encode user pass
              zipcode radius w t' Hadd) as (w' & E & _ & _ & H3 & H4).
  exists t'. rewrite E. auto.
Qed.

Lemma search_events_by_radius_never_raises_witness :
  exists end_date,
    add_days (clock (sample_world None (Failed (s "timed out")))) 365
    = Some end_date
    /\ fst (search_events_by_radius loads_never b64_stub [] [] (s "23228") RADIUS
              (sample_world None (Failed (s "timed out"))))
       = Ret (fetched loads_never
                (network (sample_world None (Failed (s "timed out")))
                   (build_request b64_stub [] [] (s "23228") RADIUS
                      (s "11/04/2026") (strftime_mdY end_date))))
    /\ stderr (snd (search_events_by_radius loads_never b64_stub [] []
                      (s "23228") RADIUS
                      (sample_world None (Failed (s "timed out"))))) = []
    /\ output_file (snd (search_events_by_radius loads_never b64_stub [] []
                           (s "23228") RADIUS
                           (sample_world None (Failed (s "timed out"))))) = None.
Proof.
  apply (@search_events_by_radius_never_raises loads_never b64_stub [] []
           (s "23228") RADIUS (sample_world None (Failed (s "timed out")))).
  - unfold valid; simpl. vm_compute. intuition discriminate.
  - simpl. lia.
  - repeat constructor.
  - repeat constructor.
Defined.

(** ** [main] and the process *)

Lemma join_nil (sep : str) : join sep [] = [].
Proof. reflexivity. Qed.

(** Neither the fetch nor the extraction touches the output file, or
    what opening it will do. *)
Lemma search_events_by_radius_keeps_file
      (json_loads : str -> decoded) (b64encode : str -> str)
      (user pass zipcode radius : str) (w : world) :
  let w' := snd (search_events_by_radius json_loads b64encode user pass
                   zipcode radius w) in
  output_file w' = output_file w /\ open_error w' = open_error w.
Proof.
  unfold search_events_by_radius, get_date_range, bind, now, raise, ret.
  cbn [fst snd].
  destruct (add_days (clock w) 365); [|cbn; auto].
  unfold print, urlopen. cbn [fst snd network].
  destruct (network w _) as [data|msg].
  - unfold decode_response.
    destruct (json_loads (unwrap_jsonp data)); unfold bind, print, ret;
      cbn; auto.
  - cbn. auto.
Qed.





(** The same happens when extraction is aborted: the run of the payload
    whose [features] is a number ends with status 1 and the output file
    untouched. *)
Lemma run_features_int_keeps_file :
  fst (run (loads_always features_int_payload) b64_stub zipcode_environ utf_8
         (sample_world (Some (s "stale")) (Body (s "{}")))) = 1
  /\ output_file (snd (run (loads_always features_int_payload) b64_stub
                         zipcode_environ utf_8
                         (sample_world (Some (s "stale")) (Body (s "{}")))))
     = Some (s "stale").
Proof. split; vm_compute; reflexivity. Qed.

(** A line the encoding of the file refuses: the name [Caf\'e] under an
    ASCII locale.  The line is extracted, [f.write] raises
    [UnicodeEncodeError], which nothing catches, and the file that held
    a previous result is left empty. *)
Lemma run_unencodable_line :
  fst (parse_events cafe_payload (sample_world None (Body [])))
  = Ret [s "Caf" ++ [chr 233] ++ s "|||||"]
  /\ fst (script (loads_always cafe_payload) b64_stub zipcode_environ us_ascii
            (sample_world (Some (s "stale")) (Body (s "{}"))))
     = Raise (UnicodeEncodeError
                (s "'ascii' codec can't encode character '\xe9' in position 3: ordinal not in range(128)"))
  /\ fst (run (loads_always cafe_payload) b64_stub zipcode_environ us_ascii
            (sample_world (Some (s "stale")) (Body (s "{}")))) = 1
  /\ output_file (snd (run (loads_always cafe_payload) b64_stub
                         zipcode_environ us_ascii
                         (sample_world (Some (s "stale")) (Body (s "{}")))))
     = Some [].
Proof. repeat split; vm_compute; reflexivity. Qed.

(** X6: when [ZIPCODE] is set to a text of ASCII characters, the clock
    is in the range of [datetime] (year at most 9998), the output file
    can be opened for writing and the fetch brings nothing (transport
    failure, text that does not decode, or a payload that is false in a
    condition), the process does not crash: it writes an empty output
    file, whatever the encoding of the file, and exits with status 1,
    without traceback. *)
Theorem run_no_data
        (json_loads : str -> decoded) (b64encode : str -> str)
        (getenv : str -> option str) (locale : codec)
        (w : world) (zipcode : str) :
  getenv (s "ZIPCODE") = Some zipcode ->
  zipcode <> [] -> ascii_text zipcode ->
  valid (clock w) -> year (clock w) <= 9998 ->
  open_error w = None ->
  (forall r, truthy (fetched json_loads (network w r)) = false) ->
  fst (run json_loads b64encode getenv locale w) = 1
  /\ output_file (snd (run json_loads b64encode getenv locale w)) = Some []
  /\ stderr (snd (run json_loads b64encode getenv locale w)) = stderr w.
Proof.
  intros Hz Hne _ Hv Hy Hopen Hno. unfold run, script. rewrite Hz.
  destruct zipcode as [|c z]; [congruence|].
  unfold main, bind. simpl.
  destruct (add_days_365 Hv Hy) as (t' & Hadd & _).
  match goal with
  | |- context [search_events_by_radius ?j ?b ?u ?p ?zz ?r ?w0] =>
      destruct (@search_events_by_radius_result j b u p zz r w0 t' Hadd)
        as (w' & E & Hc & Hn & He & Ho);
      pose proof (@search_events_by_radius_keeps_file j b u p zz r w0) as Hk
  end.
  cbn [clock network stdout stderr output_file] in E, Hc, Hn, He, Ho.
  rewrite !E in Hk. cbn [snd open_error] in Hk. destruct Hk as [_ Hk].
  rewrite !E.
  unfold parse_events. rewrite !Hno. cbn [negb].
  unfold bind, print, ret, write_output, raise. cbn.
  rewrite Hk, Hopen. cbn. rewrite He. auto.
Qed.

Lemma run_no_data_witness :
  fst (run loads_never b64_stub zipcode_environ us_ascii
         (sample_world (Some (s "stale")) (Body (s "<html>")))) = 1
  /\ output_file (snd (run loads_never b64_stub zipcode_environ us_ascii
                         (sample_world (Some (s "stale")) (Body (s "<html>")))))
     = Some []
  /\ stderr (snd (run loads_never b64_stub zipcode_environ us_ascii
                    (sample_world (Some (s "stale")) (Body (s "<html>")))))
     = [].
Proof.
  apply (@run_no_data loads_never b64_stub zipcode_environ us_ascii
           (sample_world (Some (s "stale")) (Body (s "<html>"))) (s "23228")).
  - reflexivity.
  - discriminate.
  - repeat constructor.
  - unfold valid; simpl. vm_compute. intuition discriminate.
  - simpl. lia.
  - reflexivity.
  - intros r. reflexivity.
Defined.

(** ** JSONP unwrapping, when it applies *)

Lemma find_from_found c x :
  forall i k, find_from c x i = k -> k <> -1 -> 0 <= i ->
              exists a b, x = a ++ c :: b /\ ~ In c a
                          /\ k = i + Z.of_nat (List.length a).
Proof.
  induction x as [|d x IH]; intros i k Hf Hk Hi; simpl in Hf.
  - congruence.
  - destruct (ascii_eqb c d) eqn:E.
    + apply ascii_eqb_eq in E. subst d. exists [], x. simpl.
      repeat split; auto. lia.
    + destruct (IH (i + 1) k Hf Hk ltac:(lia)) as (a & b & -> & Hn & ->).
      exists (d :: a), b. simpl. repeat split.
      * apply ascii_eqb_neq in E. intros [H|H]; [congruence|contradiction].
      * lia.
Qed.

Lemma slice_middle (a m c : str) :
  slice (a ++ m ++ c) (Z.of_nat (List.length a))
        (Z.of_nat (List.length a) + Z.of_nat (List.length m)) = m.
Proof.
  unfold slice.
  replace (Z.to_nat (Z.of_nat (List.length a) + Z.of_nat (List.length m)
                     - Z.of_nat (List.length a))) with (List.length m) by lia.
  rewrite Nat2Z.id.
  rewrite skipn_app, skipn_all, Nat.sub_diag. simpl.
  rewrite firstn_app, firstn_all, Nat.sub_diag. simpl. apply app_nil_r.
Qed.

(** X8: a response [banner_callback_...( {...} )...] is unwrapped to its
    JSON object: the text from the first opening brace to the last
    closing brace. *)
Theorem unwrap_jsonp_recovers_object (a b c : str) :
  ~ In "{"%char a -> ~ In "}"%char c ->
  unwrap_jsonp (s "banner_callback_" ++ a ++ "{"%char :: b ++ "}"%char :: c)
  = "{"%char :: b ++ ["}"%char].
Proof.
  intros Ha Hc. unfold unwrap_jsonp.
  rewrite startswith_app.
  set (pre := s "banner_callback_" ++ a).
  assert (Hpre : ~ In "{"%char pre).
  { unfold pre. rewrite in_app_iff. intros [H|H]; [|contradiction].
    vm_compute in H. intuition discriminate. }
  replace (s "banner_callback_" ++ a ++ "{"%char :: b ++ "}"%char :: c)
    with (pre ++ "{"%char :: (b ++ "}"%char :: c))
    by (unfold pre; now rewrite <- app_assoc).
  unfold find. rewrite find_from_first by assumption.
  assert (Hr : rfind (pre ++ "{"%char :: b ++ "}"%char :: c) "}"%char
               = Z.of_nat (List.length pre) + Z.of_nat (List.length ("{"%char :: b))).
  { unfold rfind.
    replace (pre ++ "{"%char :: b ++ "}"%char :: c)
      with ((pre ++ "{"%char :: b) ++ "}"%char :: c)
      by (now rewrite <- app_assoc).
    rewrite rfind_from_app. simpl rfind_from at 1.
    rewrite rfind_from_absent by assumption.
    rewrite length_app. simpl List.length. lia. }
  rewrite Hr.
  replace (negb (0 + Z.of_nat (List.length pre) =? -1)
           && (0 + Z.of_nat (List.length pre)
               <? Z.of_nat (List.length pre)
                  + Z.of_nat (List.length ("{"%char :: b)) + 1)) with true.
  2:{ symmetry. apply andb_true_iff. split.
      - apply negb_true_iff, Z.eqb_neq. lia.
      - apply Z.ltb_lt. lia. }
  replace (pre ++ "{"%char :: b ++ "}"%char :: c)
    with (pre ++ ("{"%char :: b ++ ["}"%char]) ++ c)
    by (simpl; now rewrite <- app_assoc).
  replace (Z.of_nat (List.length pre) + Z.of_nat (List.length ("{"%char :: b)) + 1)
    with (Z.of_nat (List.length pre)
          + Z.of_nat (List.length ("{"%char :: b ++ ["}"%char])))
    by (simpl List.length; rewrite length_app; simpl List.length; lia).
  replace (0 + Z.of_nat (List.length pre)) with (Z.of_nat (List.length pre)) by lia.
  apply slice_middle.
Qed.

Lemma unwrap_jsonp_recovers_object_witness :
  unwrap_jsonp (s "banner_callback_" ++ s "17(" ++ "{"%char
                  :: features_body ++ "}"%char :: s ");")
  = "{"%char :: features_body ++ ["}"%char].
Proof.
  apply (@unwrap_jsonp_recovers_object (s "17(") features_body (s ");"));
    vm_compute; intuition discriminate.
Defined.

Lemma unwrap_jsonp_cases (data : str) :
  unwrap_jsonp data = data \/ exists y, unwrap_jsonp data = "{"%char :: y.
Proof.
  unfold unwrap_jsonp.
  destruct (startswith data (s "banner_callback_")); [|now left].
  destruct (negb (find data "{"%char =? -1)
            && (find data "{"%char <? rfind data "}"%char + 1)) eqn:Hc;
    [|now left].
  right. apply andb_true_iff in Hc. destruct Hc as [H1 H2].
  apply negb_true_iff, Z.eqb_neq in H1. apply Z.ltb_lt in H2.
  destruct (@find_from_found "{"%char data 0 _ eq_refl H1 ltac:(lia))
    as (a & b & E & _ & Hk).
  fold (find data "{"%char) in Hk.
  unfold slice. rewrite Hk in *. clear Hk. subst data.
  replace (Z.to_nat (0 + Z.of_nat (List.length a))) with (List.length a) by lia.
  rewrite skipn_app, skipn_all, Nat.sub_diag. simpl skipn. simpl app.
  destruct (Z.to_nat (rfind (a ++ "{"%char :: b) "}"%char + 1
                      - (0 + Z.of_nat (List.length a)))) as [|n] eqn:En.
  - lia.
  - simpl. eauto.
Qed.

(** X9: unwrapping twice is unwrapping once: what the first pass gives
    begins with a brace, or is the text itself. *)
Theorem unwrap_jsonp_idempotent (data : str) :
  unwrap_jsonp (unwrap_jsonp data) = unwrap_jsonp data.
Proof.
  destruct (unwrap_jsonp_cases data) as [H|(y & H)]; rewrite H.
  - exact H.
  - reflexivity.
Qed.

(** ** The request *)

Lemma occurrences_app c x y :
  occurrences c (x ++ y) = (occurrences c x + occurrences c y)%nat.
Proof. unfold occurrences. now rewrite filter_app, length_app. Qed.

Lemma quote_plus_char_safe c :
  occurrences "&"%char (quote_plus_char c) = 0%nat
  /\ occurrences "="%char (quote_plus_char c) = 0%nat.
Proof.
  destruct c as [[] [] [] [] [] [] [] []]; vm_compute; auto.
Qed.

Lemma quote_plus_safe x :
  occurrences "&"%char (quote_plus x) = 0%nat
  /\ occurrences "="%char (quote_plus x) = 0%nat.
Proof.
  unfold quote_plus. induction x as [|c x [IH1 IH2]]; simpl.
  - auto.
  - rewrite !occurrences_app, IH1, IH2.
    destruct (quote_plus_char_safe c) as [-> ->]. auto.
Qed.

Lemma encoded_pair_separators k v :
  occurrences "&"%char (quote_plus k ++ s "=" ++ quote_plus v) = 0%nat
  /\ occurrences "="%char (quote_plus k ++ s "=" ++ quote_plus v) = 1%nat.
Proof.
  rewrite !occurrences_app.
  destruct (quote_plus_safe k) as [-> ->].
  destruct (quote_plus_safe v) as [-> ->]. auto.
Qed.

Lemma urlencode_separators (params : list (str * str)) :
  occurrences "="%char (urlencode params) = List.length params
  /\ occurrences "&"%char (urlencode params) = Nat.pred (List.length params).
Proof.
  unfold urlencode. induction params as [|[k v] params [IH1 IH2]].
  - auto.
  - destruct (encoded_pair_separators k v) as [Ha He].
    destruct params as [|kv params].
    + simpl. auto.
    + remember (quote_plus k ++ s "=" ++ quote_plus v) as item eqn:Ei.
      remember (join (s "&")
                  (map (fun kv0 : str * str =>
                          quote_plus (fst kv0) ++ s "=" ++ quote_plus (snd kv0))
                       (kv :: params))) as rest eqn:Er.
      assert (E : join (s "&")
                    (map (fun kv0 : str * str =>
                            quote_plus (fst kv0) ++ s "=" ++ quote_plus (snd kv0))
                         ((k, v) :: kv :: params))
                  = item ++ s "&" ++ rest)
        by (subst item rest; reflexivity).
      rewrite E, !occurrences_app, Ha, He, IH1, IH2. simpl. auto.
Qed.

(** X11: whatever the ZIP code, the radius and the dates hold, the query
    string has thirteen [=] and twelve [&]: the values are encoded, so
    none of them can add or cut a parameter. *)
Theorem query_string_parameters (zipcode radius begin_date end_date : str) :
  occurrences "="%char
    (urlencode (search_params zipcode radius begin_date end_date)) = 13%nat
  /\ occurrences "&"%char
       (urlencode (search_params zipcode radius begin_date end_date)) = 12%nat.
Proof.
  destruct (urlencode_separators
              (search_params zipcode radius begin_date end_date)) as [H1 H2].
  rewrite H1, H2. auto.
Qed.

Lemma lines_of_event_length event : (List.length (lines_of_event event) <= 1)%nat.
Proof.
  unfold lines_of_event. destruct (parse_event event) as [[f|]|e]; simpl; lia.
Qed.

Lemma flat_map_lines_length (l : list value) :
  (List.length (flat_map lines_of_event l) <= List.length l)%nat.
Proof.
  induction l as [|event l IH]; simpl; [lia|].
  rewrite length_app. pose proof (lines_of_event_length event). lia.
Qed.

(** X12: a list payload gives at most one line per record. *)
Theorem parse_events_at_most_one_line_per_record (l : list value) (w : world) :
  exists output_lines,
    fst (parse_events (VList l) w) = Ret output_lines
    /\ (List.length output_lines <= List.length l)%nat.
Proof.
  rewrite (@parse_events_returns (VList l) l w eq_refl).
  eexists. split; [reflexivity|].
  destruct (truthy (VList l)); [apply flat_map_lines_length|simpl; lia].
Qed.

(** ** The other fields of a record *)

(** All six fields of a record whose [html_content] is a text. *)
Lemma extract_fields (event props : list (str * value)) (h : str) :
  dict_lookup event (s "properties") = Some (VDict props) ->
  dict_get props (s "html_content") (VStr []) = VStr h ->
  exists f,
    extract event = Ret f
    /\ distance f = match search distance_re h with
                    | Some c => group_text c 1 ++ s " mi"
                    | None => []
                    end
    /\ dates f = match search date_re h with
                 | Some c => strip (group_text c 1)
                 | None => []
                 end
    /\ location f = match search location_re h with
                    | Some c => strip (group_text c 1)
                    | None =>
                        match search location_alt_re h with
                        | Some c => strip (group_text c 1)
                        | None => []
                        end
                    end
    /\ rep_name f = match search rep_re h with
                    | Some c => strip (group_text c 1)
                    | None => []
                    end
    /\ url_of (record_id event props) (VStr h) = Ret (event_url f).
Proof.
  intros Hp Hh.
  assert (Hg : dict_get event (s "properties") VNone = VDict props)
    by (unfold dict_get; now rewrite Hp).
  unfold extract. rewrite Hg.
  cbn [attr_get obind]. rewrite Hh. cbn [re_search obind].
  fold (record_id event props).
  rewrite url_of_text.
  destruct (search location_re h); cbn [obind];
    (eexists; split; [reflexivity|]);
    cbn [distance dates location rep_name event_url]; auto 6.
Qed.

Lemma isspace_not_digit d : isspace d = true -> isdigit d = false.
Proof. destruct d as [[] [] [] [] [] [] [] []]; vm_compute; congruence. Qed.

Lemma distance_re_shape m c c' :
  matches distance_re m c c'
  <-> exists sp1 ds sp2,
      m = s "DIST:" ++ sp1 ++ ds ++ sp2 ++ s "mi"
      /\ Forall (fun d => isspace d = true) sp1
      /\ Forall (fun d => isspace d = true) sp2
      /\ digits ds /\ c' = (1%nat, ds) :: c.
Proof.
  unfold distance_re. split.
  - intros (m1 & r1 & c1 & -> & H1 & m2 & r2 & c2 & -> & H2
            & m3 & r3 & c3 & -> & H3 & m4 & r4 & c4 & -> & H4
            & m5 & r5 & c5 & -> & H5 & H6).
    apply matches_lit in H1. destruct H1 as [-> ->].
    apply matches_lit in H5. destruct H5 as [-> ->].
    destruct H6 as [-> ->].
    destruct H2 as [Hs1 ->]. destruct H4 as [Hs2 ->].
    destruct H3 as (c6 & ((Hne & HF) & ->) & ->).
    exists m2, m3, m4. rewrite app_nil_r.
    apply (@all_accepted_ext _ _ _ accepts_space) in Hs1, Hs2.
    apply all_digit in HF. repeat split; auto.
  - intros (sp1 & ds & sp2 & -> & Hs1 & Hs2 & (Hne & HF) & ->).
    apply (@all_accepted_ext _ _ _ accepts_space) in Hs1, Hs2.
    apply all_digit in HF.
    exists (s "DIST:"), (sp1 ++ ds ++ sp2 ++ s "mi"), c.
    split; [reflexivity|]. split; [now apply matches_lit|].
    exists sp1, (ds ++ sp2 ++ s "mi"), c.
    split; [reflexivity|]. split; [split; auto|].
    exists ds, (sp2 ++ s "mi"), ((1%nat, ds) :: c).
    split; [reflexivity|]. split; [exists c; repeat split; auto|].
    exists sp2, (s "mi"), ((1%nat, ds) :: c).
    split; [reflexivity|]. split; [split; auto|].
    exists (s "mi"), [], ((1%nat, ds) :: c). rewrite app_nil_r.
    split; [reflexivity|]. split; [now apply matches_lit|]. split; reflexivity.
Qed.

Lemma distance_re_occurs x pre c :
  occurs distance_re x pre c
  <-> exists ds, distance_at x pre ds /\ c = [(1%nat, ds)].
Proof.
  unfold occurs, distance_at. split.
  - intros (m & post & -> & Hm). apply distance_re_shape in Hm.
    destruct Hm as (sp1 & ds & sp2 & -> & H1 & H2 & Hd & ->).
    exists ds. split; [|reflexivity].
    exists sp1, sp2, post. rewrite <- !app_assoc. auto.
  - intros (ds & (sp1 & sp2 & post & -> & H1 & H2 & Hd) & ->).
    exists (s "DIST:" ++ sp1 ++ ds ++ sp2 ++ s "mi"), post.
    rewrite <- !app_assoc. split; [reflexivity|].
    apply distance_re_shape. eauto 10.
Qed.

Lemma distance_re_determined : group_determined distance_re 1.
Proof.
  intros m1 post1 c1 m2 post2 c2 E H1 H2.
  apply distance_re_shape in H1.
  destruct H1 as (sp1 & ds & sp2 & -> & Hs1 & Hs2 & Hd & ->).
  apply distance_re_shape in H2.
  destruct H2 as (sp1' & ds' & sp2' & -> & Hs1' & Hs2' & Hd' & ->).
  rewrite <- !app_assoc in E. apply app_inv_head in E.
  destruct Hd as [Hne HF], Hd' as [Hne' HF'].
  destruct ds as [|d0 ds]; [contradiction|].
  destruct ds' as [|d0' ds']; [contradiction|].
  assert (Esp : sp1 = sp1').
  { apply (@run_unique (fun d => isspace d = true) sp1 sp1' d0 d0' _ _ E Hs1 Hs1').
    - inversion HF; subst. intros Hsp. apply isspace_not_digit in Hsp. congruence.
    - inversion HF'; subst. intros Hsp. apply isspace_not_digit in Hsp. congruence. }
  subst sp1'. apply app_inv_head in E.
  assert (Htail : forall sp post,
             Forall (fun d => isspace d = true) sp ->
             exists d r, sp ++ s "mi" ++ post = d :: r /\ isdigit d <> true).
  { intros sp post Hsp. destruct sp as [|d sp].
    - exists "m"%char, ("i"%char :: post). split; [reflexivity|discriminate].
    - exists d, (sp ++ s "mi" ++ post). split; [reflexivity|].
      inversion Hsp; subst. rewrite (isspace_not_digit _ H1). discriminate. }
  destruct (Htail sp2 post1 Hs2) as (e1 & r1 & E1 & N1).
  destruct (Htail sp2' post2 Hs2') as (e2 & r2 & E2 & N2).
  rewrite E1, E2 in E.
  change (d0 :: ds ++ e1 :: r1) with ((d0 :: ds) ++ e1 :: r1) in E.
  change (d0' :: ds' ++ e2 :: r2) with ((d0' :: ds') ++ e2 :: r2) in E.
  now rewrite (@run_unique (fun d => isdigit d = true) _ _ _ _ _ _ E HF HF' N1 N2).
Qed.

(** X13: for a record with a text as [html_content], the distance is the
    digits of the leftmost [DIST: <digits> mi] of the text followed by
    [ mi], and empty when the text holds no such place. *)
Theorem distance_field (event props : list (str * value)) (h : str) :
  dict_lookup event (s "properties") = Some (VDict props) ->
  dict_get props (s "html_content") (VStr []) = VStr h ->
  exists f,
    extract event = Ret f
    /\ (forall ds, leftmost distance_at h ds -> distance f = ds ++ s " mi")
    /\ (nowhere distance_at h -> distance f = []).
Proof.
  intros Hp Hh. destruct (extract_fields _ Hp Hh) as (f & Hf & Hd & _).
  exists f. split; [assumption|]. split.
  - intros ds (pre & Hs & Hfirst).
    destruct (@search_leftmost distance_re 1 h pre [(1%nat, ds)]
                distance_re_determined) as (c0 & Hc0 & Hg).
    + apply distance_re_occurs. eauto.
    + intros pre' c' Hocc. apply distance_re_occurs in Hocc.
      destruct Hocc as (t' & Hs' & _). eauto.
    + rewrite Hd, Hc0. unfold group_text. now rewrite Hg.
  - intros Hn. rewrite Hd.
    replace (search distance_re h) with (@None caps); [reflexivity|].
    symmetry. apply search_none. intros pre c Hocc.
    apply distance_re_occurs in Hocc. destruct Hocc as (t & Hs & _).
    now apply (Hn pre t).
Qed.

Lemma dist_record_leftmost :
  leftmost distance_at (s "DIST: 42 mi <i> 1/24/2026 - 1/25/2026 </i>") (s "42").
Proof.
  exists []. split.
  - exists (s " "), (s " "), (s " <i> 1/24/2026 - 1/25/2026 </i>").
    split; [reflexivity|]. repeat split; try discriminate; repeat constructor.
  - intros pre' t' _. simpl. lia.
Qed.

Lemma distance_field_witness :
  exists f, extract dist_record = Ret f /\ distance f = s "42 mi".
Proof.
  destruct (@distance_field dist_record
              [(s "name", VStr (s "Cookoff"));
               (s "html_content",
                VStr (s "DIST: 42 mi <i> 1/24/2026 - 1/25/2026 </i>"))]
              (s "DIST: 42 mi <i> 1/24/2026 - 1/25/2026 </i>") eq_refl eq_refl)
    as (f & Hf & Hfirst & _).
  exists f. split; [exact Hf|].
  exact (Hfirst _ dist_record_leftmost).
Defined.

Lemma date_re_shape m c c' :
  matches date_re m c c'
  <-> exists t, m = s "<i>" ++ t ++ s "</i>" /\ t <> [] /\ tag_free t
                /\ c' = (1%nat, t) :: c.
Proof.
  unfold date_re. split.
  - intros (m1 & m2 & c1 & -> & H1 & m3 & m4 & c2 & -> & H2 & m5 & m6 & c3 & -> & H3 & H4).
    apply matches_lit in H1. destruct H1 as [-> ->].
    apply matches_lit in H3. destruct H3 as [-> ->].
    destruct H4 as [-> ->].
    destruct H2 as (c4 & ((Hne & HF) & ->) & ->).
    exists m3. rewrite app_nil_r. repeat split; auto. now apply all_not_lt.
  - intros (t & -> & Hne & Hf & ->).
    exists (s "<i>"), (t ++ s "</i>"), c. split; [reflexivity|].
    split; [now apply matches_lit|].
    exists t, (s "</i>"), ((1%nat, t) :: c). split; [reflexivity|]. split.
    + exists c. repeat split; auto. now apply all_not_lt.
    + exists (s "</i>"), [], ((1%nat, t) :: c). rewrite app_nil_r.
      split; [reflexivity|]. split; [now apply matches_lit|]. split; reflexivity.
Qed.

Lemma date_re_occurs x pre c :
  occurs date_re x pre c <-> exists t, i_span_at x pre t /\ c = [(1%nat, t)].
Proof.
  unfold occurs, i_span_at. split.
  - intros (m & post & -> & Hm). apply date_re_shape in Hm.
    destruct Hm as (t & -> & Hne & Hf & ->). exists t. split; [|reflexivity].
    exists post. rewrite <- !app_assoc. auto.
  - intros (t & (post & -> & Hne & Hf) & ->).
    exists (s "<i>" ++ t ++ s "</i>"), post. rewrite <- !app_assoc.
    split; [reflexivity|]. apply date_re_shape. eauto.
Qed.

Lemma date_re_determined : group_determined date_re 1.
Proof.
  intros m1 post1 c1 m2 post2 c2 E H1 H2.
  apply date_re_shape in H1. destruct H1 as (t1 & -> & _ & Hf1 & ->).
  apply date_re_shape in H2. destruct H2 as (t2 & -> & _ & Hf2 & ->).
  rewrite <- !app_assoc in E. apply app_inv_head in E.
  change (s "</i>") with ("<"%char :: s "/i>") in E. simpl in E.
  destruct (@until_char_unique _ _ _ _ _ E Hf1 Hf2) as [-> _]. reflexivity.
Qed.

(** X14: for a record with a text as [html_content], the dates are the
    stripped text of the first [<i>] span with a non-empty tag-free
    text, and empty when the text holds no such span. *)
Theorem dates_field (event props : list (str * value)) (h : str) :
  dict_lookup event (s "properties") = Some (VDict props) ->
  dict_get props (s "html_content") (VStr []) = VStr h ->
  exists f,
    extract event = Ret f
    /\ (forall t, leftmost i_span_at h t -> dates f = strip t)
    /\ (nowhere i_span_at h -> dates f = []).
Proof.
  intros Hp Hh. destruct (extract_fields _ Hp Hh) as (f & Hf & _ & Hd & _).
  exists f. split; [assumption|]. split.
  - intros t (pre & Hs & Hfirst).
    destruct (@search_leftmost date_re 1 h pre [(1%nat, t)] date_re_determined)
      as (c0 & Hc0 & Hg).
    + apply date_re_occurs. eauto.
    + intros pre' c' Hocc. apply date_re_occurs in Hocc.
      destruct Hocc as (t' & Hs' & _). eauto.
    + rewrite Hd, Hc0. unfold group_text. now rewrite Hg.
  - intros Hn. rewrite Hd.
    replace (search date_re h) with (@None caps); [reflexivity|].
    symmetry. apply search_none. intros pre c Hocc.
    apply date_re_occurs in Hocc. destruct Hocc as (t & Hs & _).
    now apply (Hn pre t).
Qed.

Lemma dates_record_first_i_span :
  leftmost i_span_at (s "<i> 1/24/2026 - 1/25/2026 </i><br>")
    (s " 1/24/2026 - 1/25/2026 ").
Proof.
  exists []. split.
  - exists (s "<br>"). split; [reflexivity|]. split; [discriminate|].
    unfold tag_free. vm_compute. intuition discriminate.
  - intros pre' t' _. simpl. lia.
Qed.

Lemma dates_field_witness :
  exists f, extract dates_record = Ret f /\ dates f = s "1/24/2026 - 1/25/2026".
Proof.
  destruct (@dates_field dates_record
              [(s "html_content", VStr (s "<i> 1/24/2026 - 1/25/2026 </i><br>"))]
              (s "<i> 1/24/2026 - 1/25/2026 </i><br>") eq_refl eq_refl)
    as (f & Hf & Hfirst & _).
  exists f. split; [exact Hf|].
  exact (Hfirst _ dates_record_first_i_span).
Defined.

Lemma lstrip_head x c r : lstrip x = c :: r -> isspace c = false.
Proof.
  induction x as [|d x IH]; simpl; [discriminate|].
  destruct (isspace d) eqn:E; [exact IH|].
  intros H. injection H as <- _. exact E.
Qed.

Lemma lstrip_suffix x : exists pre, x = pre ++ lstrip x.
Proof.
  induction x as [|d x [pre IH]]; simpl.
  - now exists [].
  - destruct (isspace d).
    + exists (d :: pre). simpl. now rewrite <- IH.
    + now exists [].
Qed.

Lemma rstrip_prefix x : exists suf, x = rstrip x ++ suf.
Proof.
  unfold rstrip. destruct (lstrip_suffix (rev x)) as [pre E].
  exists (rev pre). rewrite <- rev_app_distr, <- E. now rewrite rev_involutive.
Qed.

Lemma strip_trimmed x : trimmed (strip x).
Proof.
  unfold trimmed, strip. split.
  - intros c r E. destruct (rstrip_prefix (lstrip x)) as [suf Es].
    rewrite E in Es. simpl in Es. now apply lstrip_head in Es.
  - intros r c E. unfold rstrip in E.
    apply (f_equal (@rev ascii)) in E.
    rewrite rev_involutive, rev_app_distr in E. simpl in E.
    now apply lstrip_head in E.
Qed.

Lemma nil_trimmed : trimmed [].
Proof.
  split; intros a b E; [discriminate|].
  destruct a; discriminate.
Qed.

(** X16: the dates, the location and the representative of a record
    never begin or end with white space. *)
Theorem fields_are_trimmed (event props : list (str * value)) (h : str) :
  dict_lookup event (s "properties") = Some (VDict props) ->
  dict_get props (s "html_content") (VStr []) = VStr h ->
  exists f,
    extract event = Ret f
    /\ trimmed (dates f) /\ trimmed (location f) /\ trimmed (rep_name f).
Proof.
  intros Hp Hh.
  destruct (extract_fields _ Hp Hh) as (f & Hf & _ & Hd & Hl & Hr & _).
  exists f. split; [assumption|].
  rewrite Hd, Hl, Hr.
  repeat split;
    repeat match goal with
           | |- context [search ?r h] => destruct (search r h)
           end;
    first [apply strip_trimmed | apply nil_trimmed].
Qed.

Lemma fields_are_trimmed_witness :
  exists f,
    extract dates_record = Ret f
    /\ trimmed (dates f) /\ trimmed (location f) /\ trimmed (rep_name f).
Proof.
  apply (@fields_are_trimmed dates_record
           [(s "html_content", VStr (s "<i> 1/24/2026 - 1/25/2026 </i><br>"))]
           (s "<i> 1/24/2026 - 1/25/2026 </i><br>") eq_refl eq_refl).
Defined.

(** ** The output line *)

Lemma split_on_not_nil sep x : split_on sep x <> [].
Proof.
  destruct x as [|c x]; simpl; [discriminate|].
  destruct (ascii_eqb c sep); [discriminate|].
  destruct (split_on sep x); discriminate.
Qed.

Lemma split_on_field sep a :
  ~ In sep a -> split_on sep a = [a].
Proof.
  induction a as [|c a IH]; intros Hn; simpl; [reflexivity|].
  destruct (ascii_eqb c sep) eqn:E.
  - apply ascii_eqb_eq in E. subst. exfalso. apply Hn. now left.
  - rewrite IH; [reflexivity|]. intros H. apply Hn. now right.
Qed.

Lemma split_on_app sep a b :
  ~ In sep a -> split_on sep (a ++ sep :: b) = a :: split_on sep b.
Proof.
  induction a as [|c a IH]; intros Hn; simpl.
  - assert (E : ascii_eqb sep sep = true) by now apply ascii_eqb_eq.
    now rewrite E.
  - destruct (ascii_eqb c sep) eqn:E.
    + apply ascii_eqb_eq in E. subst. exfalso. apply Hn. now left.
    + rewrite IH; [reflexivity|]. intros H. apply Hn. now right.
Qed.

(** X17: when no field holds the separator, the line splits back into
    its six fields, in the order name, distance, dates, location,
    representative, URL. *)
Theorem format_line_splits_back (f : fields) :
  ~ In "|"%char (to_str (event_name f)) -> ~ In "|"%char (distance f) ->
  ~ In "|"%char (dates f) -> ~ In "|"%char (location f) ->
  ~ In "|"%char (rep_name f) -> ~ In "|"%char (event_url f) ->
  split_on "|"%char (format_line f)
  = [to_str (event_name f); distance f; dates f; location f; rep_name f;
     event_url f].
Proof.
  intros H1 H2 H3 H4 H5 H6. unfold format_line, format_fields.
  change (s "|") with ["|"%char].
  repeat (change (["|"%char] ++ ?x) with ("|"%char :: x)).
  rewrite !split_on_app by assumption.
  now rewrite split_on_field.
Qed.

Lemma format_line_splits_back_witness :
  split_on "|"%char
    (format_line {| event_name := VStr (s "Smokeout"); distance := s "10 mi";
                    dates := []; location := s "Austin, TX 78701";
                    rep_name := s "JANE DOE"; event_url := [] |})
  = [s "Smokeout"; s "10 mi"; []; s "Austin, TX 78701"; s "JANE DOE"; []].
Proof.
  apply (@format_line_splits_back
           {| event_name := VStr (s "Smokeout"); distance := s "10 mi";
              dates := []; location := s "Austin, TX 78701";
              rep_name := s "JANE DOE"; event_url := [] |});
    vm_compute; intuition discriminate.
Defined.

(** ** The date range across a year *)

Ltac month_cases m :=
  let H := fresh "Hcases" in
  assert (H : m = 1 \/ m = 2 \/ m = 3 \/ m = 4 \/ m = 5 \/ m = 6 \/ m = 7
              \/ m = 8 \/ m = 9 \/ m = 10 \/ m = 11 \/ m = 12) by lia;
  repeat (destruct H as [H|H]); subst m.

(** Within a year, the ordinal tells the month and the day. *)
Lemma month_day_unique (leap : bool) (m1 d1 m2 d2 : Z) :
  1 <= m1 <= 12 -> 1 <= m2 <= 12 ->
  1 <= d1 <= (if (m1 =? 2) && leap then 29 else DAYS_IN_MONTH m1) ->
  1 <= d2 <= (if (m2 =? 2) && leap then 29 else DAYS_IN_MONTH m2) ->
  DAYS_BEFORE_MONTH m1 + (if (2 <? m1) && leap then 1 else 0) + d1
  = DAYS_BEFORE_MONTH m2 + (if (2 <? m2) && leap then 1 else 0) + d2 ->
  m1 = m2 /\ d1 = d2.
Proof.
  intros H1 H2. month_cases m1; month_cases m2; destruct leap;
    cbv [DAYS_BEFORE_MONTH DAYS_IN_MONTH Z.eqb Z.ltb Z.compare Pos.compare
         Pos.compare_cont Pos.eqb andb];
    lia.
Qed.

(** The ordinal tells the date. *)
Lemma toordinal_injective (t1 t2 : datetime) :
  valid t1 -> valid t2 -> toordinal t1 = toordinal t2 ->
  year t1 = year t2 /\ month t1 = month t2 /\ day t1 = day t2.
Proof.
  intros Hv1 Hv2 E.
  pose proof (toordinal_bounds Hv1) as B1.
  pose proof (toordinal_bounds Hv2) as B2.
  assert (Hy : year t1 = year t2).
  { destruct (Z.lt_trichotomy (year t1) (year t2)) as [H|[H|H]]; [|exact H|].
    - pose proof (@days_before_year_mono (year t1 + 1) (year t2) ltac:(lia)). lia.
    - pose proof (@days_before_year_mono (year t2 + 1) (year t1) ltac:(lia)). lia. }
  split; [exact Hy|].
  destruct Hv1 as (_ & Hm1 & Hd1), Hv2 as (_ & Hm2 & Hd2).
  unfold toordinal, ymd2ord, days_before_month, days_in_month in *.
  rewrite Hy in *.
  apply (@month_day_unique (is_leap (year t2))); auto. lia.
Qed.

Lemma next_year_ordinal (t : datetime) :
  valid t -> year t <= 9998 -> leap_day_ahead t = false ->
  valid (next_year t) /\ toordinal (next_year t) = toordinal t + 365.
Proof.
  intros (Hy & Hm & Hd) Hmax Hl.
  unfold leap_day_ahead in Hl. unfold MINYEAR, MAXYEAR in *.
  unfold valid, next_year, toordinal, ymd2ord, days_before_month,
    days_in_month in *. cbn [year month day].
  rewrite days_before_year_succ. unfold MINYEAR, MAXYEAR.
  destruct (Z.leb_spec (month t) 2) as [Hle|Hgt].
  - rewrite Hl in *.
    replace (2 <? month t) with false by (symmetry; apply Z.ltb_ge; lia).
    cbn [andb]. rewrite andb_false_r in Hd.
    split; [|lia]. repeat split; try lia.
    destruct ((month t =? 2) && is_leap (year t + 1)) eqn:E; [|lia].
    apply andb_true_iff in E. destruct E as [E _]. apply Z.eqb_eq in E.
    rewrite E in Hd. simpl in Hd. lia.
  - rewrite Hl.
    replace (month t =? 2) with false in * by (symmetry; apply Z.eqb_neq; lia).
    cbn [andb] in *. rewrite andb_false_r.
    split; [repeat split; lia|].
    replace (2 <? month t) with true by (symmetry; apply Z.ltb_lt; lia).
    cbn [andb]. destruct (is_leap (year t)); lia.
Qed.

(** X18: when no 29 February lies ahead within the year, the range ends
    on the same day of the next year. *)
Theorem get_date_range_same_day_next_year (w : world) :
  valid (clock w) -> year (clock w) <= 9998 ->
  leap_day_ahead (clock w) = false ->
  get_date_range w
  = (Ret (strftime_mdY (clock w), strftime_mdY (next_year (clock w))), w).
Proof.
  intros Hv Hy Hl.
  destruct (add_days_365 Hv Hy) as (t' & Hadd & Hv' & Hord & Htod & _).
  destruct (next_year_ordinal Hv Hy Hl) as (Hvn & Hon).
  destruct (@toordinal_injective t' (next_year (clock w)) Hv' Hvn ltac:(lia))
    as (E1 & E2 & E3).
  unfold get_date_range, bind, now. simpl. rewrite Hadd.
  unfold ret. do 2 f_equal. f_equal.
  unfold strftime_mdY. now rewrite E1, E2, E3.
Qed.

Lemma get_date_range_same_day_next_year_witness :
  get_date_range (sample_world None (Body []))
  = (Ret (s "11/04/2026", s "11/04/2027"), sample_world None (Body [])).
Proof.
  apply (@get_date_range_same_day_next_year (sample_world None (Body []))).
  - unfold valid; simpl. vm_compute. intuition discriminate.
  - simpl. lia.
  - reflexivity.
Defined.

(** ** The whole of [parse_events] *)

Lemma lines_of_chars (x : str) :
  flat_map lines_of_event (map (fun c => VStr [c]) x) = [].
Proof. induction x as [|c x IH]; simpl; auto. Qed.

Lemma lines_of_keys (d : list (str * value)) :
  flat_map lines_of_event (map (fun kv => VStr (fst kv)) d) = [].
Proof. induction d as [|kv d IH]; simpl; auto. Qed.

(** X19: what extraction returns, for every payload.  A payload that is
    false in a condition gives no line.  Otherwise the selected record
    value decides: a list gives the lines of its records in order; a
    string or a mapping gives no line (its characters or keys are no
    records); [None], a boolean or a number makes [len] raise
    [TypeError], which nothing catches. *)
Theorem parse_events_result (events_data : value) (w : world) :
  fst (parse_events events_data w)
  = if truthy events_data then
      match select_events events_data with
      | VList l => Ret (flat_map lines_of_event l)
      | VStr _ | VDict _ => Ret []
      | v => Raise (no_len_error v)
      end
    else Ret [].
Proof.
  unfold parse_events. destruct (truthy events_data); cbn [negb]; [|reflexivity].
  destruct (select_events events_data) as [| | | |x|l|d];
    unfold bind, lift, print; cbn [py_len py_iter fst snd]; try reflexivity;
    rewrite parse_loop_lines; cbn [app];
    [now rewrite lines_of_chars | reflexivity | now rewrite lines_of_keys].
Qed.

(** ** The output file *)



(** ** The representative: a pattern whose matches differ *)

Lemma first_caps_map (f : str -> str) (l : list way) :
  first_caps (map (fun w : way => let '(m, x, c) := w in (f m, x, c)) l)
  = first_caps l.
Proof. destruct l as [|[[m x] c] l]; reflexivity. Qed.

Lemma first_caps_app (l1 l2 : list way) :
  first_caps (l1 ++ l2)
  = match first_caps l1 with Some c => Some c | None => first_caps l2 end.
Proof. destruct l1 as [|[[m x] c] l1]; reflexivity. Qed.

Lemma first_caps_none (l : list way) : first_caps l = None -> l = [].
Proof. destruct l as [|[[m x] c] l]; [reflexivity|discriminate]. Qed.

Lemma runs_head p x :
  exists l, runs p x = (run_of p x, skipn (List.length (run_of p x)) x) :: l.
Proof.
  induction x as [|d x [l IH]]; simpl.
  - now exists [].
  - destruct (p d).
    + rewrite IH. simpl. eauto.
    + simpl. now exists [].
Qed.

(** The ways of the group [([^<]+)] that ends the pattern. *)
Lemma group_tail_first (y : str) (c : caps) :
  first_caps (ways (RCat (RGroup 1 (RPlus not_lt)) REps) y c)
  = match y with
    | d :: y' => if accepts not_lt d
                 then Some ((1%nat, d :: run_of (accepts not_lt) y') :: c)
                 else None
    | [] => None
    end.
Proof.
  cbn [ways]. destruct y as [|d y]; [reflexivity|].
  destruct (accepts not_lt d); [|reflexivity].
  destruct (runs_head (accepts not_lt) y) as [l ->]. reflexivity.
Qed.

Lemma rep_tail_step (d : ascii) (y : str) (c : caps) :
  isspace d = true ->
  first_caps (ways rep_tail_re (d :: y) c)
  = match first_caps (ways rep_tail_re y c) with
    | Some k => Some k
    | None => first_caps (ways (RCat (RGroup 1 (RPlus not_lt)) REps) (d :: y) c)
    end.
Proof.
  intros Hd. unfold rep_tail_re.
  set (G := RCat (RGroup 1 (RPlus not_lt)) REps).
  cbn [ways runs]. rewrite accepts_space, Hd.
  rewrite map_app, flat_map_app, first_caps_app. cbn [map flat_map fst snd app].
  rewrite app_nil_r.
  rewrite !map_map. cbn [fst snd].
  rewrite !flat_map_concat_map, !map_map.
  assert (Hk : forall l,
             first_caps (List.concat (map
               (fun x : list ascii * str =>
                  map (fun w2 : way => let '(m2, x2, c2) := w2 in
                                       ((d :: fst x) ++ m2, x2, c2))
                      (ways G (snd x) c)) l))
             = first_caps (List.concat (map
               (fun x : str * str =>
                  map (fun w2 : way => let '(m2, x2, c2) := w2 in
                                       (fst x ++ m2, x2, c2))
                      (ways G (snd x) c)) l))).
  { induction l as [|[m rest] l IH]; [reflexivity|].
    cbn [map List.concat]. rewrite !first_caps_app, IH. cbn [fst snd].
    destruct (ways G rest c) as [|[[m2 x2] c2] l2]; reflexivity. }
  rewrite Hk.
  match goal with
  | |- match ?a with _ => _ end = _ => destruct a; [reflexivity|]
  end.
  destruct (ways G (d :: y) c) as [|[[m2 x2] c2] l2]; reflexivity.
Qed.

Lemma run_of_stop p d y : p d = false -> run_of p (d :: y) = [].
Proof. intros H. simpl. now rewrite H. Qed.

(** The first way of [\s*([^<]+)] captures what [tail_capture] says. *)
Lemma rep_tail_first (y : str) (c : caps) :
  first_caps (ways rep_tail_re y c)
  = option_map (fun t => (1%nat, t) :: c) (tail_capture y).
Proof.
  induction y as [|d y IH].
  - reflexivity.
  - destruct (isspace d) eqn:Hd.
    + rewrite rep_tail_step by exact Hd. rewrite IH, group_tail_first.
      cbn [tail_capture]. rewrite Hd.
      destruct (tail_capture y) as [t|]; [reflexivity|].
      cbn [option_map].
      assert (Hn : accepts not_lt d = true).
      { apply accepts_not_lt. intros ->. discriminate. }
      now rewrite Hn.
    + cbn [tail_capture]. rewrite Hd.
      unfold rep_tail_re. cbn [ways runs]. rewrite accepts_space, Hd.
      cbn [map flat_map fst snd app]. rewrite app_nil_r.
      change (first_caps
                (map (fun w2 : way => let '(m2, x2, c2) := w2 in
                                      ([] ++ m2, x2, c2))
                     (ways (RCat (RGroup 1 (RPlus not_lt)) REps) (d :: y) c))
              = option_map (fun t => (1%nat, t) :: c)
                  (if accepts not_lt d
                   then Some (d :: run_of (accepts not_lt) y) else None)).
      rewrite (first_caps_map (fun m => [] ++ m)), group_tail_first.
      destruct (accepts not_lt d); reflexivity.
Qed.

Lemma ways_lit_chars (p x : str) (c : caps) :
  ways (lit_chars p) x c
  = if startswith x p then [(p, skipn (List.length p) x, c)] else [].
Proof.
  revert x. induction p as [|a p IH]; intros x.
  - destruct x; reflexivity.
  - destruct x as [|d x]; [reflexivity|].
    cbn [lit_chars ways startswith accepts List.length skipn].
    destruct (ascii_eqb a d) eqn:E; [|reflexivity].
    apply ascii_eqb_eq in E. subst d.
    cbn [flat_map andb]. rewrite IH, app_nil_r.
    destruct (startswith x p); reflexivity.
Qed.

Lemma first_caps_cat_lit (p : str) (r : regex) (x : str) (c : caps) :
  first_caps (ways (RCat (lit_chars p) r) x c)
  = if startswith x p then first_caps (ways r (skipn (List.length p) x) c)
    else None.
Proof.
  cbn [ways]. rewrite ways_lit_chars.
  destruct (startswith x p); [|reflexivity].
  cbn [flat_map]. rewrite app_nil_r.
  apply (first_caps_map (fun m => p ++ m)).
Qed.

Lemma first_caps_cat_opt (a : ascii) (r : regex) (x : str) (c : caps) :
  first_caps (ways (RCat (ROpt (AChar a)) r) x c)
  = match x with
    | d :: x' =>
        if ascii_eqb a d
        then match first_caps (ways r x' c) with
             | Some k => Some k
             | None => first_caps (ways r x c)
             end
        else first_caps (ways r x c)
    | [] => first_caps (ways r x c)
    end.
Proof.
  cbn [ways accepts].
  assert (H0 : forall z,
             first_caps
               (map (fun w2 : way => let '(m2, x2, c2) := w2 in
                                     ([] ++ m2, x2, c2)) (ways r z c))
             = first_caps (ways r z c))
    by (intros z; apply (first_caps_map (fun m => [] ++ m))).
  destruct x as [|d x].
  - cbn [flat_map]. rewrite app_nil_r. apply H0.
  - destruct (ascii_eqb a d).
    + cbn [flat_map]. rewrite app_nil_r, first_caps_app, H0.
      now rewrite (first_caps_map (fun m => [d] ++ m)).
    + cbn [flat_map]. rewrite app_nil_r. apply H0.
Qed.

Lemma startswith_nil (x : str) : startswith x [] = true.
Proof. now destruct x. Qed.

Lemma startswith_split (p q x : str) :
  startswith x (p ++ q)
  = startswith x p && startswith (skipn (List.length p) x) q.
Proof.
  revert x. induction p as [|a p IH]; intros x; [now destruct x|].
  destruct x as [|d x]; [reflexivity|].
  cbn [app startswith List.length skipn]. rewrite IH.
  now rewrite andb_assoc.
Qed.

(** What [re.match] finds for [rep_re]. *)
Lemma rep_re_first (x : str) :
  match_here rep_re x = option_map (fun t => [(1%nat, t)]) (rep_capture x).
Proof.
  change (match_here rep_re x) with (first_caps (ways rep_re x [])).
  change rep_re
    with (RCat (lit_chars (s "Rep"))
            (RCat (ROpt (AChar "s"%char))
               (RCat (lit_chars (s ":")) rep_tail_re))).
  rewrite first_caps_cat_lit. unfold rep_capture.
  change (s "Rep:") with (s "Rep" ++ s ":").
  change (s "Reps:") with (s "Rep" ++ s "s:").
  rewrite !startswith_split.
  destruct (startswith x (s "Rep")); [|reflexivity].
  cbn [andb].
  change (skipn 4 x) with (skipn (1 + 3) x).
  change (skipn 5 x) with (skipn (2 + 3) x).
  rewrite <- (skipn_skipn 1 3 x), <- (skipn_skipn 2 3 x).
  change (List.length (s "Rep")) with 3%nat.
  generalize (skipn 3 x). clear x. intros x.
  change (s ":") with [":"%char]. change (s "s:") with ["s"%char; ":"%char].
  rewrite first_caps_cat_opt.
  destruct x as [|d x].
  - rewrite first_caps_cat_lit. reflexivity.
  - rewrite !first_caps_cat_lit.
    cbn [startswith List.length skipn].
    destruct (ascii_eqb "s" d) eqn:Es.
    + apply ascii_eqb_eq in Es. subst d.
      change (ascii_eqb ":" "s") with false. cbn [andb].
      destruct x as [|e x]; [reflexivity|].
      cbn [startswith skipn]. rewrite !startswith_nil.
      destruct (ascii_eqb ":" e); cbn [andb].
      * rewrite rep_tail_first.
        destruct (tail_capture x); reflexivity.
      * reflexivity.
    + rewrite !startswith_nil.
      destruct (ascii_eqb ":" d) eqn:Ec; cbn [andb].
      * rewrite rep_tail_first. reflexivity.
      * reflexivity.
Qed.

(** [re.search] passes over the positions that have no match. *)
Lemma search_skip (r : regex) (pre suf : str) :
  (forall p1 p2, pre = p1 ++ p2 -> p2 <> [] ->
                 match_here r (p2 ++ suf) = None) ->
  search r (pre ++ suf) = search r suf.
Proof.
  induction pre as [|d pre IH]; intros H; [reflexivity|].
  pose proof (H [] (d :: pre) eq_refl) as H0.
  cbn [app] in *. cbn [search]. rewrite H0 by discriminate.
  apply IH. intros p1 p2 -> Hne. now apply (H (d :: p1) p2).
Qed.

Lemma search_here (r : regex) (x : str) (c : caps) :
  match_here r x = Some c -> search r x = Some c.
Proof. intros H. destruct x; cbn [search]; now rewrite H. Qed.

Lemma run_of_split p y :
  exists rest,
    y = run_of p y ++ rest
    /\ (rest = [] \/ exists d rest', rest = d :: rest' /\ p d = false).
Proof.
  induction y as [|d y (rest & E & Hr)]; cbn [run_of].
  - exists []. auto.
  - destruct (p d) eqn:Hd.
    + exists rest. split; [cbn [app]; now rewrite <- E|exact Hr].
    + exists (d :: y). split; [reflexivity|]. right. eauto.
Qed.

Lemma run_of_all p y : Forall (fun d => p d = true) (run_of p y).
Proof.
  induction y as [|d y IH]; cbn [run_of]; [constructor|].
  destruct (p d) eqn:Hd; constructor; assumption.
Qed.

Lemma run_of_app p t post :
  Forall (fun d => p d = true) t ->
  (post = [] \/ exists d post', post = d :: post' /\ p d = false) ->
  run_of p (t ++ post) = t.
Proof.
  intros Ht Hp. induction Ht as [|d t Hd _ IH]; cbn [app run_of].
  - destruct Hp as [->|(d & post' & -> & Hd)]; [reflexivity|].
    cbn [run_of]. now rewrite Hd.
  - now rewrite Hd, IH.
Qed.

Lemma tag_free_not_lt t :
  tag_free t <-> Forall (fun d => accepts not_lt d = true) t.
Proof.
  unfold tag_free. rewrite Forall_forall. split.
  - intros H d Hin. apply accepts_not_lt. intros ->. contradiction.
  - intros H Hin. apply H in Hin. now apply accepts_not_lt in Hin.
Qed.

Lemma strip_space_head d t : isspace d = true -> strip (d :: t) = strip t.
Proof. intros H. unfold strip. cbn [lstrip]. now rewrite H. Qed.

(** The capture and the whole text up to the next [<] differ by white
    space in front only. *)
Lemma tail_capture_strip y :
  match tail_capture y with
  | Some t => strip t = strip (run_of (accepts not_lt) y)
  | None => run_of (accepts not_lt) y = []
  end.
Proof.
  induction y as [|d y IH]; [reflexivity|].
  cbn [tail_capture run_of].
  destruct (isspace d) eqn:Hd.
  - assert (Hn : accepts not_lt d = true).
    { apply accepts_not_lt. intros ->. discriminate. }
    rewrite Hn. destruct (tail_capture y) as [t|].
    + rewrite IH. symmetry. now apply strip_space_head.
    + reflexivity.
  - destruct (accepts not_lt d); reflexivity.
Qed.

Lemma rep_capture_label label y :
  label = s "Rep:" \/ label = s "Reps:" ->
  rep_capture (label ++ y) = tail_capture y.
Proof.
  intros [-> | ->]; unfold rep_capture.
  - now rewrite startswith_app.
  - change (startswith (s "Reps:" ++ y) (s "Rep:")) with false.
    now rewrite startswith_app.
Qed.

Lemma startswith_skipn x p :
  startswith x p = true -> x = p ++ skipn (List.length p) x.
Proof.
  revert x. induction p as [|a p IH]; intros x; [reflexivity|].
  destruct x as [|d x]; [discriminate|].
  cbn [startswith List.length skipn app]. intros E.
  apply andb_prop in E. destruct E as [E1 E2].
  apply ascii_eqb_eq in E1. subst d. f_equal. now apply IH.
Qed.

Lemma rep_capture_shape x :
  rep_capture x <> None -> exists t, rep_text_at x [] t.
Proof.
  unfold rep_capture. intros H.
  assert (Hx : exists label y,
             x = label ++ y /\ (label = s "Rep:" \/ label = s "Reps:")
             /\ tail_capture y <> None).
  { destruct (startswith x (s "Rep:")) eqn:E1.
    - exists (s "Rep:"), (skipn 4 x). split; [|auto].
      exact (startswith_skipn _ _ E1).
    - destruct (startswith x (s "Reps:")) eqn:E2; [|contradiction].
      exists (s "Reps:"), (skipn 5 x). split; [|auto].
      exact (startswith_skipn _ _ E2). }
  destruct Hx as (label & y & -> & Hl & Ht).
  destruct (tail_capture y) as [t|] eqn:Et; [clear Ht|contradiction].
  destruct (run_of_split (accepts not_lt) y) as (rest & Ey & Hr).
  exists (run_of (accepts not_lt) y), label, rest.
  split; [cbn [app]; now rewrite <- Ey|].
  split; [exact Hl|]. split.
  - intros E0. destruct y as [|d y]; [discriminate Et|].
    cbn [tail_capture run_of] in Et, E0.
    destruct (accepts not_lt d) eqn:Hn; [discriminate E0|].
    destruct (isspace d) eqn:Hd; [|discriminate Et].
    assert (Hn' : accepts not_lt d = true).
    { apply accepts_not_lt. intros ->. discriminate. }
    congruence.
  - split; [apply tag_free_not_lt, run_of_all|].
    destruct Hr as [->|(d & rest' & -> & Hd)]; [now left|].
    right. exists rest'. f_equal.
    destruct (ascii_dec d "<"%char) as [->|Hne]; [reflexivity|].
    apply accepts_not_lt in Hne. congruence.
Qed.

Lemma rep_capture_at label t post :
  label = s "Rep:" \/ label = s "Reps:" ->
  t <> [] -> tag_free t ->
  (post = [] \/ exists post', post = "<"%char :: post') ->
  exists t', rep_capture (label ++ t ++ post) = Some t' /\ strip t' = strip t.
Proof.
  intros Hl Hne Hf Hp. rewrite rep_capture_label by exact Hl.
  assert (Hr : run_of (accepts not_lt) (t ++ post) = t).
  { apply run_of_app; [now apply tag_free_not_lt|].
    destruct Hp as [->|(post' & ->)]; [now left|].
    right. exists "<"%char, post'. split; reflexivity. }
  pose proof (tail_capture_strip (t ++ post)) as Hs. rewrite Hr in Hs.
  destruct (tail_capture (t ++ post)) as [t'|]; [eauto|contradiction].
Qed.

(** X21: for a record with a text as [html_content], the
    representative is the stripped text that follows the first label
    [Rep:] or [Reps:] with something other than [<] behind it, up to
    the next [<] or the end of the text; it is empty when the text has
    no such label. *)
Theorem rep_name_field (event props : list (str * value)) (h : str) :
  dict_lookup event (s "properties") = Some (VDict props) ->
  dict_get props (s "html_content") (VStr []) = VStr h ->
  exists f,
    extract event = Ret f
    /\ (forall t, leftmost rep_text_at h t -> rep_name f = strip t)
    /\ (nowhere rep_text_at h -> rep_name f = []).
Proof.
  intros Hp Hh.
  destruct (extract_fields _ Hp Hh) as (f & Hf & _ & _ & _ & Hr & _).
  exists f. split; [assumption|].
  assert (Hnone : forall p1 z,
             h = p1 ++ z -> (forall t, ~ rep_text_at h p1 t) ->
             match_here rep_re z = None).
  { intros p1 z E Hno. rewrite rep_re_first.
    destruct (rep_capture z) as [t|] eqn:Ec; [|reflexivity].
    destruct (@rep_capture_shape z) as (t0 & label & post & Ez & Hrest).
    { rewrite Ec. discriminate. }
    exfalso. apply (Hno t0). exists label, post. split; [|exact Hrest].
    rewrite E. now f_equal. }
  split.
  - intros t (pre & (label & post & E & Hl & Hne & Htf & Hpost) & Hfirst).
    destruct (rep_capture_at Hl Hne Htf Hpost) as (t' & Ec & Es).
    rewrite Hr, E, search_skip.
    + rewrite (@search_here rep_re (label ++ t ++ post) [(1%nat, t')]).
      * unfold group_text. cbn [group Nat.eqb]. exact Es.
      * rewrite rep_re_first, Ec. reflexivity.
    + intros p1 p2 Epre Hp2. apply (Hnone p1).
      * rewrite E, Epre, <- app_assoc. reflexivity.
      * intros t0 H0. apply Hfirst in H0. rewrite Epre, length_app in H0.
        destruct p2; [congruence|]. cbn [List.length] in H0. lia.
  - intros Hno. rewrite Hr.
    replace (search rep_re h) with (@None caps); [reflexivity|].
    symmetry. apply search_none. intros pre c (m & post & E & Hm).
    assert (Hmh : match_here rep_re (m ++ post) = None).
    { apply (Hnone pre); [exact E|]. intros t. apply Hno. }
    apply (@match_here_none rep_re (m ++ post) c Hmh).
    exists m, post. split; [reflexivity|exact Hm].
Qed.

Lemma rep_record_first_rep :
  leftmost rep_text_at (s "Reps:  BILL JONES <br>") (s "  BILL JONES ").
Proof.
  exists []. split.
  - exists (s "Reps:"), (s "<br>"). split; [reflexivity|].
    split; [now right|]. split; [discriminate|].
    split; [|right; now exists (s "br>")].
    unfold tag_free. vm_compute. intuition discriminate.
  - intros pre' t' _. cbn [List.length]. lia.
Qed.

Lemma rep_name_field_witness :
  exists f,
    extract rep_record = Ret f
    /\ rep_name f = s "BILL JONES".
Proof.
  destruct (@rep_name_field rep_record
              [(s "html_content", VStr (s "Reps:  BILL JONES <br>"))]
              (s "Reps:  BILL JONES <br>") eq_refl eq_refl)
    as (f & Hf & Hfirst & _).
  exists f. split; [exact Hf|].
  rewrite (Hfirst _ rep_record_first_rep). reflexivity.
Defined.

(** ** The shape of the detail URL *)

Lemma startswith_same_prefix (p x q : str) :
  startswith (p ++ x) (p ++ q) = startswith x q.
Proof.
  rewrite startswith_split, startswith_app. cbn [andb].
  now rewrite skipn_app, skipn_all, Nat.sub_diag.
Qed.

Lemma absolute_url_cases (g : str) :
  startswith (absolute_url g) (URL_HOST ++ s "/") = true
  \/ (startswith g (s "http") = true /\ absolute_url g = g).
Proof.
  unfold absolute_url. destruct (startswith g (s "http")) eqn:E; [now right|].
  left. destruct (startswith g (s "/")) eqn:Es.
  - now rewrite startswith_same_prefix.
  - rewrite startswith_same_prefix. apply startswith_app.
Qed.

(** X15: the detail URL of a record with a text as [html_content] is
    empty, or begins with the host and a slash, or is a hyperlink target
    of the text that begins with [http] and was taken as it stands.
    The last case need not be an absolute URL. *)
Theorem event_url_shape (event props : list (str * value)) (h : str) :
  dict_lookup event (s "properties") = Some (VDict props) ->
  dict_get props (s "html_content") (VStr []) = VStr h ->
  exists f,
    extract event = Ret f
    /\ (event_url f = []
        \/ startswith (event_url f) (URL_HOST ++ s "/") = true
        \/ (startswith (event_url f) (s "http") = true
            /\ exists pre, href_at h pre (event_url f))).
Proof.
  intros Hp Hh.
  destruct (extract_fields _ Hp Hh) as (f & Hf & _ & _ & _ & _ & Hurl).
  exists f. split; [assumption|].
  rewrite url_of_text in Hurl. injection Hurl as Hurl. rewrite <- Hurl.
  assert (Hpre : forall x, startswith (URL_PREFIX ++ x) (URL_HOST ++ s "/") = true)
    by reflexivity.
  destruct (truthy (record_id event props)); [right; left; apply Hpre|].
  destruct (search onclick_re h); [right; left; apply Hpre|].
  destruct (search onclick_re2 h); [right; left; apply Hpre|].
  destruct (search view_event_re h); [right; left; apply Hpre|].
  destruct (search href_re h) as [c|] eqn:Hs; [|now left].
  right.
  destruct (absolute_url_cases (group_text c 1)) as [Habs|[Hhttp Hsame]];
    [now left|right].
  rewrite Hsame. split; [exact Hhttp|].
  destruct (@search_some href_re h c Hs) as (pre & Hocc & _).
  apply href_re_occurs in Hocc. destruct Hocc as (g & Hat & Hg).
  exists pre. unfold group_text. now rewrite Hg.
Qed.

Lemma event_url_shape_witness :
  (exists f,
      extract evid_record = Ret f
      /\ startswith (event_url f) (URL_HOST ++ s "/") = true)
  /\ (exists f,
         extract http_href_record = Ret f
         /\ event_url f = s "httpevr?evid=4"
         /\ exists pre, href_at http_href_html pre (event_url f)).
Proof.
  split.
  - destruct (@event_url_shape evid_record
                [(s "evid", VStr (s "39161"));
                 (s "html_content",
                  VStr (s "<a onclick='viewEvent(999)'>Details</a>"))]
                (s "<a onclick='viewEvent(999)'>Details</a>")
                eq_refl eq_refl) as (f & Hf & _).
    exists f. split; [exact Hf|].
    vm_compute in Hf. injection Hf as <-. reflexivity.
  - destruct (@event_url_shape http_href_record
                [(s "html_content", VStr http_href_html)] http_href_html
                eq_refl eq_refl) as (f & Hf & H).
    exists f. split; [exact Hf|].
    assert (E : event_url f = s "httpevr?evid=4")
      by (vm_compute in Hf; injection Hf as <-; reflexivity).
    split; [exact E|].
    destruct H as [H|[H|[_ H]]]; [| |exact H]; rewrite E in H; discriminate H.
Defined.
